(** * Resilient LLM invocation layer of QuestionGenerator.tsx

    A shallow embedding of the Gemini integration code of
    [src/components/QuestionGenerator.tsx]:

    - the API-key rotation manager ([setGeminiApiKeys], [getNextGeminiKey],
      [markKeyError], [markKeySuccess], [getApiKeyStats]),
    - the retry loop of [callGeminiAPI],
    - the tolerant JSON parser ([sanitizeJsonString], [parseJsonRobust]),
    - the key list of the component ([getValidApiKeys], [addApiKey],
      [removeApiKey], [handleBulkApiKeyPaste]),
    - the validator built on the call and the parser
      ([validateQuestionWithGeminiAI]).

    JavaScript strings are sequences of UTF-16 code units; module-level
    variables are threaded as an explicit store; exceptions are a result
    type; the network and the clock are an explicit environment; waiting
    ([setTimeout]) and requests ([fetch]) are recorded in an event trace. *)

From Stdlib Require Import ZArith NArith List Lia String Ascii DecimalString Bool.
From stdpp Require Import base list.
From Equations Require Import Equations.

Open Scope N_scope.

(** ** JavaScript strings *)

(** A string is its list of UTF-16 code units. *)
Definition jsstring := list N.

(** An ASCII literal of the source, as code units. *)
Definition js (s : string) : jsstring :=
  map N_of_ascii (list_ascii_of_string s).

(** [`${n}`] for a non-negative integer. *)
Definition decimal (n : nat) : jsstring :=
  js (NilEmpty.string_of_uint (Nat.to_uint n)).

Definition code_eqb (a b : N) : bool := N.eqb a b.

Fixpoint jsstring_eqb (a b : jsstring) : bool :=
  match a, b with
  | [], [] => true
  | x :: a', y :: b' => code_eqb x y && jsstring_eqb a' b'
  | _, _ => false
  end.

(** WhiteSpace and LineTerminator code points of ECMAScript: what
    [String.prototype.trim] strips and what [\s] matches. *)
Definition isWhiteSpace (c : N) : bool :=
  (9 <=? c) && (c <=? 13)
  || (c =? 32) || (c =? 160) || (c =? 5760)
  || (8192 <=? c) && (c <=? 8202)
  || (c =? 8232) || (c =? 8233) || (c =? 8239) || (c =? 8287)
  || (c =? 12288) || (c =? 65279).

Fixpoint trimStart (s : jsstring) : jsstring :=
  match s with
  | [] => []
  | c :: r => if isWhiteSpace c then trimStart r else s
  end.

Definition trimEnd (s : jsstring) : jsstring := rev (trimStart (rev s)).

(** [s.trim()] *)
Definition trim (s : jsstring) : jsstring := trimEnd (trimStart s).

(** [s === ''] *)
Definition isEmptyString (s : jsstring) : bool :=
  match s with [] => true | _ => false end.

(** ** Values

    The values [JSON.parse] builds, which are also the values the code can
    meet where it expects a string.  A number is kept as its lexeme; an
    object as its members in order of first appearance. *)

#[warnings="-register-all"]
Inductive JsonValue :=
| JNull
| JBool (b : bool)
| JNumber (lexeme : jsstring)
| JString (s : jsstring)
| JArray (elements : list JsonValue)
| JObject (members : list (jsstring * JsonValue)).

(** ** Exceptions *)

(** What a [throw] carries: an [Error] built by the code with its message,
    or the engine's [TypeError] for a property read on [undefined]. *)
Inductive JsError :=
| Error (message : jsstring)
| TypeError.

Inductive completion (A : Type) :=
| Normal (a : A)
| Throw (e : JsError).
Arguments Normal {A} a.
Arguments Throw {A} e.

(** ** API key rotation *)

(** [interface ApiKeyState].  The counters are JavaScript numbers holding
    integers (exact below 2^53); [null] is [None].  [lastError] is declared
    a string; it holds whatever [markKeyError] was given, which
    [callGeminiAPI] takes from the parsed body of an error response: a
    string is a [JString]. *)
Record ApiKeyState := mkApiKeyState {
  key : jsstring;
  usageCount : Z;
  errorCount : Z;
  lastError : option JsonValue;
  lastUsedAt : option Z;
  isActive : bool
}.

(** The two module-level variables. *)
Record KeyStore := mkKeyStore {
  API_KEY_STATES : list ApiKeyState;
  currentKeyIndex : nat
}.

(** The store when the module is loaded:
    [let API_KEY_STATES = []; let currentKeyIndex = 0]. *)
Definition initialStore : KeyStore := mkKeyStore [] 0.

Definition noValidKeysMessage : jsstring := js "No valid API keys provided".

Definition freshKeyState (k : jsstring) : ApiKeyState :=
  mkApiKeyState (trim k) 0 0 None None true.

Definition validKeys (keys : list jsstring) : list jsstring :=
  List.filter (fun k => negb (isEmptyString (trim k))) keys.

(** [setGeminiApiKeys(keys)] *)
Definition setGeminiApiKeys (keys : list jsstring) (st : KeyStore)
  : completion unit * KeyStore :=
  let valid := validKeys keys in
  if (length valid =? 0)%nat then (Throw (Error noValidKeysMessage), st)
  else (Normal tt, mkKeyStore (map freshKeyState valid) 0).

Definition noKeysConfiguredMessage : jsstring :=
  js "No Gemini API keys configured. Please add API keys first.".

(** Outcome of the [while (attempts < API_KEY_STATES.length)] scan. *)
Inductive ScanResult :=
| Found (selectedIndex : nat) (keyState : ApiKeyState)
| AllInactive
| ReadUndefined.

(** The scan loop; [remaining] is [API_KEY_STATES.length - attempts].
    Reading [isActive] of an element that does not exist raises. *)
Fixpoint scanKeys (pool : list ApiKeyState) (remaining selectedIndex : nat)
  : ScanResult :=
  match remaining with
  | O => AllInactive
  | S remaining' =>
      match pool !! selectedIndex with
      | None => ReadUndefined
      | Some keyState =>
          if isActive keyState then Found selectedIndex keyState
          else scanKeys pool remaining' ((selectedIndex + 1) mod length pool)%nat
      end
  end.

(** [keyState.usageCount++; keyState.lastUsedAt = Date.now()] *)
Definition useKey (now : Z) (k : ApiKeyState) : ApiKeyState :=
  mkApiKeyState (key k) (usageCount k + 1) (errorCount k) (lastError k)
    (Some now) (isActive k).

(** [state.isActive = true; state.errorCount = 0] *)
Definition resetKey (k : ApiKeyState) : ApiKeyState :=
  mkApiKeyState (key k) (usageCount k) 0 (lastError k) (lastUsedAt k) true.

(** The [forEach] that re-activates every key. *)
Definition resetAllKeys (st : KeyStore) : KeyStore :=
  mkKeyStore (map resetKey (API_KEY_STATES st)) (currentKeyIndex st).

Definition inactiveCount (st : KeyStore) : nat :=
  length (List.filter (fun k => negb (isActive k)) (API_KEY_STATES st)).

Lemma inactiveCount_resetAllKeys st : inactiveCount (resetAllKeys st) = 0%nat.
Proof.
  unfold inactiveCount, resetAllKeys; simpl.
  induction (API_KEY_STATES st) as [|k pool IH]; simpl; auto.
Qed.

Lemma scanKeys_AllInactive_inactive pool n i :
  scanKeys pool (S n) i = AllInactive ->
  (0 < length (List.filter (fun k => negb (isActive k)) pool))%nat.
Proof.
  simpl. destruct (pool !! i) as [k|] eqn:Hk; [|discriminate].
  destruct (isActive k) eqn:Hact; [discriminate|]. intros _.
  apply list_elem_of_lookup_2, list_elem_of_In in Hk.
  assert (Hin : In k (List.filter (fun k => negb (isActive k)) pool)).
  { apply filter_In. rewrite Hact. auto. }
  destruct (List.filter _ pool); [destruct Hin | simpl; lia].
Qed.

Definition inspect {A : Type} (x : A) : { y : A | x = y } := exist _ x eq_refl.

(** [getNextGeminiKey()], given the reading [now] of [Date.now()].  The
    recursive call happens after the reset, when no key is inactive any
    more, so the number of inactive keys decreases. *)
Equations? getNextGeminiKey (now : Z) (st : KeyStore)
  : completion (jsstring * nat) * KeyStore
  by wf (inactiveCount st) lt :=
getNextGeminiKey now st with length (API_KEY_STATES st) := {
  | O => (Throw (Error noKeysConfiguredMessage), st)
  | S n
      with inspect (scanKeys (API_KEY_STATES st) (S n) (currentKeyIndex st)) := {
      | exist _ (Found selectedIndex keyState) _ =>
          (Normal (key keyState, selectedIndex),
           mkKeyStore (<[selectedIndex := useKey now keyState]> (API_KEY_STATES st))
                      ((selectedIndex + 1) mod length (API_KEY_STATES st))%nat)
      | exist _ ReadUndefined _ => (Throw TypeError, st)
      | exist _ AllInactive Hscan => getNextGeminiKey now (resetAllKeys st) } }.
Proof.
  rewrite inactiveCount_resetAllKeys.
  exact (scanKeys_AllInactive_inactive _ _ _ Hscan).
Qed.

(** [markKeyError(keyIndex, errorMessage)] *)
Definition failKey (errorMessage : JsonValue) (k : ApiKeyState) : ApiKeyState :=
  let n := (errorCount k + 1)%Z in
  mkApiKeyState (key k) (usageCount k) n (Some errorMessage) (lastUsedAt k)
    (if (n >=? 3)%Z then false else isActive k).

Definition markKeyError (keyIndex : Z) (errorMessage : JsonValue) (st : KeyStore)
  : KeyStore :=
  if (keyIndex >=? 0)%Z && (keyIndex <? Z.of_nat (length (API_KEY_STATES st)))%Z
  then mkKeyStore (alter (failKey errorMessage) (Z.to_nat keyIndex) (API_KEY_STATES st))
                  (currentKeyIndex st)
  else st.

(** [markKeySuccess(keyIndex)] *)
Definition succeedKey (k : ApiKeyState) : ApiKeyState :=
  mkApiKeyState (key k) (usageCount k) 0 None (lastUsedAt k) (isActive k).

Definition markKeySuccess (keyIndex : Z) (st : KeyStore) : KeyStore :=
  if (keyIndex >=? 0)%Z && (keyIndex <? Z.of_nat (length (API_KEY_STATES st)))%Z
  then mkKeyStore (alter succeedKey (Z.to_nat keyIndex) (API_KEY_STATES st))
                  (currentKeyIndex st)
  else st.

(** One entry of [getApiKeyStats()]. *)
Record KeyStats := mkKeyStats {
  stat_index : nat;
  stat_usageCount : Z;
  stat_errorCount : Z;
  stat_lastError : option JsonValue;
  stat_isActive : bool;
  stat_lastUsedAt : jsstring
}.

(** [state.lastUsedAt ? new Date(state.lastUsedAt).toLocaleString() : 'Never'];
    the rendering of a date depends on the host's locale and is a parameter. *)
Definition renderLastUsedAt (toLocaleString : Z -> jsstring) (t : option Z)
  : jsstring :=
  match t with
  | None => js "Never"
  | Some ms => if (ms =? 0)%Z then js "Never" else toLocaleString ms
  end.

(** [getApiKeyStats()] *)
Definition getApiKeyStats (toLocaleString : Z -> jsstring) (st : KeyStore)
  : list KeyStats :=
  imap (fun index state =>
          mkKeyStats (index + 1) (usageCount state) (errorCount state)
            (lastError state) (isActive state)
            (renderLastUsedAt toLocaleString (lastUsedAt state)))
       (API_KEY_STATES st).

(** The operations a client can perform on the store, and their effect. *)
Inductive KeyOp :=
| OpSetKeys (keys : list jsstring)
| OpGetNext (now : Z)
| OpMarkError (keyIndex : Z) (errorMessage : JsonValue)
| OpMarkSuccess (keyIndex : Z).

Definition applyOp (st : KeyStore) (op : KeyOp) : KeyStore :=
  match op with
  | OpSetKeys keys => snd (setGeminiApiKeys keys st)
  | OpGetNext now => snd (getNextGeminiKey now st)
  | OpMarkError i m => markKeyError i m st
  | OpMarkSuccess i => markKeySuccess i st
  end.

Definition runOps (ops : list KeyOp) (st : KeyStore) : KeyStore :=
  fold_left applyOp ops st.

(** ** The retry loop of callGeminiAPI *)

Fixpoint isPrefixOf (p s : jsstring) : bool :=
  match p, s with
  | [], _ => true
  | _ :: _, [] => false
  | a :: p', b :: s' => code_eqb a b && isPrefixOf p' s'
  end.

(** [s.includes(needle)] *)
Fixpoint includes (needle s : jsstring) : bool :=
  isPrefixOf needle s ||
  match s with
  | [] => false
  | _ :: s' => includes needle s'
  end.

(** What the code observes of an error response ([!response.ok]):
    either reading the body fails, or it yields [errorText] together with
    [errorData.error?.message], when [JSON.parse(errorText)] succeeds and
    the field is there.  That value is a string in [ErrorText].  In
    [ErrorValue] it is a value of any type, and [notAFunction] is the
    message of the engine's [TypeError] for calling a method the value
    does not have. *)
Inductive ErrorBody :=
| ErrorTextRejects (message : jsstring)
| ErrorText (errorText : jsstring) (parsedMessage : option jsstring)
| ErrorValue (errorText : jsstring) (parsedMessage : JsonValue)
    (notAFunction : jsstring).

(** What the code observes of [data = await response.json()]. *)
Record GeminiData := mkGeminiData {
  hasContent : bool;               (* data.candidates?.[0]?.content is truthy *)
  blockReason : option jsstring;   (* data.promptFeedback?.blockReason *)
  partText : option jsstring       (* content.parts && content.parts[0]?.text *)
}.

Inductive OkBody :=
| BodyRejects (message : jsstring)   (* response.json() rejects, or reading data raises *)
| BodyData (data : GeminiData).

(** The answer of the remote end to one [fetch]. *)
Inductive FetchOutcome :=
| FetchRejects (message : jsstring)
| ResponseNotOk (status : Z) (body : ErrorBody)
| ResponseOk (body : OkBody).

(** The environment of one call: the answer to the n-th request and the
    reading of [Date.now()] during the n-th key selection (n counts from 1,
    as [attemptCount] does). *)
Record Env := mkEnv {
  outcome : nat -> FetchOutcome;
  clock : nat -> Z
}.

(** Observable effects, in program order. *)
Inductive Event :=
| EvFetch (apiKey : jsstring)
| EvSleep (ms : Z).

(** A JavaScript string is truthy when it is not empty. *)
Definition truthy (o : option jsstring) : bool :=
  match o with
  | Some s => negb (isEmptyString s)
  | None => false
  end.

Definition promptEmptyMessage : jsstring := js "Prompt cannot be empty".

Definition exhaustedMessage (attemptCount : nat) : jsstring :=
  js "Failed to generate content after " ++ decimal attemptCount ++
  js " attempts across all API keys. Please check your API keys and try again.".

(** How one iteration of the [while] loop ends. *)
Inductive Step :=
| Continue
| Return (responseText : jsstring)
| Raise (e : JsError).

(** The [catch (error)] block of the loop body. *)
Definition catchBlock (maxTotalRetries attemptCount : nat) (keyIndex : Z)
    (message : jsstring) (st : KeyStore) : Step * KeyStore * list Event :=
  (Continue, markKeyError keyIndex (JString message) st,
   if (attemptCount <? maxTotalRetries)%nat then [EvSleep 10000] else []).

(** [errorData.error?.message || errorText] *)
Definition errorMessageOf (errorText : jsstring) (parsedMessage : option jsstring)
  : jsstring :=
  if truthy parsedMessage then default [] parsedMessage else errorText.

(** The digits at the head of [s], read as a number that continues
    [acc], and what follows them. *)
Fixpoint digitsValue (acc : N) (s : jsstring) : N * jsstring :=
  match s with
  | c :: r =>
      if (48 <=? c)%N && (c <=? 57)%N
      then digitsValue (acc * 10 + (c - 48)) r
      else (acc, s)
  | [] => (acc, [])
  end.

(** Whether the number a JSON lexeme denotes is 0 as a double: its digits
    are all 0, or it is so small that it rounds to 0, which is the case
    up to half the least positive double, 2^-1075.  The lexeme is
    [-? digits (. digits)? ((e|E) (+|-)? digits)?]. *)
Definition numberIsZero (lexeme : jsstring) : bool :=
  let unsigned :=
    match lexeme with
    | c :: r => if (c =? 45)%N then r else lexeme
    | [] => lexeme
    end in
  let '(whole, afterWhole) := digitsValue 0 unsigned in
  let '(mantissa, fractionDigits, afterFraction) :=
    match afterWhole with
    | c :: r =>
        if (c =? 46)%N
        then let '(m, rest) := digitsValue whole r in
             (m, (length r - length rest)%nat, rest)
        else (whole, 0%nat, afterWhole)
    | [] => (whole, 0%nat, afterWhole)
    end in
  let exponent :=
    match afterFraction with
    | c :: r =>
        if (c =? 101)%N || (c =? 69)%N
        then match r with
             | sign :: d =>
                 if (sign =? 45)%N then (- Z.of_N (fst (digitsValue 0 d)))%Z
                 else if (sign =? 43)%N then Z.of_N (fst (digitsValue 0 d))
                 else Z.of_N (fst (digitsValue 0 r))
             | [] => 0%Z
             end
        else 0%Z
    | [] => 0%Z
    end in
  let e := (exponent - Z.of_nat fractionDigits)%Z in
  (mantissa =? 0)%N ||
  ((e <? 0)%Z && (Z.of_N mantissa * 2 ^ 1075 <=? 10 ^ (- e))%Z).

(** ToBoolean: [null], [false], 0 and the empty string are falsy, every
    other value is truthy. *)
Definition toBoolean (v : JsonValue) : bool :=
  match v with
  | JNull => false
  | JBool b => b
  | JNumber lexeme => negb (numberIsZero lexeme)
  | JString s => negb (isEmptyString s)
  | JArray _ | JObject _ => true
  end.

(** [errorData.error?.message || errorText], for a message of any type. *)
Definition errorValueOf (errorText : jsstring) (parsedMessage : JsonValue)
  : JsonValue :=
  if toBoolean parsedMessage then parsedMessage else JString errorText.

(** [errorMessage.includes(needle)].  A string has the method, and so has
    an array, which is searched for an element equal to the needle; on any
    other value the call throws a [TypeError] ([None]). *)
Definition includesOf (needle : jsstring) (errorMessage : JsonValue)
  : option bool :=
  match errorMessage with
  | JString s => Some (includes needle s)
  | JArray elements =>
      Some (existsb (fun element => match element with
                                    | JString s => jsstring_eqb s needle
                                    | _ => false
                                    end) elements)
  | _ => None
  end.

(** Whether a value has the method [includes]. *)
Definition hasIncludes (errorMessage : JsonValue) : bool :=
  match errorMessage with
  | JString _ | JArray _ => true
  | _ => false
  end.

(** [response.status === status && errorMessage.includes(needle)]: the
    method is called only when the status is the one tested. *)
Definition statusAndIncludes (tested status : Z) (needle : jsstring)
    (errorMessage : JsonValue) : option bool :=
  if (status =? tested)%Z then includesOf needle errorMessage else Some false.

(** The [if (!response.ok)] branch once [errorMessage] has its value.  A
    [TypeError] of [includes] is thrown inside the [try], after the
    failure has been reported, and is handled by the [catch] block, which
    reports a second failure. *)
Definition notOkBranch (maxTotalRetries attemptCount : nat) (status : Z)
    (keyIndex : Z) (errorMessage : JsonValue) (notAFunction : jsstring)
    (st : KeyStore) : Step * KeyStore * list Event :=
  let st' := markKeyError keyIndex errorMessage st in
  match statusAndIncludes 403 status (js "unregistered callers") errorMessage with
  | None => catchBlock maxTotalRetries attemptCount keyIndex notAFunction st'
  | Some true => (Continue, st', [EvSleep 10000])
  | Some false =>
      match statusAndIncludes 400 status (js "API key not valid") errorMessage with
      | None => catchBlock maxTotalRetries attemptCount keyIndex notAFunction st'
      | Some true => (Continue, st', [])
      | Some false =>
          if (status =? 429)%Z || (status >=? 500)%Z
          then (Continue, st', [EvSleep 10000])
          else (Continue, st', [EvSleep 10000])
      end
  end.

(** The rest of the [try] block, for a response with [response.ok]. *)
Definition okBranch (maxTotalRetries attemptCount : nat) (keyIndex : Z)
    (data : GeminiData) (st : KeyStore) : Step * KeyStore * list Event :=
  if negb (hasContent data) then
    if truthy (blockReason data) then
      catchBlock maxTotalRetries attemptCount keyIndex
        (js "Content blocked by Gemini: " ++ default [] (blockReason data)) st
    else
      (Continue, markKeyError keyIndex (JString (js "Invalid response structure")) st,
       [EvSleep 10000])
  else if negb (truthy (partText data)) then
    (Continue, markKeyError keyIndex (JString (js "No text content in response")) st,
     [EvSleep 10000])
  else
    (Return (default [] (partText data)), markKeySuccess keyIndex st, []).

(** The body of the [while] loop; [attemptCount] is its value after the
    increment. *)
Definition attemptBody (env : Env) (maxTotalRetries attemptCount : nat)
    (st : KeyStore) : Step * KeyStore * list Event :=
  match getNextGeminiKey (clock env attemptCount) st with
  | (Throw e, st1) => (Raise e, st1, [])
  | (Normal (apiKey, keyIndex), st1) =>
      let ki := Z.of_nat keyIndex in
      let '(step, st2, events) :=
        match outcome env attemptCount with
        | FetchRejects m => catchBlock maxTotalRetries attemptCount ki m st1
        | ResponseNotOk status (ErrorTextRejects m) =>
            catchBlock maxTotalRetries attemptCount ki m st1
        | ResponseNotOk status (ErrorText errorText parsed) =>
            notOkBranch maxTotalRetries attemptCount status ki
              (JString (errorMessageOf errorText parsed)) [] st1
        | ResponseNotOk status (ErrorValue errorText parsed notAFunction) =>
            notOkBranch maxTotalRetries attemptCount status ki
              (errorValueOf errorText parsed) notAFunction st1
        | ResponseOk (BodyRejects m) =>
            catchBlock maxTotalRetries attemptCount ki m st1
        | ResponseOk (BodyData data) =>
            okBranch maxTotalRetries attemptCount ki data st1
        end in
      (step, st2, EvFetch apiKey :: events)
  end.

(** [while (attemptCount < maxTotalRetries) { attemptCount++; ... }] followed
    by the final [throw]; [remaining] is [maxTotalRetries - attemptCount]. *)
Fixpoint retryLoop (env : Env) (maxTotalRetries remaining attemptCount : nat)
    (st : KeyStore) : completion jsstring * KeyStore * list Event :=
  match remaining with
  | O => (Throw (Error (exhaustedMessage attemptCount)), st, [])
  | S remaining' =>
      match attemptBody env maxTotalRetries (S attemptCount) st with
      | (Continue, st', events) =>
          let '(result, st'', events') :=
            retryLoop env maxTotalRetries remaining' (S attemptCount) st' in
          (result, st'', events ++ events')
      | (Return responseText, st', events) => (Normal responseText, st', events)
      | (Raise e, st', events) => (Throw e, st', events)
      end
  end.

(** [callGeminiAPI(prompt, ...)].  The image and the generation parameters
    only fill the request body; what comes back is the environment's. *)
Definition callGeminiAPI (env : Env) (prompt : jsstring) (st : KeyStore)
  : completion jsstring * KeyStore * list Event :=
  let maxTotalRetries := (length (API_KEY_STATES st) * 3)%nat in
  if isEmptyString prompt || isEmptyString (trim prompt)
  then (Throw (Error promptEmptyMessage), st, [])
  else retryLoop env maxTotalRetries maxTotalRetries 0 st.

(** ** String operations used by the parser *)

(** The code unit of an ASCII character of the source. *)
Definition ch (a : ascii) : N := N_of_ascii a.
Arguments ch a%_char.

(** [s.indexOf(c)], [None] for [-1]. *)
Fixpoint indexOf (c : N) (s : jsstring) : option nat :=
  match s with
  | [] => None
  | x :: r => if code_eqb x c then Some O
              else match indexOf c r with Some i => Some (S i) | None => None end
  end.

(** [s.lastIndexOf(c)] *)
Fixpoint lastIndexOf (c : N) (s : jsstring) : option nat :=
  match s with
  | [] => None
  | x :: r => match lastIndexOf c r with
              | Some i => Some (S i)
              | None => if code_eqb x c then Some O else None
              end
  end.

(** [s.substring(start, end)]: both ends are clamped to the length and
    swapped when [start > end]. *)
Definition substring (start end_ : nat) (s : jsstring) : jsstring :=
  let lo := Nat.min start end_ in
  let hi := Nat.max start end_ in
  take (hi - lo) (drop lo s).

(** ** Regular expressions of the source, as matchers

    A matcher gives the length of the match that begins at the head of the
    remaining text.  The combinators are greedy without backtracking, which
    agrees with the backtracking semantics for the patterns of this file:
    wherever a repetition is followed by something, that something cannot
    begin with a member of the repeated class.  Every pattern of the source
    matches at least one code unit. *)
Definition matcher := jsstring -> option nat.

Definition mlit (p : jsstring) : matcher :=
  fun s => if isPrefixOf p s then Some (length p) else None.

Definition mclass (P : N -> bool) : matcher :=
  fun s => match s with
           | c :: _ => if P c then Some 1%nat else None
           | [] => None
           end.

Fixpoint countWhile (P : N -> bool) (s : jsstring) : nat :=
  match s with
  | c :: r => if P c then S (countWhile P r) else O
  | [] => O
  end.

(** [[class]*] *)
Definition mstar (P : N -> bool) : matcher :=
  fun s => Some (countWhile P s).

(** [[class]+] *)
Definition mplus (P : N -> bool) : matcher :=
  fun s => match countWhile P s with O => None | n => Some n end.

(** [[class]{lo,hi}] *)
Definition mrange (lo hi : nat) (P : N -> bool) : matcher :=
  fun s => let n := countWhile P (take hi s) in
           if (lo <=? n)%nat then Some n else None.

(** [$] without the [m] flag *)
Definition mend : matcher :=
  fun s => match s with [] => Some O | _ => None end.

Definition mseq (a b : matcher) : matcher :=
  fun s => match a s with
           | Some n => match b (drop n s) with
                       | Some k => Some (n + k)%nat
                       | None => None
                       end
           | None => None
           end.
Infix ">>" := mseq (at level 61, left associativity).

(** Case folding of the [i] flag (without the [u] flag): ASCII letters
    only match their other case among ASCII letters. *)
Definition toLowerAscii (c : N) : N :=
  if (65 <=? c) && (c <=? 90) then c + 32 else c.

(** A literal under the [i] flag. *)
Definition mlitCI (p : jsstring) : matcher :=
  fun s => if isPrefixOf (map toLowerAscii p) (map toLowerAscii (take (length p) s))
           then Some (length p) else None.

(** [s.replace(/pattern/g, replacement)], where [f] computes the
    replacement from the matched text and from the number of earlier
    matches added to [index]; also returns the matched texts in order.
    [skip] counts the code units of the current match still to be passed. *)
Fixpoint replaceFrom (m : matcher) (f : nat -> jsstring -> jsstring)
    (skip index : nat) (s : jsstring) : jsstring * list jsstring :=
  match s with
  | [] => ([], [])
  | c :: r =>
      match skip with
      | S k => replaceFrom m f k index r
      | O =>
          match m s with
          | Some (S k) =>
              let matched := take (S k) s in
              let '(out, ms) := replaceFrom m f k (S index) r in
              (f index matched ++ out, matched :: ms)
          | _ =>
              let '(out, ms) := replaceFrom m f O index r in
              (c :: out, ms)
          end
      end
  end.

(** Replacement by a function of the matched text. *)
Definition replaceWith (m : matcher) (f : jsstring -> jsstring) (s : jsstring)
  : jsstring :=
  fst (replaceFrom m (fun _ => f) O O s).

(** Replacement by a fixed string. *)
Definition replaceAll (m : matcher) (replacement : jsstring) (s : jsstring)
  : jsstring :=
  replaceWith m (fun _ => replacement) s.

(** [s.split(a).join(b)] for a non-empty [a] *)
Definition splitJoin (a b : jsstring) (s : jsstring) : jsstring :=
  replaceAll (mlit a) b s.

(** [s.replace(pattern, replacement)] with a string pattern: the first
    occurrence only. *)
Fixpoint replaceFirst (p replacement : jsstring) (s : jsstring) : jsstring :=
  if isPrefixOf p s then replacement ++ drop (length p) s
  else match s with
       | [] => []
       | c :: r => c :: replaceFirst p replacement r
       end.

(** [s.replace(/^pattern/gi, '')]: without the [m] flag the anchor only
    matches at index 0. *)
Definition removeAtStart (m : matcher) (s : jsstring) : jsstring :=
  match m s with
  | Some n => drop n s
  | None => s
  end.

Definition inRange (lo hi c : N) : bool := (lo <=? c) && (c <=? hi).

Definition isHexDigit (c : N) : bool :=
  inRange (ch "0") (ch "9") c || inRange (ch "a") (ch "f") c
  || inRange (ch "A") (ch "F") c.

Definition isOctalDigit (c : N) : bool := inRange (ch "0") (ch "7") c.

Definition isOneOf (cs : jsstring) (c : N) : bool := existsb (code_eqb c) cs.

(** The backslash, as a code unit and as a string. *)
Definition bslash : N := 92.
Definition backslash : jsstring := [bslash].

(** The code unit of the double quote. *)
Definition dquote : N := 34.

(** ** sanitizeJsonString *)

Definition escapeProtector : jsstring := js "___ESCAPE___".

(** Step 1: markdown fences and a leading [json] tag, then [trim()]. *)
Definition removeMarkdown (jsonString : jsstring) : jsstring :=
  let s := replaceAll (mlitCI (js "```json")) [] jsonString in
  let s := replaceAll (mlitCI (js "```javascript")) [] s in
  let s := replaceAll (mlitCI (js "```js")) [] s in
  let s := replaceAll (mlit (js "```")) [] s in
  let s := removeAtStart (mstar isWhiteSpace >> mlitCI (js "json") >> mstar isWhiteSpace) s in
  trim s.

(** Step 2a: escaped sequences are hidden behind the protector. *)
Definition protectEscapes (cleaned : jsstring) : jsstring :=
  let s := replaceAll (mlit (js "\n")) (escapeProtector ++ js "n") cleaned in
  let s := replaceAll (mlit (js "\r")) (escapeProtector ++ js "r") s in
  let s := replaceAll (mlit (js "\t")) (escapeProtector ++ js "t") s in
  let s := replaceAll (mlit (js "\f")) (escapeProtector ++ js "f") s in
  let s := replaceAll (mlit (js "\b")) (escapeProtector ++ js "b") s in
  let s := replaceAll (mlit (backslash ++ [dquote])) (escapeProtector ++ js "quote") s in
  replaceAll (mlit (backslash ++ backslash)) (escapeProtector ++ js "backslash") s.

(** [[\x00-\x08\x0B-\x0C\x0E-\x1F\x7F]] *)
Definition isControlNotTabLfCr (c : N) : bool :=
  inRange 0 8 c || inRange 11 12 c || inRange 14 31 c || (c =? 127).

(** Step 2b: control characters, then newline, carriage return and tab,
    become a space. *)
Definition blankControls (cleaned : jsstring) : jsstring :=
  let s := replaceAll (mclass isControlNotTabLfCr) [32] cleaned in
  let s := replaceAll (mlit [10]) [32] s in
  let s := replaceAll (mlit [13]) [32] s in
  replaceAll (mlit [9]) [32] s.

(** Step 2c: the protected sequences come back, in this order. *)
Definition restoreEscapes (cleaned : jsstring) : jsstring :=
  let s := replaceAll (mlit (escapeProtector ++ js "n")) (js "\n") cleaned in
  let s := replaceAll (mlit (escapeProtector ++ js "r")) (js "\r") s in
  let s := replaceAll (mlit (escapeProtector ++ js "t")) (js "\t") s in
  let s := replaceAll (mlit (escapeProtector ++ js "f")) (js "\f") s in
  let s := replaceAll (mlit (escapeProtector ++ js "b")) (js "\b") s in
  let s := replaceAll (mlit (escapeProtector ++ js "quote")) (backslash ++ [dquote]) s in
  replaceAll (mlit (escapeProtector ++ js "backslash")) (backslash ++ backslash) s.

(** U+2026 HORIZONTAL ELLIPSIS *)
Definition ellipsis : N := 8230.

(** Step 3: the two character classes of the source each hold the plain
    ASCII quote they are replaced by; the ellipsis becomes three dots. *)
Definition fixQuotes (cleaned : jsstring) : jsstring :=
  let s := replaceAll (mclass (isOneOf [dquote; dquote])) [dquote] cleaned in
  let s := replaceAll (mclass (isOneOf [ch "'"; ch "'"])) [ch "'"] s in
  replaceAll (mlit [ellipsis]) (js "...") s.

Definition validUnicodePattern : matcher :=
  mlit (js "\u") >> mrange 4 4 isHexDigit.

Definition unicodePlaceholder (index : nat) : jsstring :=
  js "___VALID_UNICODE_" ++ decimal index ++ js "___".

(** [validUnicodes.forEach((unicode, index) => ...)] *)
Fixpoint restoreUnicodes (validUnicodes : list jsstring) (index : nat)
    (cleaned : jsstring) : jsstring :=
  match validUnicodes with
  | [] => cleaned
  | unicode :: rest =>
      restoreUnicodes rest (S index)
        (replaceFirst (unicodePlaceholder index) unicode cleaned)
  end.

(** Step 4: valid [\uXXXX] are set aside, the other [\u] lose their
    backslash and the code unit that follows, the valid ones come back. *)
Definition fixUnicodeEscapes (cleaned : jsstring) : jsstring :=
  let '(s, validUnicodes) :=
    replaceFrom validUnicodePattern (fun index _ => unicodePlaceholder index)
      O O cleaned in
  let s := replaceAll (mlit (js "\u") >> mclass (fun c => negb (c =? ch "_")))
             (js "u") s in
  let s := replaceAll (mlit (js "\u") >> mend) (js "u") s in
  restoreUnicodes validUnicodes O s.

Definition isClosingBracket (c : N) : bool := isOneOf [ch "}"; ch "]"] c.

(** Step 5: [/,(\s*[}\]])/g] replaced by ['$1']. *)
Definition removeTrailingCommas (cleaned : jsstring) : jsstring :=
  replaceWith (mlit (js ",") >> mstar isWhiteSpace >> mclass isClosingBracket)
    (drop 1) cleaned.

(** Step 6: [/\s+/g] replaced by one space. *)
Definition collapseSpaces (cleaned : jsstring) : jsstring :=
  replaceAll (mplus isWhiteSpace) [32] cleaned.

(** Step 7: a backslash followed by a code unit other than the double
    quote, the backslash, the slash and [b f n r t u] loses the backslash. *)
Definition isValidEscapeLetter (c : N) : bool :=
  isOneOf ([dquote; bslash; ch "/"] ++ js "bfnrtu") c.

Definition dropInvalidEscapes (cleaned : jsstring) : jsstring :=
  replaceWith (mlit backslash >> mclass (fun c => negb (isValidEscapeLetter c)))
    (drop 1) cleaned.

(** [[\x00-\x08\x0B\x0C\x0E-\x1F\x7F]] *)
Definition isControlNotTabLfCr' (c : N) : bool :=
  inRange 0 8 c || (c =? 11) || (c =? 12) || inRange 14 31 c || (c =? 127).

(** Step 8: hexadecimal and octal escapes and remaining control
    characters are deleted. *)
Definition finalSweep (cleaned : jsstring) : jsstring :=
  let s := replaceAll (mlit (js "\x") >> mrange 0 2 isHexDigit) [] cleaned in
  let s := replaceAll (mlit backslash >> mrange 1 3 isOctalDigit) [] s in
  replaceAll (mclass isControlNotTabLfCr') [] s.

(** [sanitizeJsonString(jsonString)] *)
Definition sanitizeJsonString (jsonString : jsstring) : jsstring :=
  let cleaned := removeMarkdown jsonString in
  let cleaned := protectEscapes cleaned in
  let cleaned := blankControls cleaned in
  let cleaned := restoreEscapes cleaned in
  let cleaned := fixQuotes cleaned in
  let cleaned := fixUnicodeEscapes cleaned in
  let cleaned := removeTrailingCommas cleaned in
  let cleaned := collapseSpaces cleaned in
  let cleaned := dropInvalidEscapes cleaned in
  finalSweep cleaned.

(** ** JSON.parse

    The built-in, after the JSON grammar of ECMA-404.  A number is kept as
    its lexeme; an object as its members in order of first appearance, a
    repeated name overwriting the earlier value. *)

Inductive Parsed (A : Type) :=
| POk (a : A) (rest : jsstring)
| PSyntaxError
| POutOfFuel.
Arguments POk {A} a rest.
Arguments PSyntaxError {A}.
Arguments POutOfFuel {A}.

(** JSON whitespace: tab, line feed, carriage return, space. *)
Definition isJsonSpace (c : N) : bool :=
  (c =? 9) || (c =? 10) || (c =? 13) || (c =? 32).

Fixpoint skipJsonSpace (s : jsstring) : jsstring :=
  match s with
  | c :: r => if isJsonSpace c then skipJsonSpace r else s
  | [] => []
  end.

Definition hexValue (c : N) : N :=
  if inRange (ch "0") (ch "9") c then c - ch "0"
  else if inRange (ch "a") (ch "f") c then c - ch "a" + 10
  else c - ch "A" + 10.

(** The characters of a string up to its closing quote. *)
Fixpoint parseStringChars (s : jsstring) : Parsed jsstring :=
  match s with
  | [] => PSyntaxError
  | c :: r =>
      if c =? dquote then POk [] r
      else if c =? bslash then
        match r with
        | e :: r' =>
            if e =? ch "u" then
              match r' with
              | a :: b :: c' :: d :: r'' =>
                  if isHexDigit a && isHexDigit b && isHexDigit c' && isHexDigit d
                  then match parseStringChars r'' with
                       | POk t rest =>
                           POk (((hexValue a * 16 + hexValue b) * 16 + hexValue c') * 16
                                + hexValue d :: t) rest
                       | e' => e'
                       end
                  else PSyntaxError
              | _ => PSyntaxError
              end
            else
              let unescaped :=
                if e =? dquote then Some dquote
                else if e =? bslash then Some bslash
                else if e =? ch "/" then Some (ch "/")
                else if e =? ch "b" then Some 8
                else if e =? ch "f" then Some 12
                else if e =? ch "n" then Some 10
                else if e =? ch "r" then Some 13
                else if e =? ch "t" then Some 9
                else None in
              match unescaped with
              | Some u => match parseStringChars r' with
                          | POk t rest => POk (u :: t) rest
                          | e' => e'
                          end
              | None => PSyntaxError
              end
        | [] => PSyntaxError
        end
      else if c <? 32 then PSyntaxError
      else match parseStringChars r with
           | POk t rest => POk (c :: t) rest
           | e' => e'
           end
  end.

Definition isDigit (c : N) : bool := inRange (ch "0") (ch "9") c.

(** The lexeme of a number at the head of [s]: an optional minus sign;
    a zero, or a non-zero digit and further digits; optionally a point
    and at least one digit; optionally [e] or [E], a sign and at least
    one digit. *)
Definition parseNumber (s : jsstring) : Parsed jsstring :=
  let '(sign, s1) :=
    match s with
    | c :: r => if c =? ch "-" then ([c], r) else ([], s)
    | [] => ([], s)
    end in
  match s1 with
  | [] => PSyntaxError
  | d :: r1 =>
      if negb (isDigit d) then PSyntaxError
      else
        let n := if d =? ch "0" then O else countWhile isDigit r1 in
        let int := d :: take n r1 in
        let s2 := drop n r1 in
        let '(frac, s3, okFrac) :=
          match s2 with
          | p :: r2 =>
              if p =? ch "." then
                let k := countWhile isDigit r2 in
                (p :: take k r2, drop k r2, negb (k =? 0)%nat)
              else ([], s2, true)
          | [] => ([], s2, true)
          end in
        let '(exp, s4, okExp) :=
          match s3 with
          | e :: r3 =>
              if (e =? ch "e") || (e =? ch "E") then
                let '(esign, r4) :=
                  match r3 with
                  | g :: r3' =>
                      if (g =? ch "+") || (g =? ch "-") then ([g], r3') else ([], r3)
                  | [] => ([], r3)
                  end in
                let k := countWhile isDigit r4 in
                (e :: esign ++ take k r4, drop k r4, negb (k =? 0)%nat)
              else ([], s3, true)
          | [] => ([], s3, true)
          end in
        if okFrac && okExp then POk (sign ++ int ++ frac ++ exp) s4
        else PSyntaxError
  end.

(** Defining a property: a name already present keeps its place and
    takes the new value. *)
Fixpoint setMember (name : jsstring) (v : JsonValue)
    (members : list (jsstring * JsonValue)) : list (jsstring * JsonValue) :=
  match members with
  | [] => [(name, v)]
  | (n, w) :: rest =>
      if jsstring_eqb n name then (n, v) :: rest
      else (n, w) :: setMember name v rest
  end.

(** Recursive descent; every call passes on one unit of fuel less. *)
Fixpoint parseValue (fuel : nat) (s : jsstring) : Parsed JsonValue :=
  match fuel with
  | O => POutOfFuel
  | S fuel' =>
      match skipJsonSpace s with
      | [] => PSyntaxError
      | c :: r =>
          if c =? ch "[" then
            match skipJsonSpace r with
            | c' :: r' =>
                if c' =? ch "]" then POk (JArray []) r'
                else parseElements fuel' (c' :: r') []
            | [] => PSyntaxError
            end
          else if c =? ch "{" then
            match skipJsonSpace r with
            | c' :: r' =>
                if c' =? ch "}" then POk (JObject []) r'
                else parseMembers fuel' (c' :: r') []
            | [] => PSyntaxError
            end
          else if c =? dquote then
            match parseStringChars r with
            | POk t rest => POk (JString t) rest
            | PSyntaxError => PSyntaxError
            | POutOfFuel => POutOfFuel
            end
          else if isPrefixOf (js "true") (c :: r) then POk (JBool true) (drop 4 (c :: r))
          else if isPrefixOf (js "false") (c :: r) then POk (JBool false) (drop 5 (c :: r))
          else if isPrefixOf (js "null") (c :: r) then POk JNull (drop 4 (c :: r))
          else
            match parseNumber (c :: r) with
            | POk lexeme rest => POk (JNumber lexeme) rest
            | PSyntaxError => PSyntaxError
            | POutOfFuel => POutOfFuel
            end
      end
  end
with parseElements (fuel : nat) (s : jsstring) (acc : list JsonValue)
  : Parsed JsonValue :=
  match fuel with
  | O => POutOfFuel
  | S fuel' =>
      match parseValue fuel' s with
      | POk v rest =>
          match skipJsonSpace rest with
          | c :: r =>
              if c =? ch "," then parseElements fuel' r (acc ++ [v])
              else if c =? ch "]" then POk (JArray (acc ++ [v])) r
              else PSyntaxError
          | [] => PSyntaxError
          end
      | e => e
      end
  end
with parseMembers (fuel : nat) (s : jsstring) (acc : list (jsstring * JsonValue))
  : Parsed JsonValue :=
  match fuel with
  | O => POutOfFuel
  | S fuel' =>
      match skipJsonSpace s with
      | q :: r =>
          if q =? dquote then
            match parseStringChars r with
            | POk name rest =>
                match skipJsonSpace rest with
                | c :: r1 =>
                    if c =? ch ":" then
                      match parseValue fuel' r1 with
                      | POk v rest' =>
                          match skipJsonSpace rest' with
                          | c' :: r2 =>
                              if c' =? ch "," then
                                parseMembers fuel' r2 (setMember name v acc)
                              else if c' =? ch "}" then
                                POk (JObject (setMember name v acc)) r2
                              else PSyntaxError
                          | [] => PSyntaxError
                          end
                      | e => e
                      end
                    else PSyntaxError
                | [] => PSyntaxError
                end
            | PSyntaxError => PSyntaxError
            | POutOfFuel => POutOfFuel
            end
          else PSyntaxError
      | [] => PSyntaxError
      end
  end.

(** [JSON.parse(text)]: one value, with nothing but whitespace after it;
    [None] stands for the [SyntaxError].  Twice the length of the text,
    plus one, is fuel enough for any text. *)
Definition JSON_parse (text : jsstring) : option JsonValue :=
  match parseValue (2 * length text + 1) text with
  | POk v rest =>
      match skipJsonSpace rest with
      | [] => Some v
      | _ => None
      end
  | _ => None
  end.

(** ** parseJsonRobust *)

Inductive ExpectedType := ExpectArray | ExpectObject.

Definition openChar (t : ExpectedType) : N :=
  match t with ExpectArray => ch "[" | ExpectObject => ch "{" end.

Definition closeChar (t : ExpectedType) : N :=
  match t with ExpectArray => ch "]" | ExpectObject => ch "}" end.

(** [text.match(/\[[\s\S]*\]/)] (or with braces): from the first opening
    bracket to the last closing bracket after it. *)
Definition matchBracketed (t : ExpectedType) (text : jsstring) : option jsstring :=
  match indexOf (openChar t) text with
  | None => None
  | Some i =>
      match lastIndexOf (closeChar t) (drop (S i) text) with
      | None => None
      | Some j => Some (take (S (S j)) (drop i text))
      end
  end.

(** A strategy returns the parsed value or the message of what it threw. *)
Definition outcomeOf := (JsonValue + jsstring)%type.

Section Strategies.

(** The message of the engine's [SyntaxError] for a text. *)
Variable syntaxErrorMessage : jsstring -> jsstring.

Definition tryParse (text : jsstring) : outcomeOf :=
  match JSON_parse text with
  | Some v => inl v
  | None => inr (syntaxErrorMessage text)
  end.

Variable response : jsstring.
Variable expectedType : ExpectedType.

(** Strategy 1: direct extraction and sanitization *)
Definition strategy1 : outcomeOf :=
  match matchBracketed expectedType response with
  | None => inr (js "No JSON found in response")
  | Some m => tryParse (sanitizeJsonString m)
  end.

(** Strategy 2: remove everything before the first bracket *)
Definition strategy2 : outcomeOf :=
  match indexOf (openChar expectedType) response with
  | None => inr (js "No opening bracket found")
  | Some startIdx => tryParse (sanitizeJsonString (drop startIdx response))
  end.

(** Strategy 3: between the first and the last matching brackets *)
Definition strategy3 : outcomeOf :=
  match indexOf (openChar expectedType) response,
        lastIndexOf (closeChar expectedType) response with
  | Some firstIdx, Some lastIdx =>
      if (lastIdx <=? firstIdx)%nat then inr (js "Invalid bracket positions")
      else tryParse (sanitizeJsonString (substring firstIdx (lastIdx + 1) response))
  | _, _ => inr (js "Invalid bracket positions")
  end.

(** The [escapeMap] of strategy 4, in insertion order. *)
Definition escapeMap : list (jsstring * jsstring) :=
  [ (js "\n", js "___NEWLINE___");
    (js "\r", js "___RETURN___");
    (js "\t", js "___TAB___");
    (backslash ++ [dquote], js "___QUOTE___");
    (backslash ++ backslash, js "___BACKSLASH___");
    (js "\f", js "___FORMFEED___");
    (js "\b", js "___BACKSPACE___") ].

(** [[\x00-\x1F\x7F-\x9F]] *)
Definition isControlOrC1 (c : N) : bool := inRange 0 31 c || inRange 127 159 c.

(** The cleaning of strategy 4.  Its fifth pattern is [json], a
    backslash and any number of [s], at the start of the text. *)
Definition aggressiveClean (text : jsstring) : jsstring :=
  let s := replaceAll (mlitCI (js "```json")) [] text in
  let s := replaceAll (mlitCI (js "```javascript")) [] s in
  let s := replaceAll (mlitCI (js "```js")) [] s in
  let s := replaceAll (mlit (js "```")) [] s in
  let s := removeAtStart
             (mlitCI (js "json" ++ backslash) >> mstar (fun c => toLowerAscii c =? ch "s")) s in
  let s := trim s in
  let s := fold_left (fun acc '(escaped, placeholder) =>
                        splitJoin escaped placeholder acc) escapeMap s in
  let s := replaceAll (mclass isControlOrC1) [32] s in
  let s := fold_left (fun acc '(escaped, placeholder) =>
                        splitJoin placeholder escaped acc) escapeMap s in
  let s := fixQuotes s in
  collapseSpaces s.

(** Strategy 4: aggressive cleaning, then extraction *)
Definition strategy4 : outcomeOf :=
  match matchBracketed expectedType (aggressiveClean response) with
  | None => inr (js "No JSON after aggressive cleaning")
  | Some m => tryParse m
  end.

Definition protectedPlaceholder (counter : nat) : jsstring :=
  js "___PROTECTED_" ++ decimal counter ++ js "___".

(** One protecting [replace] of strategy 5: every occurrence of
    [original] gets a placeholder of its own, recorded in the map. *)
Definition protect (original : jsstring)
    (state : jsstring * nat * list (jsstring * jsstring))
  : jsstring * nat * list (jsstring * jsstring) :=
  let '(str, protectionCounter, protectionMap) := state in
  let '(str', matches) :=
    replaceFrom (mlit original) (fun index _ => protectedPlaceholder index)
      O protectionCounter str in
  (str', (protectionCounter + length matches)%nat,
   protectionMap ++
     imap (fun i _ => (protectedPlaceholder (protectionCounter + i), original))
          matches).

(** [[\x00-\x09\x0B-\x1F\x7F-\x9F]] *)
Definition isControlNotLf (c : N) : bool :=
  inRange 0 9 c || inRange 11 31 c || inRange 127 159 c.

(** Step 3 of strategy 5. *)
Definition cleanFormatting (str : jsstring) : jsstring :=
  let s := replaceAll (mplus isWhiteSpace) [32] str in
  let s := replaceWith (mlit (js ",") >> mstar isWhiteSpace >> mclass isClosingBracket)
             (fun m => drop (length m - 1) m) s in
  let s := replaceAll (mlit [dquote] >> mplus isWhiteSpace >> mlit (js ":"))
             ([dquote] ++ js ":") s in
  let s := replaceAll (mlit (js ":") >> mplus isWhiteSpace >> mlit [dquote])
             (js ":" ++ [dquote]) s in
  let s := replaceAll (mlit (js ",") >> mplus isWhiteSpace >> mlit [dquote])
             (js "," ++ [dquote]) s in
  let s := replaceAll (mlit (js "{") >> mplus isWhiteSpace >> mlit [dquote])
             (js "{" ++ [dquote]) s in
  let s := replaceAll (mlit (js "[") >> mplus isWhiteSpace) (js "[") s in
  let s := replaceAll (mplus isWhiteSpace >> mlit (js "]")) (js "]") s in
  replaceAll (mplus isWhiteSpace >> mlit (js "}")) (js "}") s.

(** Strategy 5: rebuild *)
Definition strategy5 : outcomeOf :=
  match indexOf (openChar expectedType) response,
        lastIndexOf (closeChar expectedType) response with
  | Some firstIdx, Some lastIdx =>
      let str := substring firstIdx (lastIdx + 1) response in
      let state := protect (backslash ++ [dquote]) (str, O, []) in
      let state := protect (backslash ++ backslash) state in
      let state := fold_left (fun st seq => protect seq st)
                     [js "\n"; js "\r"; js "\t"; js "\f"; js "\b"] state in
      let '(str, _, protectionMap) := state in
      let str := replaceAll (mclass isControlNotLf) [32] str in
      let str := cleanFormatting str in
      let str := fold_left (fun acc '(placeholder, original) =>
                              splitJoin placeholder original acc)
                   protectionMap str in
      tryParse str
  | _, _ => inr (js "Cannot find JSON boundaries")
  end.

(** The [for] loop of strategy 6 over the text from index [i] on. *)
Fixpoint balanceBrackets (s : jsstring) (i : nat) (depth : Z) : option nat :=
  match s with
  | [] => None
  | c :: r =>
      let depth := if code_eqb c (openChar expectedType) then (depth + 1)%Z else depth in
      let depth := if code_eqb c (closeChar expectedType) then (depth - 1)%Z else depth in
      if (depth =? 0)%Z then Some i else balanceBrackets r (S i) depth
  end.

(** Strategy 6: extraction with bracket balancing *)
Definition strategy6 : outcomeOf :=
  match indexOf (openChar expectedType) response with
  | None => inr (js "No opening bracket found")
  | Some startIdx =>
      match balanceBrackets (drop startIdx response) startIdx 0 with
      | None => inr (js "No matching closing bracket found")
      | Some endIdx =>
          tryParse (sanitizeJsonString (substring startIdx (endIdx + 1) response))
      end
  end.

Definition strategies : list outcomeOf :=
  [strategy1; strategy2; strategy3; strategy4; strategy5; strategy6].

(** The [for] loop over the strategies: the first value, or the
    messages collected from all of them.  [i] is the loop index. *)
Fixpoint tryStrategies (todo : list outcomeOf) (i : nat) (errors : list jsstring)
  : JsonValue + list jsstring :=
  match todo with
  | [] => inr errors
  | strategy :: rest =>
      match strategy with
      | inl result => inl result
      | inr message =>
          tryStrategies rest (S i)
            (errors ++ [js "Strategy " ++ decimal (i + 1) ++ js ": " ++ message])
      end
  end.

(** The heuristic summary of what is wrong with the response. *)
Definition errorSummary : jsstring :=
  if includes (js "```json") response || includes (js "```") response
  then js "Response contains markdown code blocks"
  else if existsb (inRange 0 31) response
  then js "Response contains control characters"
  else if negb (includes [openChar expectedType] response)
  then js "No " ++ match expectedType with
                   | ExpectArray => js "array"
                   | ExpectObject => js "object"
                   end ++ js " bracket found in response"
  else if includes (js "\b") (take 100 response)
          || includes (js "\f") (take 100 response)
  then js "Response contains invalid escape sequences"
  else js "Malformed JSON structure".

(** [errors[0]] in a template string; [undefined] cannot occur, as
    every failed strategy pushes a message. *)
Definition firstError (errors : list jsstring) : jsstring :=
  match errors with
  | e :: _ => e
  | [] => js "undefined"
  end.

Definition failureMessage (errors : list jsstring) : jsstring :=
  js "Failed to parse JSON after " ++ decimal (length strategies) ++
  js " attempts. Issue: " ++ errorSummary ++
  js ". First error: " ++ firstError errors.

(** [parseJsonRobust(response, expectedType)] *)
Definition parseJsonRobust : completion JsonValue :=
  match tryStrategies strategies 0 [] with
  | inl result => Normal result
  | inr errors => Throw (Error (failureMessage errors))
  end.

End Strategies.

(** ** The key list of the component *)

(** [useState<string[]>(['', '', ''])] *)
Definition initialApiKeys : list jsstring := [[]; []; []].

(** [getValidApiKeys()] *)
Definition getValidApiKeys (apiKeys : list jsstring) : list jsstring :=
  List.filter (fun key => negb (isEmptyString (trim key))) apiKeys.

(** [addApiKey()], as the next value of [apiKeys]. *)
Definition addApiKey (apiKeys : list jsstring) : list jsstring :=
  if (length apiKeys <? 100)%nat then apiKeys ++ [[]] else apiKeys.

(** [apiKeys.filter((_, i) => i !== index)] *)
Fixpoint filterOutIndex (index : Z) (i : nat) (apiKeys : list jsstring)
  : list jsstring :=
  match apiKeys with
  | [] => []
  | key :: rest =>
      if (Z.of_nat i =? index)%Z then filterOutIndex index (S i) rest
      else key :: filterOutIndex index (S i) rest
  end.

(** [removeApiKey(index)] *)
Definition removeApiKey (index : Z) (apiKeys : list jsstring) : list jsstring :=
  if (1 <? length apiKeys)%nat then filterOutIndex index 0 apiKeys else apiKeys.

(** [[a-zA-Z0-9_-]] *)
Definition isKeyCodeUnit (c : N) : bool :=
  inRange (ch "a") (ch "z") c || inRange (ch "A") (ch "Z") c
  || inRange (ch "0") (ch "9") c || (c =? ch "_") || (c =? ch "-").

(** [/AIzaSy[a-zA-Z0-9_-]+/g] *)
Definition keyPattern : matcher := mlit (js "AIzaSy") >> mplus isKeyCodeUnit.

(** [Array.from(new Set(keys))]: the set keeps the order of insertion, and
    adding a member again changes nothing. *)
Fixpoint addAllToSet (set keys : list jsstring) : list jsstring :=
  match keys with
  | [] => set
  | k :: rest =>
      addAllToSet (if existsb (jsstring_eqb k) set then set else set ++ [k]) rest
  end.

Inductive Toast :=
| ToastError (message : jsstring)
| ToastSuccess (message : jsstring).

(** U+2705, the check mark of the success toast. *)
Definition checkMark : N := 9989.

(** [handleBulkApiKeyPaste(event)] on the pasted text: the next value of
    [apiKeys] and the toast. *)
Definition handleBulkApiKeyPaste (pastedText : jsstring) (apiKeys : list jsstring)
  : list jsstring * Toast :=
  let extractedKeys := snd (replaceFrom keyPattern (fun _ m => m) O O pastedText) in
  if (length extractedKeys =? 0)%nat
  then (apiKeys,
        ToastError (js "No valid API keys found. Keys must start with AIzaSy"))
  else
    let keysToAdd := take 100 extractedKeys in
    let uniqueKeys := addAllToSet [] keysToAdd in
    (uniqueKeys,
     ToastSuccess ([checkMark] ++ js " " ++ decimal (length uniqueKeys) ++
                   js " unique API key(s) added!")).

(** What the user does to the key list. *)
Inductive KeyListOp :=
| DoAdd
| DoRemove (index : Z)
| DoPaste (pastedText : jsstring).

Definition applyKeyListOp (apiKeys : list jsstring) (op : KeyListOp)
  : list jsstring :=
  match op with
  | DoAdd => addApiKey apiKeys
  | DoRemove index => removeApiKey index apiKeys
  | DoPaste pastedText => fst (handleBulkApiKeyPaste pastedText apiKeys)
  end.

(** The shape of an extracted key. *)
Definition keyShaped (k : jsstring) : Prop :=
  exists tail, k = js "AIzaSy" ++ tail /\ tail <> [] /\
               Forall (fun c => isKeyCodeUnit c = true) tail.

(** ** validateQuestionWithGeminiAI *)


(** [array.join(separator)] for an array of strings *)
Fixpoint join (separator : jsstring) (items : list jsstring) : jsstring :=
  match items with
  | [] => []
  | [item] => item
  | item :: rest => item ++ separator ++ join separator rest
  end.







Section Validator.

(** The messages of the engine's errors. *)
Variable syntaxErrorMessage : jsstring -> jsstring.
Variable undefinedReadMessage : jsstring.
Variable nullReadMessage : jsstring.
Variable noPrimitiveMessage : jsstring.





End Validator.

(** ** Vocabulary of the properties *)

(** Consecutive calls of [getNextGeminiKey], one per clock reading, with
    whatever each call returned or threw. *)
Fixpoint selectMany (times : list Z) (st : KeyStore)
  : list (completion (jsstring * nat)) * KeyStore :=
  match times with
  | [] => ([], st)
  | now :: rest =>
      let '(r, st1) := getNextGeminiKey now st in
      let '(rs, st2) := selectMany rest st1 in
      (r :: rs, st2)
  end.

(** [k'] is [k] after [n] more selections and nothing else. *)
Definition usedMore (n : Z) (k k' : ApiKeyState) : Prop :=
  key k' = key k /\ usageCount k' = (usageCount k + n)%Z /\
  errorCount k' = errorCount k /\ lastError k' = lastError k /\
  isActive k' = isActive k.

(** One turn of the rotation over a list of keys. *)
Definition turn (keys : list jsstring) : list (completion (jsstring * nat)) :=
  imap (fun i s => Normal (s, i)) keys.

(** The 3-strikes invariant of a key. *)
Definition strikesRespected (k : ApiKeyState) : Prop :=
  (errorCount k >= 3)%Z -> isActive k = false.

(** The cursor points into the pool whenever there is a pool. *)
Definition cursorInRange (st : KeyStore) : Prop :=
  API_KEY_STATES st = [] \/ (currentKeyIndex st < length (API_KEY_STATES st))%nat.

(** A store on which an attempt can select a key. *)
Definition usable (st : KeyStore) : Prop :=
  cursorInRange st /\ API_KEY_STATES st <> [].

(** The number of requests in a trace. *)
Definition fetchCount (events : list Event) : nat :=
  length (List.filter (fun e => match e with EvFetch _ => true | _ => false end) events).

(** The text a response yields, when it yields one: the attempt then
    returns it. *)
Definition extractableText (o : FetchOutcome) : option jsstring :=
  match o with
  | ResponseOk (BodyData data) =>
      if hasContent data && truthy (partText data) then partText data else None
  | _ => None
  end.

(** [errorMessage] after an error response whose body could be read. *)
Definition errorMessageRead (body : ErrorBody) : option JsonValue :=
  match body with
  | ErrorTextRejects _ => None
  | ErrorText errorText parsed => Some (JString (errorMessageOf errorText parsed))
  | ErrorValue errorText parsed _ => Some (errorValueOf errorText parsed)
  end.

(** The explicit signal of an invalid key, as the code tests it: status
    400 and an error message on which [includes('API key not valid')]
    holds; gives the message recorded against the key. *)
Definition credentialInvalid (o : FetchOutcome) : option JsonValue :=
  match o with
  | ResponseNotOk status body =>
      match errorMessageRead body with
      | Some errorMessage =>
          if (status =? 400)%Z
          then match includesOf (js "API key not valid") errorMessage with
               | Some true => Some errorMessage
               | _ => None
               end
          else None
      | None => None
      end
  | _ => None
  end.

(** The answers on which an attempt reports two failures: an error
    response of status 403 or 400 whose [errorMessage] has no method
    [includes], so that the call throws after the first report and the
    [catch] block reports again. *)
Definition reportsTwice (o : FetchOutcome) : bool :=
  match o with
  | ResponseNotOk status body =>
      match errorMessageRead body with
      | Some errorMessage =>
          ((status =? 403)%Z || (status =? 400)%Z) && negb (hasIncludes errorMessage)
      | None => false
      end
  | _ => false
  end.


(** The code unit [c] does not occur in [s]. *)
Definition absent (c : N) (s : jsstring) : Prop := Forall (fun x => x <> c) s.

(** The raw model text of the third end-to-end scenario: a fenced array
    whose string value holds a line feed. *)
Definition scenario3 : jsstring :=
  js "```json" ++ [10] ++
  js "[{" ++ [dquote] ++ js "a" ++ [dquote] ++ js ": " ++
  [dquote] ++ js "line one" ++ [10] ++ js "line two" ++ [dquote] ++ js "}]" ++
  [10] ++ js "```".

(** A refusal in prose, on two lines: no bracket, one line feed. *)
Definition refusalOnTwoLines : jsstring :=
  js "Sorry," ++ [10] ++ js "I cannot help with that.".

(** The bookkeeping a key carries in every reachable store. *)
Definition consistentKey (k : ApiKeyState) : Prop :=
  (0 <= usageCount k)%Z /\ (0 <= errorCount k)%Z /\
  (usageCount k = 0%Z <-> lastUsedAt k = None) /\
  (lastError k = None -> errorCount k = 0%Z).

(** The sum of the usage counters of a pool. *)
Definition totalUsage (pool : list ApiKeyState) : Z :=
  fold_right Z.add 0%Z (map usageCount pool).

(** The number of waits in a trace. *)
Definition sleepCount (events : list Event) : nat :=
  length (List.filter (fun e => match e with EvSleep _ => true | _ => false end) events).

(** What every event of a trace of the loop looks like. *)
Definition eventFrom (keys : list jsstring) (e : Event) : Prop :=
  match e with
  | EvFetch apiKey => In apiKey keys
  | EvSleep ms => ms = 10000%Z
  end.

(** The number of times the entry at index [i] of a pool of [N] keys has
    been selected after [a] selections in rotation from index 0. *)
Definition turnsAfter (N a i : nat) : nat :=
  (a / N + (if (i <? a mod N)%nat then 1 else 0))%nat.

(** An entry that was selected [c] times and failed each time. *)
Definition failedTimes (c : nat) (k : ApiKeyState) : Prop :=
  usageCount k = Z.of_nat c /\ errorCount k = Z.of_nat c /\
  isActive k = (c <? 3)%nat.

(** The store after [a] failed attempts on a fresh pool of [N] keys. *)
Definition allFailedSoFar (N a : nat) (st : KeyStore) : Prop :=
  length (API_KEY_STATES st) = N /\
  currentKeyIndex st = (a mod N)%nat /\
  forall i k, API_KEY_STATES st !! i = Some k -> failedTimes (turnsAfter N a i) k.

(** A code unit that is neither a control character nor a white space
    other than the space itself. *)
Definition plainCodeUnit (c : N) : Prop :=
  32 <= c /\ c <> 127 /\ (isWhiteSpace c = true -> c = 32).

(** Whether a pattern matches somewhere in a text. *)
Fixpoint occursIn (m : matcher) (s : jsstring) : bool :=
  match s with
  | [] => false
  | _ :: r => match m s with Some (S _) => true | _ => false end || occursIn m r
  end.

(** The pattern of step 5 of the sanitizer. *)
Definition trailingCommaPattern : matcher :=
  mlit (js ",") >> mstar isWhiteSpace >> mclass isClosingBracket.

(** Two white spaces in a row. *)
Definition doubleSpacePattern : matcher :=
  mclass isWhiteSpace >> mclass isWhiteSpace.

(** A code unit the sanitizer has no rule for: no control character, no
    white space but the space, and none of the backtick, the backslash
    and the ellipsis. *)
Definition quietCodeUnit (c : N) : bool :=
  (32 <=? c) && negb (c =? 127)
  && (negb (isWhiteSpace c) || (c =? 32))
  && negb (isOneOf [ch "`"; bslash; ellipsis] c).

(** A text the sanitizer has nothing to do on: quiet code units, no comma
    before a closing bracket, no two white spaces in a row, and no
    occurrence of the protector the sanitizer uses itself. *)
Definition quietText (s : jsstring) : bool :=
  forallb quietCodeUnit s
  && negb (occursIn trailingCommaPattern s)
  && negb (occursIn doubleSpacePattern s)
  && negb (includes escapeProtector s).

(** A text holds a key when [AIzaSy] occurs in it followed by a letter, a
    digit, an underscore or a hyphen. *)
Definition holdsKey (text : jsstring) : Prop :=
  exists before c after,
    text = before ++ js "AIzaSy" ++ c :: after /\ isKeyCodeUnit c = true.

(** [k] occurs in [text]. *)
Definition occursWithin (k text : jsstring) : Prop :=
  exists before after, text = before ++ k ++ after.

(** * Properties *)

(** ** The rotation manager *)

Lemma getNextGeminiKey_clauses now st :
  getNextGeminiKey now st =
  match length (API_KEY_STATES st) with
  | O => (Throw (Error noKeysConfiguredMessage), st)
  | S n =>
      match scanKeys (API_KEY_STATES st) (S n) (currentKeyIndex st) with
      | Found selectedIndex keyState =>
          (Normal (key keyState, selectedIndex),
           mkKeyStore (<[selectedIndex := useKey now keyState]> (API_KEY_STATES st))
                      ((selectedIndex + 1) mod length (API_KEY_STATES st))%nat)
      | ReadUndefined => (Throw TypeError, st)
      | AllInactive => getNextGeminiKey now (resetAllKeys st)
      end
  end.
Proof.
  rewrite getNextGeminiKey_equation_1.
  unfold getNextGeminiKey_unfold_clause_1.
  generalize (length (API_KEY_STATES st)) at 1 2. intros [|n]; [reflexivity|].
  assert (H : forall y : {y | scanKeys (API_KEY_STATES st) (S n) (currentKeyIndex st) = y},
    getNextGeminiKey_unfold_clause_1_clause_2 now st n y =
    match proj1_sig y with
      | Found selectedIndex keyState =>
          (Normal (key keyState, selectedIndex),
           mkKeyStore (<[selectedIndex := useKey now keyState]> (API_KEY_STATES st))
                      ((selectedIndex + 1) mod length (API_KEY_STATES st))%nat)
      | ReadUndefined => (Throw TypeError, st)
      | AllInactive => getNextGeminiKey now (resetAllKeys st)
      end).
  { intros [x e]. destruct x; reflexivity. }
  rewrite H. reflexivity.
Qed.

Lemma getNextGeminiKey_body now st :
  getNextGeminiKey now st =
  if (length (API_KEY_STATES st) =? 0)%nat
  then (Throw (Error noKeysConfiguredMessage), st)
  else
    match scanKeys (API_KEY_STATES st) (length (API_KEY_STATES st)) (currentKeyIndex st) with
    | Found selectedIndex keyState =>
        (Normal (key keyState, selectedIndex),
         mkKeyStore (<[selectedIndex := useKey now keyState]> (API_KEY_STATES st))
                    ((selectedIndex + 1) mod length (API_KEY_STATES st))%nat)
    | ReadUndefined => (Throw TypeError, st)
    | AllInactive => getNextGeminiKey now (resetAllKeys st)
    end.
Proof.
  rewrite getNextGeminiKey_clauses.
  destruct (length (API_KEY_STATES st)); reflexivity.
Qed.

Section Scan.

Variable pool : list ApiKeyState.

Lemma scanKeys_Found n i j k :
  scanKeys pool n i = Found j k ->
  pool !! j = Some k /\ isActive k = true.
Proof.
  revert i. induction n as [|n IH]; intros i; simpl; [discriminate|].
  destruct (pool !! i) as [k'|] eqn:Hi; [|discriminate].
  destruct (isActive k') eqn:Hact.
  - intros [= <- <-]. auto.
  - apply IH.
Qed.

Lemma scanKeys_at_cursor n i k :
  pool !! i = Some k -> isActive k = true ->
  scanKeys pool (S n) i = Found i k.
Proof. intros Hi Hact. simpl. rewrite Hi, Hact. reflexivity. Qed.

Lemma scanKeys_all_inactive n i :
  Forall (fun k => isActive k = false) pool ->
  (i < length pool)%nat ->
  scanKeys pool n i = AllInactive.
Proof.
  intros Hall. revert i. induction n as [|n IH]; intros i Hi; simpl; [reflexivity|].
  destruct (lookup_lt_is_Some_2 pool i Hi) as [k Hk]. rewrite Hk.
  rewrite (proj1 (Forall_lookup _ _) Hall i k Hk).
  apply IH. apply Nat.mod_upper_bound. lia.
Qed.

Lemma scanKeys_defined n i :
  (i < length pool)%nat -> scanKeys pool n i <> ReadUndefined.
Proof.
  revert i. induction n as [|n IH]; intros i Hi; simpl; [discriminate|].
  destruct (lookup_lt_is_Some_2 pool i Hi) as [k Hk]. rewrite Hk.
  destruct (isActive k); [discriminate|].
  apply IH. apply Nat.mod_upper_bound. lia.
Qed.

End Scan.

Lemma length_resetAllKeys st :
  length (API_KEY_STATES (resetAllKeys st)) = length (API_KEY_STATES st).
Proof. unfold resetAllKeys; simpl. apply length_map. Qed.

(** Selection on a pool whose key under the cursor is active. *)
Lemma getNextGeminiKey_active now st k :
  API_KEY_STATES st !! currentKeyIndex st = Some k ->
  isActive k = true ->
  getNextGeminiKey now st =
    (Normal (key k, currentKeyIndex st),
     mkKeyStore (<[currentKeyIndex st := useKey now k]> (API_KEY_STATES st))
       ((currentKeyIndex st + 1) mod length (API_KEY_STATES st))%nat).
Proof.
  intros Hk Hact. rewrite getNextGeminiKey_body.
  pose proof (lookup_lt_Some _ _ _ Hk) as Hlt.
  destruct (Nat.eqb_spec (length (API_KEY_STATES st)) 0) as [E|E]; [lia|].
  destruct (length (API_KEY_STATES st)) as [|n] eqn:Hlen at 1; [lia|].
  rewrite (scanKeys_at_cursor _ n _ _ Hk Hact). reflexivity.
Qed.

(** Selection on a pool without an active key: the reset, then the key
    under the cursor. *)
Lemma getNextGeminiKey_exhausted now st k :
  API_KEY_STATES st !! currentKeyIndex st = Some k ->
  Forall (fun k => isActive k = false) (API_KEY_STATES st) ->
  getNextGeminiKey now st =
    (Normal (key k, currentKeyIndex st),
     mkKeyStore (<[currentKeyIndex st := useKey now (resetKey k)]>
                   (map resetKey (API_KEY_STATES st)))
       ((currentKeyIndex st + 1) mod length (API_KEY_STATES st))%nat).
Proof.
  intros Hk Hall. rewrite getNextGeminiKey_body.
  pose proof (lookup_lt_Some _ _ _ Hk) as Hlt.
  destruct (Nat.eqb_spec (length (API_KEY_STATES st)) 0) as [E|E]; [lia|].
  rewrite scanKeys_all_inactive by auto.
  rewrite (getNextGeminiKey_active now (resetAllKeys st) (resetKey k)).
  - unfold resetAllKeys; simpl. rewrite length_map. reflexivity.
  - unfold resetAllKeys; simpl. rewrite list_lookup_fmap, Hk. reflexivity.
  - reflexivity.
Qed.

(** The three ways a selection can go when the cursor is in range. *)
Lemma getNextGeminiKey_cases now st :
  cursorInRange st ->
  (API_KEY_STATES st = [] /\
   getNextGeminiKey now st = (Throw (Error noKeysConfiguredMessage), st))
  \/ (exists j kj,
        API_KEY_STATES st !! j = Some kj /\ isActive kj = true /\
        getNextGeminiKey now st =
          (Normal (key kj, j),
           mkKeyStore (<[j := useKey now kj]> (API_KEY_STATES st))
             ((j + 1) mod length (API_KEY_STATES st))%nat))
  \/ (exists k,
        API_KEY_STATES st !! currentKeyIndex st = Some k /\
        getNextGeminiKey now st =
          (Normal (key k, currentKeyIndex st),
           mkKeyStore (<[currentKeyIndex st := useKey now (resetKey k)]>
                         (map resetKey (API_KEY_STATES st)))
             ((currentKeyIndex st + 1) mod length (API_KEY_STATES st))%nat)).
Proof.
  intros [Hnil | Hlt].
  - left. split; [assumption|].
    rewrite getNextGeminiKey_body, Hnil. reflexivity.
  - right. destruct (lookup_lt_is_Some_2 _ _ Hlt) as [k Hk].
    rewrite getNextGeminiKey_body.
    destruct (Nat.eqb_spec (length (API_KEY_STATES st)) 0) as [E|E]; [lia|].
    destruct (scanKeys _ _ _) as [j kj| |] eqn:Hscan.
    + left. exists j, kj. apply scanKeys_Found in Hscan. tauto.
    + right. exists k. split; [assumption|].
      assert (Hk' : API_KEY_STATES (resetAllKeys st) !! currentKeyIndex (resetAllKeys st)
                    = Some (resetKey k)).
      { unfold resetAllKeys; simpl. rewrite list_lookup_fmap, Hk. reflexivity. }
      rewrite (getNextGeminiKey_active now _ _ Hk' eq_refl).
      unfold resetAllKeys; simpl. rewrite length_map. reflexivity.
    + exfalso. revert Hscan. apply scanKeys_defined. assumption.
Qed.

Lemma getNextGeminiKey_preserves now st :
  cursorInRange st ->
  cursorInRange (snd (getNextGeminiKey now st)) /\
  length (API_KEY_STATES (snd (getNextGeminiKey now st))) = length (API_KEY_STATES st).
Proof.
  intros Hin.
  destruct (getNextGeminiKey_cases now st Hin)
    as [[Hnil ->] | [(j & kj & Hj & _ & ->) | (k & Hk & ->)]];
    unfold cursorInRange; simpl.
  - auto.
  - apply lookup_lt_Some in Hj. rewrite !length_insert.
    split; [right|reflexivity]. apply Nat.mod_upper_bound. lia.
  - apply lookup_lt_Some in Hk. rewrite !length_insert, !length_map.
    split; [right|reflexivity]. apply Nat.mod_upper_bound. lia.
Qed.

(** A selection that finds the pool non-empty returns a key. *)
Lemma getNextGeminiKey_returns now st :
  cursorInRange st -> API_KEY_STATES st <> [] ->
  exists apiKey keyIndex,
    fst (getNextGeminiKey now st) = Normal (apiKey, keyIndex) /\
    (keyIndex < length (API_KEY_STATES st))%nat.
Proof.
  intros Hin Hne.
  destruct (getNextGeminiKey_cases now st Hin)
    as [[Hnil _] | [(j & kj & Hj & _ & ->) | (k & Hk & ->)]]; [congruence| |];
    simpl; eexists _, _; (split; [reflexivity|]); eapply lookup_lt_Some; eauto.
Qed.

Lemma length_markKeyError i m st :
  length (API_KEY_STATES (markKeyError i m st)) = length (API_KEY_STATES st).
Proof.
  unfold markKeyError. destruct (_ && _); simpl; [apply length_alter | reflexivity].
Qed.

Lemma length_markKeySuccess i st :
  length (API_KEY_STATES (markKeySuccess i st)) = length (API_KEY_STATES st).
Proof.
  unfold markKeySuccess. destruct (_ && _); simpl; [apply length_alter | reflexivity].
Qed.

Lemma currentKeyIndex_markKeyError i m st :
  currentKeyIndex (markKeyError i m st) = currentKeyIndex st.
Proof. unfold markKeyError. destruct (_ && _); reflexivity. Qed.

Lemma currentKeyIndex_markKeySuccess i st :
  currentKeyIndex (markKeySuccess i st) = currentKeyIndex st.
Proof. unfold markKeySuccess. destruct (_ && _); reflexivity. Qed.

Lemma cursorInRange_length st st' :
  length (API_KEY_STATES st') = length (API_KEY_STATES st) ->
  currentKeyIndex st' = currentKeyIndex st ->
  cursorInRange st -> cursorInRange st'.
Proof.
  unfold cursorInRange. intros Hl Hc [Hnil | Hlt].
  - left. rewrite Hnil in Hl. destruct (API_KEY_STATES st'); [reflexivity|discriminate].
  - right. lia.
Qed.

Lemma cursorInRange_markKeyError i m st :
  cursorInRange st -> cursorInRange (markKeyError i m st).
Proof.
  apply cursorInRange_length;
    [apply length_markKeyError | apply currentKeyIndex_markKeyError].
Qed.

Lemma cursorInRange_markKeySuccess i st :
  cursorInRange st -> cursorInRange (markKeySuccess i st).
Proof.
  apply cursorInRange_length;
    [apply length_markKeySuccess | apply currentKeyIndex_markKeySuccess].
Qed.

Lemma setGeminiApiKeys_cases keys st :
  (validKeys keys = [] /\
   setGeminiApiKeys keys st = (Throw (Error noValidKeysMessage), st))
  \/ (validKeys keys <> [] /\
      setGeminiApiKeys keys st =
        (Normal tt, mkKeyStore (map freshKeyState (validKeys keys)) 0)).
Proof.
  unfold setGeminiApiKeys. destruct (validKeys keys) as [|k ks]; simpl.
  - left. auto.
  - right. split; [discriminate | reflexivity].
Qed.

Lemma cursorInRange_setGeminiApiKeys keys st :
  cursorInRange st -> cursorInRange (snd (setGeminiApiKeys keys st)).
Proof.
  intros Hin. destruct (setGeminiApiKeys_cases keys st) as [[_ ->] | [Hne ->]]; simpl.
  - assumption.
  - right. simpl. rewrite length_map. destruct (validKeys keys); [congruence | simpl; lia].
Qed.

Lemma cursorInRange_applyOp st op :
  cursorInRange st -> cursorInRange (applyOp st op).
Proof.
  destruct op; simpl.
  - apply cursorInRange_setGeminiApiKeys.
  - intros H. apply getNextGeminiKey_preserves. assumption.
  - apply cursorInRange_markKeyError.
  - apply cursorInRange_markKeySuccess.
Qed.

(** Every store a client can reach has its cursor in range. *)
Lemma cursorInRange_runOps ops st :
  cursorInRange st -> cursorInRange (runOps ops st).
Proof.
  revert st. induction ops as [|op ops IH]; intros st Hin; simpl; [assumption|].
  apply IH, cursorInRange_applyOp, Hin.
Qed.

Lemma cursorInRange_initialStore : cursorInRange initialStore.
Proof. left. reflexivity. Qed.

(** *** The 3-strikes invariant *)

Lemma strikesRespected_useKey now k :
  strikesRespected k -> strikesRespected (useKey now k).
Proof. exact (fun H => H). Qed.

Lemma strikesRespected_resetKey k : strikesRespected (resetKey k).
Proof. unfold strikesRespected; simpl. lia. Qed.

Lemma strikesRespected_failKey m k : strikesRespected (failKey m k).
Proof.
  unfold strikesRespected, failKey; simpl. intros H.
  destruct (Z.geb_spec (errorCount k + 1) 3); [reflexivity | lia].
Qed.

Lemma strikesRespected_succeedKey k : strikesRespected (succeedKey k).
Proof. unfold strikesRespected; simpl. lia. Qed.

Lemma strikesRespected_freshKeyState s : strikesRespected (freshKeyState s).
Proof. unfold strikesRespected; simpl. lia. Qed.

Lemma Forall_alter_same {A} (P : A -> Prop) (f : A -> A) i (l : list A) :
  (forall x, P x -> P (f x)) -> Forall P l -> Forall P (alter f i l).
Proof.
  intros Hf Hl. apply Forall_lookup. intros j y Hy.
  destruct (decide (i = j)) as [->|Hne].
  - rewrite list_lookup_alter_eq in Hy.
    destruct (l !! j) as [x|] eqn:Hx; simpl in Hy; [|discriminate].
    injection Hy as <-. apply Hf. eapply Forall_lookup_1; eauto.
  - rewrite list_lookup_alter_ne in Hy by assumption.
    eapply Forall_lookup_1; eauto.
Qed.

Lemma strikes_applyOp st op :
  cursorInRange st ->
  Forall strikesRespected (API_KEY_STATES st) ->
  Forall strikesRespected (API_KEY_STATES (applyOp st op)).
Proof.
  intros Hin Hall. destruct op as [keys | now | i m | i]; simpl.
  - destruct (setGeminiApiKeys_cases keys st) as [[_ ->] | [_ ->]]; simpl; [assumption|].
    apply List.Forall_map, Forall_true. intros k.
    apply strikesRespected_freshKeyState.
  - destruct (getNextGeminiKey_cases now st Hin)
      as [[_ ->] | [(j & kj & Hj & _ & ->) | (k & Hk & ->)]]; simpl.
    + assumption.
    + apply Forall_insert; [assumption|].
      apply strikesRespected_useKey. eapply Forall_lookup_1; eauto.
    + apply Forall_insert.
      * apply List.Forall_map, Forall_true. intros x.
        apply strikesRespected_resetKey.
      * apply strikesRespected_useKey, strikesRespected_resetKey.
  - unfold markKeyError. destruct (_ && _); simpl; [|assumption].
    apply Forall_alter_same; [|assumption].
    intros x _. apply strikesRespected_failKey.
  - unfold markKeySuccess. destruct (_ && _); simpl; [|assumption].
    apply Forall_alter_same; [|assumption].
    intros x _. apply strikesRespected_succeedKey.
Qed.

Lemma strikes_runOps ops st :
  cursorInRange st ->
  Forall strikesRespected (API_KEY_STATES st) ->
  Forall strikesRespected (API_KEY_STATES (runOps ops st)).
Proof.
  revert st. induction ops as [|op ops IH]; intros st Hin Hall; simpl; [assumption|].
  apply IH; [apply cursorInRange_applyOp | apply strikes_applyOp]; assumption.
Qed.

Lemma markKeyError_lookup st keyIndex m k :
  (0 <= keyIndex)%Z ->
  API_KEY_STATES st !! Z.to_nat keyIndex = Some k ->
  markKeyError keyIndex m st =
    mkKeyStore (<[Z.to_nat keyIndex := failKey m k]> (API_KEY_STATES st))
      (currentKeyIndex st).
Proof.
  intros H0 Hk. unfold markKeyError.
  pose proof (lookup_lt_Some _ _ _ Hk) as Hlt.
  destruct (Z.geb_spec keyIndex 0); [|lia].
  destruct (Z.ltb_spec keyIndex (Z.of_nat (length (API_KEY_STATES st)))); [|lia].
  simpl. f_equal. apply list_eq. intros j.
  destruct (decide (Z.to_nat keyIndex = j)) as [<-|Hne].
  - rewrite list_lookup_alter_eq, Hk, list_lookup_insert_eq by assumption. reflexivity.
  - rewrite list_lookup_alter_ne, list_lookup_insert_ne by assumption. reflexivity.
Qed.

Lemma markKeySuccess_lookup st keyIndex k :
  (0 <= keyIndex)%Z ->
  API_KEY_STATES st !! Z.to_nat keyIndex = Some k ->
  markKeySuccess keyIndex st =
    mkKeyStore (<[Z.to_nat keyIndex := succeedKey k]> (API_KEY_STATES st))
      (currentKeyIndex st).
Proof.
  intros H0 Hk. unfold markKeySuccess.
  pose proof (lookup_lt_Some _ _ _ Hk) as Hlt.
  destruct (Z.geb_spec keyIndex 0); [|lia].
  destruct (Z.ltb_spec keyIndex (Z.of_nat (length (API_KEY_STATES st)))); [|lia].
  simpl. f_equal. apply list_eq. intros j.
  destruct (decide (Z.to_nat keyIndex = j)) as [<-|Hne].
  - rewrite list_lookup_alter_eq, Hk, list_lookup_insert_eq by assumption. reflexivity.
  - rewrite list_lookup_alter_ne, list_lookup_insert_ne by assumption. reflexivity.
Qed.

(** C1.  In every store reached from the initial one by any sequence of
    [setGeminiApiKeys], [getNextGeminiKey], [markKeyError] and
    [markKeySuccess], a key with [errorCount >= 3] is inactive.
    [markKeyError] on a valid index adds one to that key's [errorCount],
    stores the message as [lastError] and deactivates the key when the new
    count is at least 3; [markKeySuccess] on a valid index sets its
    [errorCount] to 0 and its [lastError] to [null]. *)
Theorem strikes_invariant :
  (forall ops : list KeyOp,
     Forall strikesRespected (API_KEY_STATES (runOps ops initialStore)))
  /\ (forall st keyIndex errorMessage k,
        (0 <= keyIndex)%Z ->
        API_KEY_STATES st !! Z.to_nat keyIndex = Some k ->
        API_KEY_STATES (markKeyError keyIndex errorMessage st) !! Z.to_nat keyIndex =
          Some (mkApiKeyState (key k) (usageCount k) (errorCount k + 1)
                  (Some errorMessage) (lastUsedAt k)
                  (if (errorCount k + 1 >=? 3)%Z then false else isActive k)))
  /\ (forall st keyIndex k,
        (0 <= keyIndex)%Z ->
        API_KEY_STATES st !! Z.to_nat keyIndex = Some k ->
        API_KEY_STATES (markKeySuccess keyIndex st) !! Z.to_nat keyIndex =
          Some (mkApiKeyState (key k) (usageCount k) 0 None (lastUsedAt k)
                  (isActive k))).
Proof.
  split; [|split].
  - intros ops. apply strikes_runOps; [apply cursorInRange_initialStore | constructor].
  - intros st keyIndex m k H0 Hk.
    rewrite (markKeyError_lookup st keyIndex m k H0 Hk). simpl.
    apply list_lookup_insert_eq. eapply lookup_lt_Some; eauto.
  - intros st keyIndex k H0 Hk.
    rewrite (markKeySuccess_lookup st keyIndex k H0 Hk). simpl.
    apply list_lookup_insert_eq. eapply lookup_lt_Some; eauto.
Qed.

Lemma strikes_invariant_witness :
  let st := runOps [OpSetKeys [js "key-a"; js "  "; js "key-b"];
                    OpGetNext 1000;
                    OpMarkError 0 (JString (js "quota")); OpMarkError 0 (JString (js "quota"))]
              initialStore in
  Forall strikesRespected (API_KEY_STATES st)
  /\ API_KEY_STATES (markKeyError 0 (JString (js "quota")) st) !! 0%nat =
       Some (mkApiKeyState (js "key-a") 1 3 (Some (JString (js "quota"))) (Some 1000%Z) false)
  /\ API_KEY_STATES (markKeySuccess 0 st) !! 0%nat =
       Some (mkApiKeyState (js "key-a") 1 0 None (Some 1000%Z) true).
Proof.
  destruct strikes_invariant as (Hinv & Herr & Hok).
  pose (k := mkApiKeyState (js "key-a") 1 2 (Some (JString (js "quota"))) (Some 1000%Z) true).
  split; [apply Hinv | split].
  - apply (Herr _ 0%Z (JString (js "quota")) k); [lia | reflexivity].
  - apply (Hok _ 0%Z k); [lia | reflexivity].
Defined.

(** C2.  When a client has reached a store with a non-empty pool in
    which every key is inactive, [getNextGeminiKey] does not throw: it
    resets every key ([isActive = true], [errorCount = 0]), returns the
    key under the cursor, and leaves every key of the pool active. *)
Theorem exhausted_pool_amnesty (ops : list KeyOp) (now : Z) :
  let st := runOps ops initialStore in
  API_KEY_STATES st <> [] ->
  Forall (fun k => isActive k = false) (API_KEY_STATES st) ->
  exists k,
    API_KEY_STATES st !! currentKeyIndex st = Some k /\
    getNextGeminiKey now st =
      (Normal (key k, currentKeyIndex st),
       mkKeyStore (<[currentKeyIndex st := useKey now (resetKey k)]>
                     (map resetKey (API_KEY_STATES st)))
         ((currentKeyIndex st + 1) mod length (API_KEY_STATES st))%nat) /\
    Forall (fun k' => isActive k' = true /\ errorCount k' = 0%Z)
      (API_KEY_STATES (snd (getNextGeminiKey now st))).
Proof.
  intros st Hne Hall.
  assert (Hin : cursorInRange st)
    by apply cursorInRange_runOps, cursorInRange_initialStore.
  destruct Hin as [Hnil | Hlt]; [congruence|].
  destruct (lookup_lt_is_Some_2 _ _ Hlt) as [k Hk].
  exists k. split; [assumption|].
  rewrite (getNextGeminiKey_exhausted now st k Hk Hall).
  split; [reflexivity|]. simpl.
  apply Forall_insert.
  - apply List.Forall_map, Forall_true. intros x. split; reflexivity.
  - split; reflexivity.
Qed.

Lemma exhausted_pool_amnesty_witness :
  let ops := [OpSetKeys [js "only-key"];
              OpMarkError 0 (JString (js "503")); OpMarkError 0 (JString (js "503"));
              OpMarkError 0 (JString (js "503"))] in
  exists k,
    API_KEY_STATES (runOps ops initialStore) !! 0%nat = Some k /\
    fst (getNextGeminiKey 42 (runOps ops initialStore)) = Normal (js "only-key", 0%nat) /\
    Forall (fun k' => isActive k' = true /\ errorCount k' = 0%Z)
      (API_KEY_STATES (snd (getNextGeminiKey 42 (runOps ops initialStore)))).
Proof.
  intros ops.
  destruct (exhausted_pool_amnesty ops 42) as (k & Hk & Hsel & Hall).
  - discriminate.
  - repeat constructor.
  - exists k. split; [exact Hk|]. split; [|exact Hall].
    rewrite Hsel. simpl. vm_compute in Hk. injection Hk as <-. reflexivity.
Defined.

Lemma map_imap_const {A B C} (g : B -> C) (h : A -> C) (l : list A) :
  forall f : nat -> A -> B,
    (forall i x, g (f i x) = h x) -> map g (imap f l) = map h l.
Proof.
  induction l as [|x l IH]; intros f Hf; simpl; [reflexivity|].
  rewrite Hf. f_equal. apply IH. intros i y. apply Hf.
Qed.

Lemma stat_lastError_getApiKeyStats toLocaleString st :
  map stat_lastError (getApiKeyStats toLocaleString st) =
  map lastError (API_KEY_STATES st).
Proof. unfold getApiKeyStats. apply map_imap_const. reflexivity. Qed.

Lemma map_insert_same {A B} (g : A -> B) (l : list A) i x y :
  l !! i = Some y -> g x = g y -> map g (<[i := x]> l) = map g l.
Proof.
  intros Hy Hg. apply list_eq. intros j.
  change (map g) with (fmap (M:=list) g). rewrite !list_lookup_fmap.
  destruct (decide (i = j)) as [<-|Hne].
  - rewrite list_lookup_insert_eq by (eapply lookup_lt_Some; eauto).
    rewrite Hy. simpl. congruence.
  - rewrite list_lookup_insert_ne by assumption. reflexivity.
Qed.

(** C10.  The reset that [getNextGeminiKey] performs on a pool without
    an active key changes [isActive] and [errorCount] only: the key, its
    [usageCount], [lastError] and [lastUsedAt] are those of before, and
    the cursor is kept.  The call is the selection on the reset store, and
    the [lastError] column of the next [getApiKeyStats] snapshot is the
    one of before the call. *)
Theorem reset_keeps_history (toLocaleString : Z -> jsstring)
    (ops : list KeyOp) (now : Z) :
  let st := runOps ops initialStore in
  API_KEY_STATES st <> [] ->
  Forall (fun k => isActive k = false) (API_KEY_STATES st) ->
  (forall i k,
      API_KEY_STATES st !! i = Some k ->
      exists k',
        API_KEY_STATES (resetAllKeys st) !! i = Some k' /\
        key k' = key k /\ usageCount k' = usageCount k /\
        lastError k' = lastError k /\ lastUsedAt k' = lastUsedAt k /\
        isActive k' = true /\ errorCount k' = 0%Z)
  /\ currentKeyIndex (resetAllKeys st) = currentKeyIndex st
  /\ getNextGeminiKey now st = getNextGeminiKey now (resetAllKeys st)
  /\ map stat_lastError
       (getApiKeyStats toLocaleString (snd (getNextGeminiKey now st))) =
     map lastError (API_KEY_STATES st)
  /\ map key (API_KEY_STATES (snd (getNextGeminiKey now st))) =
     map key (API_KEY_STATES st).
Proof.
  intros st Hne Hall.
  assert (Hin : cursorInRange st)
    by apply cursorInRange_runOps, cursorInRange_initialStore.
  destruct Hin as [Hnil | Hlt]; [congruence|].
  destruct (lookup_lt_is_Some_2 _ _ Hlt) as [k Hk].
  assert (Hk' : API_KEY_STATES (resetAllKeys st) !! currentKeyIndex (resetAllKeys st)
                = Some (resetKey k)).
  { unfold resetAllKeys; simpl. rewrite list_lookup_fmap, Hk. reflexivity. }
  repeat apply conj.
  - intros i x Hx. exists (resetKey x). split.
    + unfold resetAllKeys; simpl. rewrite list_lookup_fmap, Hx. reflexivity.
    + repeat split.
  - reflexivity.
  - rewrite (getNextGeminiKey_exhausted now st k Hk Hall).
    rewrite (getNextGeminiKey_active now _ _ Hk' eq_refl).
    unfold resetAllKeys; simpl. rewrite length_map. reflexivity.
  - rewrite stat_lastError_getApiKeyStats.
    rewrite (getNextGeminiKey_exhausted now st k Hk Hall). simpl.
    rewrite (map_insert_same lastError _ _ _ (resetKey k)).
    + rewrite map_map. reflexivity.
    + rewrite list_lookup_fmap, Hk. reflexivity.
    + reflexivity.
  - rewrite (getNextGeminiKey_exhausted now st k Hk Hall). simpl.
    rewrite (map_insert_same key _ _ _ (resetKey k)).
    + rewrite map_map. reflexivity.
    + rewrite list_lookup_fmap, Hk. reflexivity.
    + reflexivity.
Qed.

Lemma reset_keeps_history_witness :
  let ops := [OpSetKeys [js "a"; js "b"];
              OpMarkError 0 (JString (js "e1")); OpMarkError 0 (JString (js "e2")); OpMarkError 0 (JString (js "e3"));
              OpMarkError 1 (JString (js "f1")); OpMarkError 1 (JString (js "f2")); OpMarkError 1 (JString (js "f3"))] in
  map stat_lastError
    (getApiKeyStats (fun _ => js "date")
       (snd (getNextGeminiKey 7 (runOps ops initialStore)))) =
  [Some (JString (js "e3")); Some (JString (js "f3"))].
Proof.
  intros ops.
  destruct (reset_keeps_history (fun _ => js "date") ops 7) as (_ & _ & _ & H & _).
  - discriminate.
  - repeat constructor.
  - exact H.
Defined.

(** *** Rotation *)

Lemma selectMany_app t1 t2 st :
  selectMany (t1 ++ t2) st =
  (fst (selectMany t1 st) ++ fst (selectMany t2 (snd (selectMany t1 st))),
   snd (selectMany t2 (snd (selectMany t1 st)))).
Proof.
  revert st. induction t1 as [|t t1 IH]; intros st; simpl.
  - destruct (selectMany t2 st); reflexivity.
  - destruct (getNextGeminiKey t st) as [r st1]. rewrite IH.
    destruct (selectMany t1 st1) as [r1 st2]. simpl.
    destruct (selectMany t2 st2); reflexivity.
Qed.

(** From the cursor to the end of an all-active pool. *)
Lemma selectMany_rest todo : forall done times,
  Forall (fun k => isActive k = true) (done ++ todo) ->
  length times = length todo ->
  selectMany times
    (mkKeyStore (done ++ todo) (length done mod length (done ++ todo))%nat) =
  (imap (fun i k => Normal (key k, (length done + i)%nat)) todo,
   mkKeyStore (done ++ zip_with useKey times todo)
     ((length done + length todo) mod length (done ++ todo))%nat).
Proof.
  induction todo as [|k todo IH]; intros done times Hact Hlen.
  - destruct times; [|discriminate]. simpl. rewrite Nat.add_0_r. reflexivity.
  - destruct times as [|t times]; [discriminate|]. simpl in Hlen.
    assert (Hlt : (length done < length (done ++ k :: todo))%nat)
      by (rewrite length_app; simpl; lia).
    assert (Hk : (done ++ k :: todo) !! length done = Some k)
      by (rewrite lookup_app_r, Nat.sub_diag by lia; reflexivity).
    assert (Hactk : isActive k = true).
    { eapply (Forall_lookup_1 _ _ _ _ Hact Hk). }
    cbn [selectMany].
    rewrite Nat.mod_small by assumption.
    rewrite (getNextGeminiKey_active t (mkKeyStore (done ++ k :: todo) (length done)) k Hk Hactk).
    cbn [API_KEY_STATES currentKeyIndex].
    assert (Hins : <[length done := useKey t k]> (done ++ k :: todo)
                   = (done ++ [useKey t k]) ++ todo).
    { rewrite insert_app_r_alt, Nat.sub_diag by lia. simpl.
      rewrite <- app_assoc. reflexivity. }
    rewrite Hins.
    assert (Hl : length (done ++ k :: todo) = length ((done ++ [useKey t k]) ++ todo))
      by (rewrite !length_app; simpl; lia).
    rewrite Hl.
    replace (length done + 1)%nat with (length (done ++ [useKey t k]))
      by (rewrite length_app; reflexivity).
    rewrite IH.
    + cbn [imap zip_with]. f_equal.
      * f_equal. { rewrite Nat.add_0_r. reflexivity. }
        apply imap_ext. intros i x _. simpl. rewrite length_app. simpl.
        do 2 f_equal. lia.
      * rewrite <- app_assoc. simpl. f_equal.
        rewrite length_app. simpl. f_equal. lia.
    + rewrite <- app_assoc. simpl.
      apply Forall_app in Hact as [Hd Ht]. apply Forall_app. split; [assumption|].
      inversion Ht; subst. constructor; assumption.
    + lia.
Qed.

Lemma usedMore_zip_useKey pool : forall times,
  length times = length pool ->
  Forall2 (usedMore 1) pool (zip_with useKey times pool).
Proof.
  induction pool as [|k pool IH]; intros [|t times] Hlen; try discriminate; simpl.
  - constructor.
  - constructor; [repeat split | apply IH; simpl in Hlen; lia].
Qed.

(** A whole turn over an all-active pool with the cursor at 0. *)
Lemma selectMany_turn pool times :
  Forall (fun k => isActive k = true) pool ->
  length times = length pool ->
  exists pool',
    selectMany times (mkKeyStore pool 0) =
      (turn (map key pool), mkKeyStore pool' 0) /\
    Forall2 (usedMore 1) pool pool'.
Proof.
  intros Hact Hlen. exists (zip_with useKey times pool). split.
  - pose proof (selectMany_rest pool [] times Hact Hlen) as H.
    simpl in H. rewrite Nat.Div0.mod_0_l in H. rewrite H. f_equal.
    + unfold turn. rewrite imap_fmap. reflexivity.
    + f_equal. apply Nat.Div0.mod_same.
  - apply usedMore_zip_useKey, Hlen.
Qed.

Lemma usedMore_trans a b k1 k2 k3 :
  usedMore a k1 k2 -> usedMore b k2 k3 -> usedMore (a + b) k1 k3.
Proof.
  unfold usedMore. intros (?&?&?&?&?) (?&?&?&?&?).
  repeat split; try congruence. lia.
Qed.

Lemma Forall2_usedMore_trans a b l1 l2 l3 :
  Forall2 (usedMore a) l1 l2 -> Forall2 (usedMore b) l2 l3 ->
  Forall2 (usedMore (a + b)) l1 l3.
Proof.
  intros H. revert l3. induction H; intros l3 H3; inversion H3; subst; constructor.
  - eapply usedMore_trans; eauto.
  - auto.
Qed.

Lemma Forall2_usedMore_keys n l1 l2 :
  Forall2 (usedMore n) l1 l2 -> map key l2 = map key l1.
Proof. induction 1 as [|? ? ? ? (?&_)]; simpl; congruence. Qed.

Lemma Forall2_usedMore_active n l1 l2 :
  Forall2 (usedMore n) l1 l2 ->
  Forall (fun k => isActive k = true) l1 -> Forall (fun k => isActive k = true) l2.
Proof.
  induction 1 as [|? ? ? ? (_&_&_&_&?)]; intros Ha; inversion Ha; subst;
    constructor; [congruence | auto].
Qed.

Lemma Forall2_usedMore_refl l : Forall2 (usedMore 0) l l.
Proof.
  induction l; constructor; auto. repeat split. lia.
Qed.

(** [q] whole turns. *)
Lemma selectMany_turns q : forall pool times,
  Forall (fun k => isActive k = true) pool ->
  length times = (q * length pool)%nat ->
  exists pool',
    selectMany times (mkKeyStore pool 0) =
      (concat (replicate q (turn (map key pool))), mkKeyStore pool' 0) /\
    Forall2 (usedMore (Z.of_nat q)) pool pool'.
Proof.
  induction q as [|q IH]; intros pool times Hact Hlen.
  - destruct times; [|discriminate]. exists pool. split; [reflexivity|].
    apply Forall2_usedMore_refl.
  - rewrite <- (take_drop (length pool) times).
    assert (H1 : length (take (length pool) times) = length pool)
      by (rewrite length_take; lia).
    assert (H2 : length (drop (length pool) times) = (q * length pool)%nat)
      by (rewrite length_drop; lia).
    destruct (selectMany_turn pool _ Hact H1) as (pool1 & E1 & R1).
    pose proof (Forall2_usedMore_active _ _ _ R1 Hact) as Hact1.
    pose proof (Forall2_length _ _ _ R1) as Hl1.
    assert (H2' : length (drop (length pool) times) = (q * length pool1)%nat)
      by (rewrite <- Hl1; exact H2).
    destruct (IH pool1 _ Hact1 H2') as (pool2 & E2 & R2).
    exists pool2. split.
    + rewrite selectMany_app, E1. simpl. rewrite E2. simpl.
      rewrite (Forall2_usedMore_keys _ _ _ R1). reflexivity.
    + replace (Z.of_nat (S q)) with (1 + Z.of_nat q)%Z by lia.
      eapply Forall2_usedMore_trans; eauto.
Qed.

(** The store after [j] selections on an all-active pool. *)
Lemma selectMany_prefix j : forall times st c,
  API_KEY_STATES st <> [] ->
  Forall (fun k => isActive k = true) (API_KEY_STATES st) ->
  currentKeyIndex st = (c mod length (API_KEY_STATES st))%nat ->
  (j <= length times)%nat ->
  let stj := snd (selectMany (take j times) st) in
  Forall (fun k => isActive k = true) (API_KEY_STATES stj) /\
  length (API_KEY_STATES stj) = length (API_KEY_STATES st) /\
  currentKeyIndex stj = ((c + j) mod length (API_KEY_STATES st))%nat.
Proof.
  induction j as [|j IH]; intros times st c Hne Hact Hc Hj; simpl.
  - rewrite Nat.add_0_r. auto.
  - destruct times as [|t times]; [simpl in Hj; lia|]. simpl in Hj |- *.
    assert (Hlen : (0 < length (API_KEY_STATES st))%nat)
      by (destruct (API_KEY_STATES st); [congruence | simpl; lia]).
    assert (Hlt : (currentKeyIndex st < length (API_KEY_STATES st))%nat)
      by (rewrite Hc; apply Nat.mod_upper_bound; lia).
    destruct (lookup_lt_is_Some_2 _ _ Hlt) as [k Hk].
    rewrite (getNextGeminiKey_active t st k Hk (Forall_lookup_1 _ _ _ _ Hact Hk)).
    destruct (selectMany (take j times) _) as [rs st2] eqn:E.
    pose proof (IH times
      (mkKeyStore (<[currentKeyIndex st := useKey t k]> (API_KEY_STATES st))
         ((currentKeyIndex st + 1) mod length (API_KEY_STATES st))%nat) (S c)) as H.
    rewrite E in H. simpl in H. rewrite length_insert in H.
    destruct H as (Ha & Hl & Hcur).
    + intros Hnil. apply (f_equal length) in Hnil. rewrite length_insert in Hnil.
      simpl in Hnil. lia.
    + apply Forall_insert; [assumption|]. simpl.
      apply (Forall_lookup_1 _ _ _ _ Hact Hk).
    + rewrite Hc. rewrite Nat.Div0.add_mod_idemp_l. f_equal. lia.
    + lia.
    + simpl. repeat split; [assumption | assumption |].
      rewrite Hcur. f_equal. lia.
Qed.

(** C3.  After [setGeminiApiKeys] has configured N keys (the non-blank
    ones, trimmed, all active, cursor at 0), [q * N] consecutive calls of
    [getNextGeminiKey] return the keys in [q] turns of the configured
    order, so each key is selected [q] times and only its usage data
    changes; the j-th call (from 0) finds the cursor at [j mod N],
    returns that key, adds one to its [usageCount], sets its
    [lastUsedAt] to the clock reading and moves the cursor to
    [(j mod N + 1) mod N]. *)
Theorem rotation_fairness (keys : list jsstring) (st0 st : KeyStore)
    (q : nat) (times : list Z) :
  setGeminiApiKeys keys st0 = (Normal tt, st) ->
  length times = (q * length (API_KEY_STATES st))%nat ->
  let N := length (API_KEY_STATES st) in
  (API_KEY_STATES st = map freshKeyState (validKeys keys) /\
   currentKeyIndex st = 0%nat /\ (0 < N)%nat)
  /\ fst (selectMany times st) =
       concat (replicate q (turn (map trim (validKeys keys))))
  /\ Forall2 (usedMore (Z.of_nat q)) (API_KEY_STATES st)
       (API_KEY_STATES (snd (selectMany times st)))
  /\ (forall j now,
        times !! j = Some now ->
        let stj := snd (selectMany (take j times) st) in
        exists k,
          API_KEY_STATES stj !! (j mod N)%nat = Some k /\
          currentKeyIndex stj = (j mod N)%nat /\
          getNextGeminiKey now stj =
            (Normal (key k, (j mod N)%nat),
             mkKeyStore
               (<[(j mod N)%nat :=
                    mkApiKeyState (key k) (usageCount k + 1) (errorCount k)
                      (lastError k) (Some now) (isActive k)]>
                  (API_KEY_STATES stj))
               ((j mod N + 1) mod N)%nat)).
Proof.
  intros Hset Hlen N.
  destruct (setGeminiApiKeys_cases keys st0) as [[_ E] | [Hne E]];
    rewrite E in Hset; [discriminate|].
  injection Hset as <-. subst N. cbn [API_KEY_STATES currentKeyIndex] in *.
  assert (Hact : Forall (fun k => isActive k = true) (map freshKeyState (validKeys keys)))
    by (apply List.Forall_map, Forall_true; reflexivity).
  assert (Hpos : (0 < length (map freshKeyState (validKeys keys)))%nat)
    by (rewrite length_map; destruct (validKeys keys); [congruence | simpl; lia]).
  repeat apply conj; try reflexivity; try assumption.
  - destruct (selectMany_turns q _ times Hact Hlen) as (pool' & -> & _). simpl.
    rewrite map_map. reflexivity.
  - destruct (selectMany_turns q _ times Hact Hlen) as (pool' & -> & R). exact R.
  - intros j now Hj.
    set (stj := snd (selectMany (take j times) _)).
    pose proof (lookup_lt_Some _ _ _ Hj) as Hjlt.
    destruct (selectMany_prefix j times
                (mkKeyStore (map freshKeyState (validKeys keys)) 0) 0)
      as (Ha & Hl & Hc); cbn [API_KEY_STATES currentKeyIndex].
    + intros Hnil. rewrite Hnil in Hpos. simpl in Hpos. lia.
    + assumption.
    + rewrite Nat.Div0.mod_0_l. reflexivity.
    + lia.
    + fold stj in Ha, Hl, Hc. cbn [API_KEY_STATES] in Hl, Hc. simpl in Hc.
      assert (Hlt : (currentKeyIndex stj < length (API_KEY_STATES stj))%nat).
      { rewrite Hc, Hl. apply Nat.mod_upper_bound. lia. }
      destruct (lookup_lt_is_Some_2 _ _ Hlt) as [k Hk].
      exists k. rewrite <- Hc, <- Hl. split; [assumption|]. split; [reflexivity|].
      apply getNextGeminiKey_active; [assumption|].
      apply (Forall_lookup_1 _ _ _ _ Ha Hk).
Qed.

Lemma rotation_fairness_witness :
  let keys := [js "key-one"; js " key-two "; js "   "] in
  let st := snd (setGeminiApiKeys keys initialStore) in
  fst (selectMany [10; 20; 30; 40]%Z st) =
    [Normal (js "key-one", 0%nat); Normal (js "key-two", 1%nat);
     Normal (js "key-one", 0%nat); Normal (js "key-two", 1%nat)]
  /\ Forall2 (usedMore 2) (API_KEY_STATES st)
       (API_KEY_STATES (snd (selectMany [10; 20; 30; 40]%Z st))).
Proof.
  intros keys st.
  destruct (rotation_fairness keys initialStore st 2 [10; 20; 30; 40]%Z)
    as (_ & Hres & Hused & _).
  - reflexivity.
  - reflexivity.
  - split; [exact Hres | exact Hused].
Defined.


(** ** The retry loop *)

Lemma trimStart_blank s :
  Forall (fun c => isWhiteSpace c = true) s -> trimStart s = [].
Proof. induction 1 as [|c s Hc _ IH]; simpl; [reflexivity | rewrite Hc; exact IH]. Qed.

Lemma trim_blank s :
  Forall (fun c => isWhiteSpace c = true) s -> trim s = [].
Proof. intros H. unfold trim. rewrite (trimStart_blank s H). reflexivity. Qed.

Lemma fetchCount_app ev ev' :
  fetchCount (ev ++ ev') = (fetchCount ev + fetchCount ev')%nat.
Proof. unfold fetchCount. rewrite List.filter_app, length_app. reflexivity. Qed.

Lemma usable_same_length st st' :
  length (API_KEY_STATES st') = length (API_KEY_STATES st) ->
  cursorInRange st' -> usable st -> usable st'.
Proof.
  intros Hl Hc [_ Hne]. split; [assumption|].
  intros Hnil. rewrite Hnil in Hl. destruct (API_KEY_STATES st); [congruence | discriminate].
Qed.

Lemma usable_markKeyError i m st : usable st -> usable (markKeyError i m st).
Proof.
  intros H. eapply usable_same_length; [apply length_markKeyError | | exact H].
  apply cursorInRange_markKeyError, H.
Qed.

Lemma usable_markKeySuccess i st : usable st -> usable (markKeySuccess i st).
Proof.
  intros H. eapply usable_same_length; [apply length_markKeySuccess | | exact H].
  apply cursorInRange_markKeySuccess, H.
Qed.

(** The selection that opens an attempt on a usable store. *)
Lemma getNextGeminiKey_usable now st :
  usable st ->
  exists apiKey keyIndex st1 k,
    getNextGeminiKey now st = (Normal (apiKey, keyIndex), st1) /\
    usable st1 /\
    length (API_KEY_STATES st1) = length (API_KEY_STATES st) /\
    API_KEY_STATES st1 !! keyIndex = Some k /\ key k = apiKey.
Proof.
  intros [Hin Hne].
  pose proof (getNextGeminiKey_preserves now st Hin) as [Hin' Hlen'].
  destruct (getNextGeminiKey_cases now st Hin)
    as [[Hnil _] | [(j & kj & Hj & _ & E) | (k & Hk & E)]]; [congruence| |];
    rewrite E in Hin', Hlen' |- *; simpl in Hin', Hlen'.
  - eexists (key kj), j, _, (useKey now kj). split; [reflexivity|].
    split; [|split; [assumption|split; [|reflexivity]]].
    + eapply usable_same_length; [exact Hlen' | exact Hin' | split; assumption].
    + simpl. apply list_lookup_insert_eq. eapply lookup_lt_Some; eauto.
  - eexists (key k), (currentKeyIndex st), _, (useKey now (resetKey k)).
    split; [reflexivity|].
    split; [|split; [assumption|split; [|reflexivity]]].
    + eapply usable_same_length; [exact Hlen' | exact Hin' | split; assumption].
    + simpl. apply list_lookup_insert_eq. rewrite length_map.
      eapply lookup_lt_Some; eauto.
Qed.

Lemma catchBlock_spec max a i m st :
  exists tail,
    catchBlock max a i m st = (Continue, markKeyError i (JString m) st, tail) /\
    fetchCount tail = 0%nat.
Proof.
  unfold catchBlock. destruct (a <? max)%nat; eexists; split; reflexivity.
Qed.

(** The branch reports the failure once, or twice when [includes]
    throws. *)
Lemma notOkBranch_spec max a status i errorMessage notAFunction st :
  exists st2 tail,
    notOkBranch max a status i errorMessage notAFunction st = (Continue, st2, tail) /\
    fetchCount tail = 0%nat /\
    (st2 = markKeyError i errorMessage st \/
     st2 = markKeyError i (JString notAFunction) (markKeyError i errorMessage st)).
Proof.
  unfold notOkBranch.
  destruct (catchBlock_spec max a i notAFunction (markKeyError i errorMessage st))
    as (tail & E & Ht).
  destruct (statusAndIncludes 403 status _ errorMessage) as [[|]|].
  - eexists _, _. split; [reflexivity|]. split; [reflexivity | left; reflexivity].
  - destruct (statusAndIncludes 400 status _ errorMessage) as [[|]|].
    + eexists _, _. split; [reflexivity|]. split; [reflexivity | left; reflexivity].
    + destruct (_ || _); eexists _, _;
        (split; [reflexivity|]; split; [reflexivity | left; reflexivity]).
    + rewrite E. eexists _, _. split; [reflexivity|]. split; [exact Ht | right; reflexivity].
  - rewrite E. eexists _, _. split; [reflexivity|]. split; [exact Ht | right; reflexivity].
Qed.

(** What one iteration does on a usable store. *)
Lemma attemptBody_spec env max a st :
  usable st ->
  exists apiKey step st2 tail,
    attemptBody env max a st = (step, st2, EvFetch apiKey :: tail) /\
    fetchCount tail = 0%nat /\
    usable st2 /\
    length (API_KEY_STATES st2) = length (API_KEY_STATES st) /\
    step = match extractableText (outcome env a) with
           | Some t => Return t
           | None => Continue
           end.
Proof.
  intros Hu.
  destruct (getNextGeminiKey_usable (clock env a) st Hu)
    as (apiKey & keyIndex & st1 & k & Hsel & Hu1 & Hl1 & _).
  unfold attemptBody. rewrite Hsel.
  set (ki := Z.of_nat keyIndex).
  assert (Hfail : forall m, usable (markKeyError ki m st1) /\
            length (API_KEY_STATES (markKeyError ki m st1)) = length (API_KEY_STATES st)).
  { intros m. split; [apply usable_markKeyError, Hu1|].
    rewrite length_markKeyError. exact Hl1. }
  assert (Hfail2 : forall m m', usable (markKeyError ki m' (markKeyError ki m st1)) /\
            length (API_KEY_STATES (markKeyError ki m' (markKeyError ki m st1))) =
              length (API_KEY_STATES st)).
  { intros m m'. destruct (Hfail m) as [Hu2 Hl2].
    split; [apply usable_markKeyError, Hu2|].
    rewrite length_markKeyError. exact Hl2. }
  assert (Hnot : forall status errorMessage notAFunction,
            exists st2 tail,
              notOkBranch max a status ki errorMessage notAFunction st1 =
                (Continue, st2, tail) /\
              fetchCount tail = 0%nat /\ usable st2 /\
              length (API_KEY_STATES st2) = length (API_KEY_STATES st)).
  { intros status errorMessage notAFunction.
    destruct (notOkBranch_spec max a status ki errorMessage notAFunction st1)
      as (st2 & tail & E & Ht & [-> | ->]); eexists _, tail;
      (split; [exact E|]; split; [exact Ht|]).
    - apply Hfail.
    - apply Hfail2. }
  destruct (outcome env a)
    as [m | status [m | errorText parsed | errorText parsed notAFunction] | [m | data]];
    cbv beta iota.
  - destruct (catchBlock_spec max a ki m st1) as (tail & -> & Ht).
    eexists apiKey, Continue, _, tail. destruct (Hfail (JString m)). auto.
  - destruct (catchBlock_spec max a ki m st1) as (tail & -> & Ht).
    eexists apiKey, Continue, _, tail. destruct (Hfail (JString m)). auto.
  - destruct (Hnot status (JString (errorMessageOf errorText parsed)) [])
      as (st2 & tail & -> & Ht & Hu2 & Hl2).
    eexists apiKey, Continue, _, tail. auto.
  - destruct (Hnot status (errorValueOf errorText parsed) notAFunction)
      as (st2 & tail & -> & Ht & Hu2 & Hl2).
    eexists apiKey, Continue, _, tail. auto.
  - destruct (catchBlock_spec max a ki m st1) as (tail & -> & Ht).
    eexists apiKey, Continue, _, tail. destruct (Hfail (JString m)). auto.
  - unfold okBranch, extractableText.
    destruct (hasContent data); cbn [negb andb].
    + destruct (truthy (partText data)) eqn:Htext; cbn [negb andb].
      * eexists apiKey, (Return (default [] (partText data))), _, [].
        repeat split; try reflexivity.
        -- apply usable_markKeySuccess, Hu1.
        -- apply usable_markKeySuccess, Hu1.
        -- rewrite length_markKeySuccess. exact Hl1.
        -- destruct (partText data); [reflexivity | discriminate].
      * eexists apiKey, Continue, _, [EvSleep 10000].
        destruct (Hfail (JString (js "No text content in response"))). auto.
    + destruct (truthy (blockReason data)).
      * destruct (catchBlock_spec max a ki
                    (js "Content blocked by Gemini: " ++ default [] (blockReason data)) st1)
          as (tail & -> & Ht).
        eexists apiKey, Continue, _, tail.
        destruct (Hfail (JString (js "Content blocked by Gemini: " ++
                                  default [] (blockReason data)))). auto.
      * eexists apiKey, Continue, _, [EvSleep 10000].
        destruct (Hfail (JString (js "Invalid response structure"))). auto.
Qed.

Lemma retryLoop_step env max remaining a st :
  usable st ->
  exists apiKey st2 tail,
    fetchCount tail = 0%nat /\ usable st2 /\
    length (API_KEY_STATES st2) = length (API_KEY_STATES st) /\
    retryLoop env max (S remaining) a st =
      match extractableText (outcome env (S a)) with
      | Some t => (Normal t, st2, EvFetch apiKey :: tail)
      | None =>
          let '(result, st3, events) := retryLoop env max remaining (S a) st2 in
          (result, st3, (EvFetch apiKey :: tail) ++ events)
      end.
Proof.
  intros Hu.
  destruct (attemptBody_spec env max (S a) st Hu)
    as (apiKey & step & st2 & tail & E & Ht & Hu2 & Hl & Hstep).
  exists apiKey, st2, tail. split; [assumption|]. split; [assumption|].
  split; [assumption|].
  cbn [retryLoop]. rewrite E, Hstep.
  destruct (extractableText (outcome env (S a))); reflexivity.
Qed.

(** The loop makes at most [remaining] requests. *)
Lemma retryLoop_bound env max remaining : forall a st,
  usable st ->
  (fetchCount (snd (retryLoop env max remaining a st)) <= remaining)%nat.
Proof.
  induction remaining as [|r IH]; intros a st Hu; [unfold fetchCount; simpl; lia|].
  destruct (retryLoop_step env max r a st Hu) as (apiKey & st2 & tail & Ht & Hu2 & _ & ->).
  destruct (extractableText _).
  - cbn [snd]. change (EvFetch apiKey :: tail) with ([EvFetch apiKey] ++ tail).
    rewrite fetchCount_app, Ht. change (fetchCount [EvFetch apiKey]) with 1%nat. lia.
  - specialize (IH (S a) st2 Hu2).
    destruct (retryLoop env max r (S a) st2) as [[res st3] ev]. simpl in *.
    change (EvFetch apiKey :: tail ++ ev) with ([EvFetch apiKey] ++ tail ++ ev).
    rewrite !fetchCount_app, Ht. change (fetchCount [EvFetch apiKey]) with 1%nat. lia.
Qed.

(** Without a response that yields text, the loop uses all its budget
    and throws with the count of attempts. *)
Lemma retryLoop_exhausted env max remaining : forall a st,
  usable st ->
  (forall b, (a < b <= a + remaining)%nat -> extractableText (outcome env b) = None) ->
  exists st' events,
    retryLoop env max remaining a st =
      (Throw (Error (exhaustedMessage (a + remaining))), st', events) /\
    fetchCount events = remaining.
Proof.
  induction remaining as [|r IH]; intros a st Hu Hnone.
  - simpl. rewrite Nat.add_0_r. eexists _, _. split; reflexivity.
  - destruct (retryLoop_step env max r a st Hu) as (apiKey & st2 & tail & Ht & Hu2 & _ & ->).
    rewrite (Hnone (S a)) by lia.
    destruct (IH (S a) st2 Hu2) as (st' & ev & -> & Hev).
    { intros b Hb. apply Hnone. lia. }
    eexists _, _. split.
    + replace (a + S r)%nat with (S a + r)%nat by lia. reflexivity.
    + change ((EvFetch apiKey :: tail) ++ ev) with ([EvFetch apiKey] ++ tail ++ ev).
      rewrite !fetchCount_app, Ht, Hev. reflexivity.
Qed.

(** The first response that yields text ends the loop with that text. *)
Lemma retryLoop_first_success env max remaining : forall a st b t,
  usable st ->
  (a < b <= a + remaining)%nat ->
  extractableText (outcome env b) = Some t ->
  (forall c, (a < c < b)%nat -> extractableText (outcome env c) = None) ->
  exists st' events,
    retryLoop env max remaining a st = (Normal t, st', events) /\
    fetchCount events = (b - a)%nat.
Proof.
  induction remaining as [|r IH]; intros a st b t Hu Hb Ht Hnone; [lia|].
  destruct (retryLoop_step env max r a st Hu) as (apiKey & st2 & tail & Htail & Hu2 & _ & ->).
  destruct (decide (b = S a)) as [->|Hne].
  - rewrite Ht. eexists _, _. split; [reflexivity|].
    change (EvFetch apiKey :: tail) with ([EvFetch apiKey] ++ tail).
    rewrite fetchCount_app, Htail. change (fetchCount [EvFetch apiKey]) with 1%nat. lia.
  - rewrite (Hnone (S a)) by lia.
    destruct (IH (S a) st2 b t Hu2) as (st' & ev & -> & Hev); try assumption; try lia.
    { intros c Hc. apply Hnone. lia. }
    eexists _, _. split; [reflexivity|].
    change ((EvFetch apiKey :: tail) ++ ev) with ([EvFetch apiKey] ++ tail ++ ev).
    rewrite !fetchCount_app, Htail, Hev. change (fetchCount [EvFetch apiKey]) with 1%nat. lia.
Qed.

Lemma callGeminiAPI_nonblank env prompt st :
  trim prompt <> [] ->
  callGeminiAPI env prompt st =
  retryLoop env (length (API_KEY_STATES st) * 3) (length (API_KEY_STATES st) * 3) 0 st.
Proof.
  intros Hp. unfold callGeminiAPI.
  destruct prompt as [|c p]; [contradiction Hp; reflexivity|].
  destruct (trim (c :: p)); [congruence | reflexivity].
Qed.

Lemma usable_reachable ops :
  API_KEY_STATES (runOps ops initialStore) <> [] ->
  usable (runOps ops initialStore).
Proof.
  intros Hne. split; [|assumption].
  apply cursorInRange_runOps, cursorInRange_initialStore.
Qed.

Lemma callGeminiAPI_blank env prompt st :
  trim prompt = [] ->
  callGeminiAPI env prompt st = (Throw (Error promptEmptyMessage), st, []).
Proof.
  intros Hp. unfold callGeminiAPI. rewrite Hp. simpl.
  rewrite orb_true_r. reflexivity.
Qed.

(** C4, as the code has it.  On a pool of N keys [callGeminiAPI] makes
    at most 3 N requests, whatever the prompt.  With a prompt that is not
    blank (not empty once trimmed): if none of the 3 N answers yields
    text, it throws the error whose message carries the number of attempts
    made, 3 N; if the a-th answer is the first that yields text, it
    returns that text after exactly a requests. *)
Theorem retry_budget (env : Env) (prompt : jsstring) (ops : list KeyOp) :
  let st := runOps ops initialStore in
  let N := length (API_KEY_STATES st) in
  exists result st' events,
    callGeminiAPI env prompt st = (result, st', events) /\
    (fetchCount events <= 3 * N)%nat /\
    (trim prompt <> [] ->
     (forall a, (1 <= a <= 3 * N)%nat -> extractableText (outcome env a) = None) ->
     result =
       Throw (Error (js "Failed to generate content after " ++ decimal (3 * N) ++
                     js " attempts across all API keys. Please check your API keys and try again.")) /\
     fetchCount events = (3 * N)%nat) /\
    (trim prompt <> [] ->
     forall a t,
       (1 <= a <= 3 * N)%nat ->
       extractableText (outcome env a) = Some t ->
       (forall b, (1 <= b < a)%nat -> extractableText (outcome env b) = None) ->
       result = Normal t /\ fetchCount events = a).
Proof.
  intros st N.
  destruct (decide (trim prompt = [])) as [Hblank | Hp].
  { rewrite (callGeminiAPI_blank env prompt st Hblank).
    eexists _, _, _. split; [reflexivity|].
    split; [unfold fetchCount; simpl; lia|]. split; intros Hp; contradiction. }
  rewrite (callGeminiAPI_nonblank env prompt st Hp). fold N.
  replace (N * 3)%nat with (3 * N)%nat by lia.
  destruct (retryLoop env (3 * N) (3 * N) 0 st) as [[result st'] events] eqn:E.
  exists result, st', events. split; [reflexivity|].
  destruct (decide (API_KEY_STATES st = [])) as [Hnil | Hne].
  - assert (HN : N = 0%nat) by (subst N; rewrite Hnil; reflexivity).
    rewrite HN in E |- *. simpl in E. injection E as <- <- <-.
    split; [unfold fetchCount; simpl; lia|]. split.
    + intros _ _. split; reflexivity.
    + intros _ a t Ha. lia.
  - pose proof (usable_reachable ops Hne) as Hu. fold st in Hu.
    split; [|split].
    + pose proof (retryLoop_bound env (3 * N) (3 * N) 0 st Hu) as Hb.
      rewrite E in Hb. exact Hb.
    + intros _ Hnone.
      destruct (retryLoop_exhausted env (3 * N) (3 * N) 0 st Hu) as (s & ev & E' & Hc).
      { intros b Hb. apply Hnone. lia. }
      rewrite E in E'. injection E' as -> _ ->.
      split; [reflexivity | exact Hc].
    + intros _ a t Ha Ht Hfirst.
      destruct (retryLoop_first_success env (3 * N) (3 * N) 0 st a t Hu) as (s & ev & E' & Hc).
      { lia. }
      { exact Ht. }
      { intros c Hc. apply Hfirst. lia. }
      rewrite E in E'. injection E' as -> _ ->. split; [reflexivity | lia].
Qed.

Lemma retry_budget_witness :
  let succeeds := mkEnv (fun n => match n with
                                  | 3%nat => ResponseOk (BodyData (mkGeminiData true None (Some (js "[...]"))))
                                  | _ => ResponseNotOk 429 (ErrorText (js "quota exceeded") None)
                                  end)
                        (fun n => Z.of_nat n) in
  let fails := mkEnv (fun _ => ResponseNotOk 429 (ErrorText (js "quota exceeded") None))
                     (fun n => Z.of_nat n) in
  let ops := [OpSetKeys [js "k1"; js "k2"; js "k3"]] in
  (exists st' events,
     callGeminiAPI succeeds (js "write a question") (runOps ops initialStore) =
       (Normal (js "[...]"), st', events) /\
     fetchCount events = 3%nat)
  /\ (exists st' events,
        callGeminiAPI fails (js "write a question") (runOps ops initialStore) =
          (Throw (Error (js "Failed to generate content after 9 attempts across all API keys. Please check your API keys and try again.")),
           st', events) /\
        fetchCount events = 9%nat).
Proof.
  intros succeeds fails ops. split.
  - destruct (retry_budget succeeds (js "write a question") ops)
      as (result & st' & events & E & _ & _ & Hfirst).
    destruct (Hfirst ltac:(discriminate) 3%nat (js "[...]")) as [-> Hcount].
    + simpl. lia.
    + reflexivity.
    + intros b Hb. destruct b as [|[|[|b]]]; try lia; reflexivity.
    + exists st', events. split; [exact E | exact Hcount].
  - destruct (retry_budget fails (js "write a question") ops)
      as (result & st' & events & E & _ & Hnone & _).
    destruct (Hnone ltac:(discriminate) ltac:(intros a _; reflexivity)) as [-> Hcount].
    exists st', events. split; [exact E | exact Hcount].
Defined.

(** A prompt that is not empty but blank, on a pool of one key: no
    attempt is made, none succeeds, and the error thrown is the one about
    the prompt, which carries no count of attempts. *)
Lemma retry_budget_counterexample :
  let env := mkEnv (fun _ => ResponseNotOk 429 (ErrorText (js "quota exceeded") None))
                   (fun n => Z.of_nat n) in
  let st := runOps [OpSetKeys [js "k1"]] initialStore in
  let prompt := js " " in
  prompt <> [] /\
  callGeminiAPI env prompt st = (Throw (Error (js "Prompt cannot be empty")), st, []) /\
  forall attemptCount,
    js "Prompt cannot be empty" <>
    js "Failed to generate content after " ++ decimal attemptCount ++
    js " attempts across all API keys. Please check your API keys and try again.".
Proof.
  intros env st prompt. split; [discriminate|]. split; [reflexivity|].
  intros attemptCount H. vm_compute in H. discriminate H.
Qed.

(** C5.  A prompt that is empty or holds only whitespace makes
    [callGeminiAPI] throw [Prompt cannot be empty] at once: the store is
    the one it was given (no key selected, no counter, message, time stamp
    or activity flag touched) and the trace is empty (no request, no
    wait, no retry). *)
Theorem blank_prompt_rejected (env : Env) (prompt : jsstring) (st : KeyStore) :
  Forall (fun c => isWhiteSpace c = true) prompt ->
  callGeminiAPI env prompt st = (Throw (Error promptEmptyMessage), st, []).
Proof.
  intros Hblank. unfold callGeminiAPI.
  rewrite (trim_blank prompt Hblank). simpl. rewrite orb_true_r. reflexivity.
Qed.

Lemma blank_prompt_rejected_witness :
  let env := mkEnv (fun _ => FetchRejects (js "offline")) (fun _ => 0%Z) in
  let st := runOps [OpSetKeys [js "k1"; js "k2"]] initialStore in
  callGeminiAPI env [32; 9; 10; 160] st =
    (Throw (Error (js "Prompt cannot be empty")), st, []).
Proof.
  intros env st. apply (blank_prompt_rejected env [32; 9; 10; 160] st).
  repeat constructor.
Defined.

(** C9, as the code has it.  With a prompt that is not blank (not empty
    once trimmed) and an empty pool, [callGeminiAPI] never enters its
    loop: it makes no request, leaves the store alone and throws the
    exhaustion error with 0 attempts, which is not the error
    [getNextGeminiKey] throws on an empty pool. *)
Theorem empty_pool_exhausts (env : Env) (prompt : jsstring) (st : KeyStore)
    (now : Z) :
  API_KEY_STATES st = [] ->
  trim prompt <> [] ->
  callGeminiAPI env prompt st =
    (Throw (Error (js "Failed to generate content after 0 attempts across all API keys. Please check your API keys and try again.")),
     st, [])
  /\ getNextGeminiKey now st =
       (Throw (Error (js "No Gemini API keys configured. Please add API keys first.")), st)
  /\ js "Failed to generate content after 0 attempts across all API keys. Please check your API keys and try again."
       <> js "No Gemini API keys configured. Please add API keys first.".
Proof.
  intros Hnil Hp. repeat apply conj.
  - rewrite (callGeminiAPI_nonblank env prompt st Hp), Hnil. reflexivity.
  - rewrite getNextGeminiKey_body, Hnil. reflexivity.
  - discriminate.
Qed.

Lemma empty_pool_exhausts_witness :
  let env := mkEnv (fun _ => FetchRejects (js "offline")) (fun _ => 0%Z) in
  callGeminiAPI env (js "hello") initialStore =
    (Throw (Error (js "Failed to generate content after 0 attempts across all API keys. Please check your API keys and try again.")),
     initialStore, []).
Proof.
  intros env.
  apply (empty_pool_exhausts env (js "hello") initialStore 0%Z);
    [reflexivity | discriminate].
Defined.

(** A prompt that is not empty but blank, on the empty pool: the error
    thrown is the one about the prompt, not the exhaustion error with 0
    attempts. *)
Lemma empty_pool_exhausts_counterexample :
  let env := mkEnv (fun _ => FetchRejects (js "offline")) (fun _ => 0%Z) in
  let prompt := js " " in
  prompt <> [] /\
  API_KEY_STATES initialStore = [] /\
  callGeminiAPI env prompt initialStore =
    (Throw (Error (js "Prompt cannot be empty")), initialStore, []) /\
  js "Prompt cannot be empty" <>
    js "Failed to generate content after 0 attempts across all API keys. Please check your API keys and try again.".
Proof.
  intros env prompt. split; [discriminate|]. split; [reflexivity|].
  split; [reflexivity | discriminate].
Qed.

Lemma markKeyError_selected st keyIndex m k :
  API_KEY_STATES st !! keyIndex = Some k ->
  API_KEY_STATES (markKeyError (Z.of_nat keyIndex) m st) !! keyIndex =
    Some (failKey m k).
Proof.
  intros Hk.
  rewrite (markKeyError_lookup st (Z.of_nat keyIndex) m k); simpl;
    rewrite ?Nat2Z.id; try lia; try assumption.
  apply list_lookup_insert_eq. eapply lookup_lt_Some; eauto.
Qed.

Lemma markKeyError_recorded st keyIndex m k :
  API_KEY_STATES st !! keyIndex = Some k ->
  markKeyError (Z.of_nat keyIndex) m st =
    mkKeyStore
      (<[keyIndex := mkApiKeyState (key k) (usageCount k) (errorCount k + 1)
                       (Some m) (lastUsedAt k)
                       (if (errorCount k + 1 >=? 3)%Z then false else isActive k)]>
         (API_KEY_STATES st))
      (currentKeyIndex st).
Proof.
  intros Hk.
  rewrite (markKeyError_lookup st (Z.of_nat keyIndex) m k);
    rewrite ?Nat2Z.id; try lia; try assumption.
  reflexivity.
Qed.







(** ** JSON.parse never runs out of fuel *)

Lemma length_skipJsonSpace s : (length (skipJsonSpace s) <= length s)%nat.
Proof.
  induction s as [|c s IH]; simpl; [lia|].
  destruct (isJsonSpace c); simpl; lia.
Qed.

Lemma parseStringChars_rest s :
  parseStringChars s <> POutOfFuel /\
  forall t rest, parseStringChars s = POk t rest -> (length rest < length s)%nat.
Proof.
  remember (length s) as n eqn:Hn. revert s Hn.
  induction n as [n IH] using lt_wf_ind. intros s Hn.
  destruct s as [|c r]; [split; [discriminate | intros ? ? [=]]|].
  cbn [parseStringChars].
  destruct (c =? dquote).
  { split; [discriminate|]. intros t rest [= <- <-]. subst n. simpl. lia. }
  destruct (c =? bslash).
  - destruct r as [|e r']; [split; [discriminate | intros ? ? [=]]|].
    destruct (e =? ch "u").
    + destruct r' as [|a [|b [|c' [|d r'']]]];
        try (split; [discriminate | intros ? ? [=]]).
      destruct (_ && _); [|split; [discriminate | intros ? ? [=]]].
      destruct (IH (length r'') ltac:(subst n; simpl; lia) r'' eq_refl) as [Hf Hr].
      destruct (parseStringChars r'') as [t' rest'| |];
        [|split; [discriminate | intros ? ? [=]] | contradiction].
      split; [discriminate|]. intros t rest [= <- <-].
      specialize (Hr _ _ eq_refl). subst n. simpl. lia.
    + match goal with
      | |- context [match ?u with Some _ => _ | None => _ end] => destruct u
      end; [|split; [discriminate | intros ? ? [=]]].
      destruct (IH (length r') ltac:(subst n; simpl; lia) r' eq_refl) as [Hf Hr].
      destruct (parseStringChars r') as [t' rest'| |];
        [|split; [discriminate | intros ? ? [=]] | contradiction].
      split; [discriminate|]. intros t rest [= <- <-].
      specialize (Hr _ _ eq_refl). subst n. simpl. lia.
  - destruct (c <? 32); [split; [discriminate | intros ? ? [=]]|].
    destruct (IH (length r) ltac:(subst n; simpl; lia) r eq_refl) as [Hf Hr].
    destruct (parseStringChars r) as [t' rest'| |];
      [|split; [discriminate | intros ? ? [=]] | contradiction].
    split; [discriminate|]. intros t rest [= <- <-].
    specialize (Hr _ _ eq_refl). subst n. simpl. lia.
Qed.

Lemma parseNumber_rest s :
  parseNumber s <> POutOfFuel /\
  forall t rest, parseNumber s = POk t rest -> (length rest < length s)%nat.
Proof.
  unfold parseNumber.
  set (p := match s with
            | c :: r => if c =? ch "-" then ([c], r) else ([], s)
            | [] => ([], s)
            end).
  assert (Hp : (length (snd p) <= length s)%nat).
  { subst p. destruct s as [|c r]; [simpl; lia|].
    destruct (c =? ch "-"); simpl; lia. }
  destruct p as [sign s1]. simpl in Hp.
  destruct s1 as [|d r1]; [split; [discriminate | intros ? ? [=]]|].
  destruct (negb (isDigit d)); [split; [discriminate | intros ? ? [=]]|].
  set (n := if d =? ch "0" then 0%nat else countWhile isDigit r1).
  set (s2 := drop n r1).
  assert (H2 : (length s2 <= length r1)%nat) by (subst s2; rewrite length_drop; lia).
  set (f := match s2 with
            | p :: r2 =>
                if p =? ch "." then
                  let k := countWhile isDigit r2 in
                  (p :: take k r2, drop k r2, negb (k =? 0)%nat)
                else ([], s2, true)
            | [] => ([], s2, true)
            end).
  assert (H3 : (length (snd (fst f)) <= length s2)%nat).
  { subst f. destruct s2 as [|p r2]; [simpl; lia|].
    destruct (p =? ch "."); simpl; [rewrite length_drop|]; lia. }
  destruct f as [[frac s3] okFrac]. simpl in H3.
  set (e := match s3 with
            | e :: r3 =>
                if (e =? ch "e") || (e =? ch "E") then
                  let '(esign, r4) :=
                    match r3 with
                    | g :: r3' =>
                        if (g =? ch "+") || (g =? ch "-") then ([g], r3') else ([], r3)
                    | [] => ([], r3)
                    end in
                  let k := countWhile isDigit r4 in
                  (e :: esign ++ take k r4, drop k r4, negb (k =? 0)%nat)
                else ([], s3, true)
            | [] => ([], s3, true)
            end).
  assert (H4 : (length (snd (fst e)) <= length s3)%nat).
  { subst e. destruct s3 as [|x r3]; [simpl; lia|].
    destruct ((x =? ch "e") || (x =? ch "E")); [|simpl; lia].
    destruct r3 as [|g r3']; [simpl; lia|].
    destruct ((g =? ch "+") || (g =? ch "-")); simpl; rewrite length_drop; simpl; lia. }
  destruct e as [[exp s4] okExp]. simpl in H4.
  destruct (okFrac && okExp); [|split; [discriminate | intros ? ? [=]]].
  split; [discriminate|]. intros t rest [= <- <-]. simpl in *. lia.
Qed.

(** With fuel beyond twice the length of the text, the descent ends in
    a value or a syntax error, and a value consumes at least one code
    unit. *)
Lemma parse_fuel_enough fuel :
  (forall s, (2 * length s + 1 <= fuel)%nat ->
     parseValue fuel s <> POutOfFuel /\
     forall v rest, parseValue fuel s = POk v rest -> (length rest < length s)%nat)
  /\ (forall s acc, (2 * length s + 2 <= fuel)%nat ->
        parseElements fuel s acc <> POutOfFuel /\
        forall v rest, parseElements fuel s acc = POk v rest ->
                       (length rest < length s)%nat)
  /\ (forall s acc, (2 * length s + 2 <= fuel)%nat ->
        parseMembers fuel s acc <> POutOfFuel /\
        forall v rest, parseMembers fuel s acc = POk v rest ->
                       (length rest < length s)%nat).
Proof.
  induction fuel as [|fuel (IHv & IHe & IHm)].
  { repeat split; intros; lia. }
  repeat apply conj.
  - (* parseValue *)
    intros s Hf. cbn [parseValue].
    pose proof (length_skipJsonSpace s) as Hs.
    destruct (skipJsonSpace s) as [|c r]; [split; [discriminate | intros ? ? [=]]|].
    simpl in Hs.
    destruct (c =? ch "[").
    { pose proof (length_skipJsonSpace r) as Hr.
      destruct (skipJsonSpace r) as [|c' r']; [split; [discriminate | intros ? ? [=]]|].
      simpl in Hr.
      destruct (c' =? ch "]").
      - split; [discriminate|]. intros v rest [= <- <-]. lia.
      - destruct (IHe (c' :: r') [] ltac:(simpl; lia)) as [H1 H2].
        split; [assumption|]. intros v rest E. specialize (H2 _ _ E). simpl in H2. lia. }
    destruct (c =? ch "{").
    { pose proof (length_skipJsonSpace r) as Hr.
      destruct (skipJsonSpace r) as [|c' r']; [split; [discriminate | intros ? ? [=]]|].
      simpl in Hr.
      destruct (c' =? ch "}").
      - split; [discriminate|]. intros v rest [= <- <-]. lia.
      - destruct (IHm (c' :: r') [] ltac:(simpl; lia)) as [H1 H2].
        split; [assumption|]. intros v rest E. specialize (H2 _ _ E). simpl in H2. lia. }
    destruct (c =? dquote).
    { destruct (parseStringChars_rest r) as [H1 H2].
      destruct (parseStringChars r) as [t rest'| |];
        [|split; [discriminate | intros ? ? [=]] | contradiction].
      split; [discriminate|]. intros v rest [= <- <-]. specialize (H2 _ _ eq_refl). lia. }
    destruct (isPrefixOf (js "true") (c :: r)).
    { split; [discriminate|]. intros v rest [= <- <-]. simpl. rewrite length_drop. lia. }
    destruct (isPrefixOf (js "false") (c :: r)).
    { split; [discriminate|]. intros v rest [= <- <-].
      change (drop 5 (c :: r)) with (drop 4 r). rewrite length_drop. lia. }
    destruct (isPrefixOf (js "null") (c :: r)).
    { split; [discriminate|]. intros v rest [= <- <-]. simpl. rewrite length_drop. lia. }
    destruct (parseNumber_rest (c :: r)) as [H1 H2].
    destruct (parseNumber (c :: r)) as [t rest'| |];
      [|split; [discriminate | intros ? ? [=]] | contradiction].
    split; [discriminate|]. intros v rest [= <- <-]. specialize (H2 _ _ eq_refl).
    simpl in H2. lia.
  - (* parseElements *)
    intros s acc Hf. cbn [parseElements].
    destruct (IHv s ltac:(lia)) as [H1 H2].
    destruct (parseValue fuel s) as [v rest| |];
      [|split; [discriminate | intros ? ? [=]] | contradiction].
    specialize (H2 _ _ eq_refl).
    pose proof (length_skipJsonSpace rest) as Hr.
    destruct (skipJsonSpace rest) as [|c r]; [split; [discriminate | intros ? ? [=]]|].
    simpl in Hr.
    destruct (c =? ch ",").
    + destruct (IHe r (acc ++ [v]) ltac:(lia)) as [H3 H4].
      split; [assumption|]. intros v' rest' E. specialize (H4 _ _ E). lia.
    + destruct (c =? ch "]"); [|split; [discriminate | intros ? ? [=]]].
      split; [discriminate|]. intros v' rest' [= <- <-]. lia.
  - (* parseMembers *)
    intros s acc Hf. cbn [parseMembers].
    pose proof (length_skipJsonSpace s) as Hs.
    destruct (skipJsonSpace s) as [|q r]; [split; [discriminate | intros ? ? [=]]|].
    simpl in Hs.
    destruct (q =? dquote); [|split; [discriminate | intros ? ? [=]]].
    destruct (parseStringChars_rest r) as [H1 H2].
    destruct (parseStringChars r) as [name rest| |];
      [|split; [discriminate | intros ? ? [=]] | contradiction].
    specialize (H2 _ _ eq_refl).
    pose proof (length_skipJsonSpace rest) as Hr.
    destruct (skipJsonSpace rest) as [|c r1]; [split; [discriminate | intros ? ? [=]]|].
    simpl in Hr.
    destruct (c =? ch ":"); [|split; [discriminate | intros ? ? [=]]].
    destruct (IHv r1 ltac:(lia)) as [H3 H4].
    destruct (parseValue fuel r1) as [v rest'| |];
      [|split; [discriminate | intros ? ? [=]] | contradiction].
    specialize (H4 _ _ eq_refl).
    pose proof (length_skipJsonSpace rest') as Hr'.
    destruct (skipJsonSpace rest') as [|c' r2]; [split; [discriminate | intros ? ? [=]]|].
    simpl in Hr'.
    destruct (c' =? ch ",").
    + destruct (IHm r2 (setMember name v acc) ltac:(lia)) as [H5 H6].
      split; [assumption|]. intros v' rest'' E. specialize (H6 _ _ E). lia.
    + destruct (c' =? ch "}"); [|split; [discriminate | intros ? ? [=]]].
      split; [discriminate|]. intros v' rest'' [= <- <-]. lia.
Qed.

(** The fuel [JSON_parse] hands out is enough for every text: [None]
    always stands for a syntax error. *)
Lemma JSON_parse_fuel text :
  parseValue (2 * length text + 1) text <> POutOfFuel.
Proof.
  destruct (parse_fuel_enough (2 * length text + 1)) as (Hv & _ & _).
  apply Hv. lia.
Qed.

(** ** The parser *)

Lemma code_eqb_eq a b : code_eqb a b = true <-> a = b.
Proof. apply N.eqb_eq. Qed.

Lemma indexOf_None c s : indexOf c s = None <-> absent c s.
Proof.
  unfold absent. induction s as [|x s IH]; simpl.
  - split; [constructor | reflexivity].
  - destruct (code_eqb x c) eqn:E.
    + apply code_eqb_eq in E. split; [discriminate|].
      intros H. inversion H; subst. congruence.
    + assert (Hx : x <> c).
      { intros ->. rewrite (proj2 (code_eqb_eq c c) eq_refl) in E. discriminate. }
      split.
      * intros Hi. constructor; [assumption|]. apply IH.
        destruct (indexOf c s); [discriminate | reflexivity].
      * intros H. inversion H as [|? ? _ Hs]; subst.
        apply IH in Hs. rewrite Hs. reflexivity.
Qed.

Lemma includes_singleton_absent c s : absent c s -> includes [c] s = false.
Proof.
  induction 1 as [|x s Hx _ IH]; [reflexivity|].
  simpl. rewrite IH.
  destruct (code_eqb c x) eqn:E; [apply code_eqb_eq in E; congruence | reflexivity].
Qed.

Lemma absent_app c a b : absent c a -> absent c b -> absent c (a ++ b).
Proof. intros Ha Hb. apply Forall_app. split; assumption. Qed.

Lemma absent_take c n s : absent c s -> absent c (take n s).
Proof. apply Forall_take. Qed.

Lemma absent_drop c n s : absent c s -> absent c (drop n s).
Proof. apply Forall_drop. Qed.

Lemma absent_trimStart c s : absent c s -> absent c (trimStart s).
Proof.
  induction 1 as [|x s Hx Hs IH]; simpl; [constructor|].
  destruct (isWhiteSpace x); [assumption | constructor; assumption].
Qed.

Lemma absent_trim c s : absent c s -> absent c (trim s).
Proof.
  intros H. unfold trim, trimEnd, absent.
  apply Forall_rev. apply absent_trimStart. apply Forall_rev.
  apply absent_trimStart, H.
Qed.

(** A global replacement cannot bring in a code unit that neither the
    text nor the replacements hold. *)
Lemma absent_replaceFrom c m f s : forall skip index,
  (forall i matched, absent c matched -> absent c (f i matched)) ->
  absent c s ->
  absent c (fst (replaceFrom m f skip index s)).
Proof.
  induction s as [|x s IH]; intros skip index Hf Hs; [constructor|].
  inversion Hs as [|? ? Hx Hs']; subst.
  cbn [replaceFrom]. destruct skip as [|k].
  - destruct (m (x :: s)) as [[|n]|].
    + specialize (IH O index Hf Hs').
      destruct (replaceFrom m f 0 index s). simpl in *. constructor; assumption.
    + specialize (IH n (S index) Hf Hs').
      destruct (replaceFrom m f n (S index) s). simpl in *.
      apply absent_app; [|assumption]. apply Hf.
      apply (absent_take c (S n) (x :: s) Hs).
    + specialize (IH O index Hf Hs').
      destruct (replaceFrom m f 0 index s). simpl in *. constructor; assumption.
  - apply IH; assumption.
Qed.

Lemma absent_replaceAll c m replacement s :
  absent c replacement -> absent c s -> absent c (replaceAll m replacement s).
Proof.
  intros Hr Hs. unfold replaceAll, replaceWith.
  apply absent_replaceFrom; [intros; assumption | assumption].
Qed.

Lemma absent_removeAtStart c m s : absent c s -> absent c (removeAtStart m s).
Proof.
  intros Hs. unfold removeAtStart. destruct (m s); [apply absent_drop|]; assumption.
Qed.

Lemma absent_fixQuotes c s :
  c <> ch "." -> c <> dquote -> c <> ch "'" -> absent c s -> absent c (fixQuotes s).
Proof.
  intros H1 H2 H3 Hs. unfold fixQuotes.
  unfold ch in *.
  apply absent_replaceAll; [repeat constructor; congruence|].
  apply absent_replaceAll; [repeat constructor; congruence|].
  apply absent_replaceAll; [repeat constructor; congruence|].
  assumption.
Qed.

Lemma absent_collapseSpaces c s : c <> 32 -> absent c s -> absent c (collapseSpaces s).
Proof.
  intros Hc Hs. unfold collapseSpaces. apply absent_replaceAll; [|assumption].
  repeat constructor; congruence.
Qed.

Ltac absent_literal :=
  match goal with
  | |- absent _ _ => repeat constructor; discriminate
  end.

Lemma absent_aggressiveClean t s :
  absent (openChar t) s -> absent (openChar t) (aggressiveClean s).
Proof.
  intros Hs. unfold aggressiveClean.
  apply absent_collapseSpaces; [destruct t; discriminate|].
  apply absent_fixQuotes; try (destruct t; discriminate).
  unfold escapeMap, splitJoin. cbn [fold_left].
  do 15 (apply absent_replaceAll; [destruct t; absent_literal|]).
  apply absent_trim, absent_removeAtStart.
  do 4 (apply absent_replaceAll; [destruct t; absent_literal|]).
  assumption.
Qed.

Lemma isPrefixOf_app_l p q s :
  isPrefixOf (p ++ q) s = true -> isPrefixOf p s = true.
Proof.
  revert s. induction p as [|a p IH]; intros s H; [destruct s; reflexivity|].
  destruct s as [|b s]; [discriminate|]. simpl in *.
  apply andb_prop in H as [-> H]. apply IH, H.
Qed.

Lemma includes_app_l p q s :
  includes (p ++ q) s = true -> includes p s = true.
Proof.
  induction s as [|b s IH]; simpl; intros H.
  - rewrite orb_false_r in *. apply (isPrefixOf_app_l p q []), H.
  - apply orb_prop in H as [H | H].
    + rewrite (isPrefixOf_app_l p q _ H). reflexivity.
    + rewrite (IH H). apply orb_true_r.
Qed.

Lemma includes_fence_json s :
  includes (js "```") s = false -> includes (js "```json") s = false.
Proof.
  intros H. destruct (includes (js "```json") s) eqn:E; [|reflexivity].
  change (js "```json") with (js "```" ++ js "json") in E.
  apply includes_app_l in E. congruence.
Qed.

Section NoBracket.

Variable syntaxErrorMessage : jsstring -> jsstring.
Variable response : jsstring.
Variable expectedType : ExpectedType.
Hypothesis no_bracket : indexOf (openChar expectedType) response = None.

Lemma strategy1_no_bracket :
  strategy1 syntaxErrorMessage response expectedType =
    inr (js "No JSON found in response").
Proof. unfold strategy1, matchBracketed. rewrite no_bracket. reflexivity. Qed.

Lemma strategy2_no_bracket :
  strategy2 syntaxErrorMessage response expectedType =
    inr (js "No opening bracket found").
Proof. unfold strategy2. rewrite no_bracket. reflexivity. Qed.

Lemma strategy3_no_bracket :
  strategy3 syntaxErrorMessage response expectedType =
    inr (js "Invalid bracket positions").
Proof. unfold strategy3. rewrite no_bracket. reflexivity. Qed.

Lemma strategy4_no_bracket :
  strategy4 syntaxErrorMessage response expectedType =
    inr (js "No JSON after aggressive cleaning").
Proof.
  unfold strategy4, matchBracketed.
  assert (H : indexOf (openChar expectedType) (aggressiveClean response) = None).
  { apply indexOf_None, absent_aggressiveClean, indexOf_None, no_bracket. }
  rewrite H. reflexivity.
Qed.

Lemma strategy5_no_bracket :
  strategy5 syntaxErrorMessage response expectedType =
    inr (js "Cannot find JSON boundaries").
Proof. unfold strategy5. rewrite no_bracket. reflexivity. Qed.

Lemma strategy6_no_bracket :
  strategy6 syntaxErrorMessage response expectedType =
    inr (js "No opening bracket found").
Proof. unfold strategy6. rewrite no_bracket. reflexivity. Qed.

Lemma errorSummary_no_bracket :
  errorSummary response expectedType =
    if includes (js "```") response
    then js "Response contains markdown code blocks"
    else if existsb (inRange 0 31) response
    then js "Response contains control characters"
    else js "No " ++ match expectedType with
                     | ExpectArray => js "array"
                     | ExpectObject => js "object"
                     end ++ js " bracket found in response".
Proof.
  unfold errorSummary.
  destruct (includes (js "```") response) eqn:Hf.
  - rewrite orb_true_r. reflexivity.
  - rewrite (includes_fence_json response Hf). cbn [orb].
    destruct (existsb (inRange 0 31) response); [reflexivity|].
    rewrite includes_singleton_absent by (apply indexOf_None, no_bracket).
    reflexivity.
Qed.

End NoBracket.

(** C7.  [parseJsonRobust], expecting an array, turns the fenced text
    of scenario 3, whose string value holds a line feed, into one record
    whose field [a] is the two fragments joined by one space; its first
    strategy already does. *)
Theorem scenario3_parses (syntaxErrorMessage : jsstring -> jsstring) :
  parseJsonRobust syntaxErrorMessage scenario3 ExpectArray =
    Normal (JArray [JObject [(js "a", JString (js "line one line two"))]])
  /\ strategy1 syntaxErrorMessage scenario3 ExpectArray =
       inl (JArray [JObject [(js "a", JString (js "line one line two"))]]).
Proof. split; vm_compute; reflexivity. Qed.

(** C8, as the code has it.  On a response without a bracket of the
    expected type, each of the six strategies throws, and
    [parseJsonRobust] throws an error whose message counts six attempts
    and ends with the message of strategy 1.  The category it names is the
    one about markdown when the response holds three backticks in a row,
    else the one about control characters when it holds a code unit below
    32, and else the one about the missing bracket. *)
Theorem no_bracket_diagnostics (syntaxErrorMessage : jsstring -> jsstring)
    (response : jsstring) (expectedType : ExpectedType) :
  indexOf (openChar expectedType) response = None ->
  Forall (fun o => exists message, o = inr message)
    (strategies syntaxErrorMessage response expectedType)
  /\ parseJsonRobust syntaxErrorMessage response expectedType =
       Throw (Error
         (js "Failed to parse JSON after 6 attempts. Issue: " ++
          errorSummary response expectedType ++
          js ". First error: Strategy 1: No JSON found in response"))
  /\ errorSummary response expectedType =
       if includes (js "```") response
       then js "Response contains markdown code blocks"
       else if existsb (inRange 0 31) response
       then js "Response contains control characters"
       else js "No " ++ match expectedType with
                        | ExpectArray => js "array"
                        | ExpectObject => js "object"
                        end ++ js " bracket found in response".
Proof.
  intros Hno.
  assert (Hs : strategies syntaxErrorMessage response expectedType =
               [inr (js "No JSON found in response");
                inr (js "No opening bracket found");
                inr (js "Invalid bracket positions");
                inr (js "No JSON after aggressive cleaning");
                inr (js "Cannot find JSON boundaries");
                inr (js "No opening bracket found")]).
  { unfold strategies.
    rewrite strategy1_no_bracket, strategy2_no_bracket, strategy3_no_bracket,
      strategy4_no_bracket, strategy5_no_bracket, strategy6_no_bracket by assumption.
    reflexivity. }
  split; [|split].
  - rewrite Hs. repeat constructor; eexists; reflexivity.
  - unfold parseJsonRobust. rewrite Hs. cbn [tryStrategies].
    unfold failureMessage. rewrite Hs. reflexivity.
  - apply errorSummary_no_bracket, Hno.
Qed.

Lemma no_bracket_diagnostics_witness :
  parseJsonRobust (fun _ => js "SyntaxError") (js "Sorry, I cannot help with that.")
    ExpectObject =
  Throw (Error (js "Failed to parse JSON after 6 attempts. Issue: No object bracket found in response. First error: Strategy 1: No JSON found in response")).
Proof.
  destruct (no_bracket_diagnostics (fun _ => js "SyntaxError")
              (js "Sorry, I cannot help with that.") ExpectObject eq_refl)
    as (_ & H & _).
  exact H.
Defined.

(** A response without any bracket, but with a line feed: the message
    names the control characters, not the missing bracket. *)
Lemma no_bracket_counterexample :
  indexOf (openChar ExpectArray) refusalOnTwoLines = None /\
  exists message,
    parseJsonRobust (fun _ => js "SyntaxError") refusalOnTwoLines ExpectArray =
      Throw (Error message) /\
    message = js "Failed to parse JSON after 6 attempts. Issue: Response contains control characters. First error: Strategy 1: No JSON found in response" /\
    includes (js "bracket found") message = false.
Proof.
  split; [reflexivity|]. eexists. split; [vm_compute; reflexivity|].
  split; [reflexivity | vm_compute; reflexivity].
Qed.

(** ** The scenarios of the documentation, run on the model *)

(** Three keys; the first two requests are answered 429, the third with
    text: the text comes back after three requests and two waits, and the
    first two keys have one error each. *)
Example scenario1_two_rate_limits :
  let env := mkEnv (fun n => match n with
                             | 3%nat => ResponseOk (BodyData (mkGeminiData true None (Some (js "[...]"))))
                             | _ => ResponseNotOk 429 (ErrorText (js "rate limited") None)
                             end)
                   (fun n => Z.of_nat n) in
  let st := snd (setGeminiApiKeys [js "k1"; js "k2"; js "k3"] initialStore) in
  let '(result, st', events) := callGeminiAPI env (js "prompt") st in
  result = Normal (js "[...]")
  /\ events = [EvFetch (js "k1"); EvSleep 10000; EvFetch (js "k2"); EvSleep 10000;
               EvFetch (js "k3")]
  /\ map errorCount (API_KEY_STATES st') = [1; 1; 0]%Z.
Proof. vm_compute. repeat split. Qed.

(** One key that fails three times is inactive; the fourth selection
    resets the pool and returns the same key with [errorCount] 0. *)
Example scenario2_single_key_amnesty :
  let st := runOps [OpSetKeys [js "k1"];
                    OpGetNext 1; OpMarkError 0 (JString (js "503"));
                    OpGetNext 2; OpMarkError 0 (JString (js "503"));
                    OpGetNext 3; OpMarkError 0 (JString (js "503"))] initialStore in
  map isActive (API_KEY_STATES st) = [false]
  /\ getNextGeminiKey 4 st =
       (Normal (js "k1", 0%nat),
        mkKeyStore [mkApiKeyState (js "k1") 4 0 (Some (JString (js "503"))) (Some 4%Z) true] 0).
Proof. vm_compute. repeat split. Qed.

(** The sanitizer on a trailing comma and on a stray escape; the
    unchanged double quote. *)
Example sanitize_trailing_comma :
  sanitizeJsonString (js "[1, 2, ]") = js "[1, 2 ]".
Proof. vm_compute. reflexivity. Qed.

Example sanitize_invalid_escape :
  sanitizeJsonString (js "[\q, \n]") = js "[q, \n]".
Proof. vm_compute. reflexivity. Qed.

Example json_parse_nested :
  JSON_parse (js "{ [1, -2.5e3, true, null] }") = None
  /\ JSON_parse (js " [1, -2.5e3, [true], null] ") =
       Some (JArray [JNumber (js "1"); JNumber (js "-2.5e3");
                     JArray [JBool true]; JNull]).
Proof. vm_compute. repeat split. Qed.

(** * Further properties of the code *)

(** ** Configured keys *)

Lemma trimStart_split s :
  exists w, s = w ++ trimStart s /\ Forall (fun c => isWhiteSpace c = true) w.
Proof.
  induction s as [|c s (w & Hs & Hw)]; simpl.
  - exists []. split; [reflexivity | constructor].
  - destruct (isWhiteSpace c) eqn:Hc.
    + exists (c :: w). split; [simpl; congruence | constructor; assumption].
    + exists []. split; [reflexivity | constructor].
Qed.

Lemma trimStart_head s c r :
  trimStart s = c :: r -> isWhiteSpace c = false.
Proof.
  induction s as [|x s IH]; simpl; [discriminate|].
  destruct (isWhiteSpace x) eqn:Hx; [exact IH|].
  intros [= <- _]. exact Hx.
Qed.

Lemma trimStart_idempotent s : trimStart (trimStart s) = trimStart s.
Proof.
  destruct (trimStart s) as [|c r] eqn:E; [reflexivity|].
  simpl. rewrite (trimStart_head s c r E). reflexivity.
Qed.

(** [trim] has nothing left to strip from its own result. *)
Lemma trim_idempotent s : trim (trim s) = trim s.
Proof.
  unfold trim, trimEnd.
  set (a := trimStart s).
  destruct (trimStart_split (rev a)) as (w & Hw & _).
  set (b := rev (trimStart (rev a))).
  assert (Ha : a = b ++ rev w).
  { subst b. rewrite <- rev_app_distr, <- Hw, rev_involutive. reflexivity. }
  assert (Hb : trimStart b = b).
  { destruct b as [|c b'] eqn:Eb; [reflexivity|].
    simpl. rewrite (trimStart_head s c (b' ++ rev w)); [reflexivity|].
    fold a. rewrite Ha. reflexivity. }
  rewrite Hb. subst b. rewrite rev_involutive, trimStart_idempotent. reflexivity.
Qed.

(** X1.  Whatever a client does, every key of the pool is a trimmed,
    non-empty string: [setGeminiApiKeys] is the only writer of keys and it
    stores the trimmed form of the non-blank ones. *)
Theorem pool_keys_trimmed (ops : list KeyOp) :
  Forall (fun k => key k <> [] /\ trim (key k) = key k)
    (API_KEY_STATES (runOps ops initialStore)).
Proof.
  assert (Hgen : forall ops st,
    cursorInRange st ->
    Forall (fun k => key k <> [] /\ trim (key k) = key k) (API_KEY_STATES st) ->
    Forall (fun k => key k <> [] /\ trim (key k) = key k)
      (API_KEY_STATES (runOps ops st))).
  { clear ops. induction ops as [|op ops IH]; intros st Hin Hall; [exact Hall|].
    simpl. apply IH; [apply cursorInRange_applyOp, Hin|].
    destruct op as [keys | now | i m | i]; simpl.
    - destruct (setGeminiApiKeys_cases keys st) as [[_ ->] | [_ ->]]; simpl;
        [assumption|].
      apply List.Forall_map. unfold validKeys.
      apply Forall_forall. intros s Hs. apply list_elem_of_In, filter_In in Hs as [_ Hs].
      simpl. split; [|apply trim_idempotent].
      destruct (trim s); [discriminate | discriminate].
    - destruct (getNextGeminiKey_cases now st Hin)
        as [[_ ->] | [(j & kj & Hj & _ & ->) | (k & Hk & ->)]]; simpl.
      + assumption.
      + apply Forall_insert; [assumption|].
        exact (Forall_lookup_1 _ _ _ _ Hall Hj).
      + apply Forall_insert.
        * apply List.Forall_map. eapply Forall_impl; [exact Hall|]. auto.
        * exact (Forall_lookup_1 _ _ _ _ Hall Hk).
    - unfold markKeyError. destruct (_ && _); simpl; [|assumption].
      apply Forall_alter_same; [|assumption]. auto.
    - unfold markKeySuccess. destruct (_ && _); simpl; [|assumption].
      apply Forall_alter_same; [|assumption]. auto. }
  apply Hgen; [apply cursorInRange_initialStore | constructor].
Qed.

Lemma validKeys_blank keys :
  Forall (fun k => Forall (fun c => isWhiteSpace c = true) k) keys ->
  validKeys keys = [].
Proof.
  induction 1 as [|k keys Hk _ IH]; [reflexivity|].
  unfold validKeys in *. simpl. rewrite (trim_blank k Hk). simpl. exact IH.
Qed.

Lemma trimStart_nil_blank s :
  trimStart s = [] -> Forall (fun c => isWhiteSpace c = true) s.
Proof.
  induction s as [|c s IH]; [constructor|]. simpl.
  destruct (isWhiteSpace c) eqn:Hc; [|discriminate].
  intros H. constructor; auto.
Qed.

Lemma trim_nil_blank s :
  trim s = [] -> Forall (fun c => isWhiteSpace c = true) s.
Proof.
  unfold trim, trimEnd. intros H.
  apply (f_equal (@rev N)) in H. rewrite rev_involutive in H. simpl in H.
  apply trimStart_nil_blank in H.
  destruct (trimStart_split s) as (w & Hs & Hw). rewrite Hs.
  apply Forall_app. split; [assumption|].
  apply Forall_rev in H. rewrite rev_involutive in H. exact H.
Qed.

Lemma isEmptyString_trim k :
  isEmptyString (trim k) = forallb isWhiteSpace k.
Proof.
  destruct (forallb isWhiteSpace k) eqn:E.
  - assert (H : Forall (fun c => isWhiteSpace c = true) k).
    { apply List.Forall_forall. intros c Hc.
      exact (proj1 (forallb_forall _ _) E c Hc). }
    rewrite (trim_blank k H). reflexivity.
  - destruct (trim k) eqn:Et; [|reflexivity].
    apply trim_nil_blank in Et.
    assert (H : forallb isWhiteSpace k = true).
    { apply forallb_forall. intros c Hc.
      exact (proj1 (List.Forall_forall _ _) Et c Hc). }
    congruence.
Qed.

Lemma validKeys_filter keys :
  validKeys keys = List.filter (fun k => negb (forallb isWhiteSpace k)) keys.
Proof.
  unfold validKeys. induction keys as [|k keys IH]; [reflexivity|].
  simpl. rewrite isEmptyString_trim, IH. reflexivity.
Qed.

Lemma filter_nonblank_length keys :
  (length (List.filter (fun k => negb (forallb isWhiteSpace k)) keys) =? 0)%nat =
  forallb (forallb isWhiteSpace) keys.
Proof.
  induction keys as [|k keys IH]; [reflexivity|].
  simpl. destruct (forallb isWhiteSpace k); simpl; [exact IH | reflexivity].
Qed.

(** X2.  [setGeminiApiKeys] throws, and leaves the store with any pool
    configured before as it was, exactly when every key it is given is
    blank (the empty list included).  Otherwise the pool becomes one fresh
    entry per key that is not blank, in the order given, holding the key
    trimmed, and the cursor goes back to 0. *)
Theorem setGeminiApiKeys_rejects_blank (keys : list jsstring) (st : KeyStore) :
  let blank (k : jsstring) := forallb isWhiteSpace k in
  setGeminiApiKeys keys st =
    if forallb blank keys
    then (Throw (Error (js "No valid API keys provided")), st)
    else (Normal tt,
          mkKeyStore
            (map (fun k => mkApiKeyState (trim k) 0 0 None None true)
               (List.filter (fun k => negb (blank k)) keys))
            0).
Proof.
  intros blank. subst blank. unfold setGeminiApiKeys.
  rewrite validKeys_filter, filter_nonblank_length.
  change (forallb (fun k => forallb isWhiteSpace k) keys)
    with (forallb (forallb isWhiteSpace) keys).
  destruct (forallb (forallb isWhiteSpace) keys); reflexivity.
Qed.

Lemma setGeminiApiKeys_rejects_blank_witness :
  setGeminiApiKeys [js " "; []; [9; 10]]
    (snd (setGeminiApiKeys [js "old-key"] initialStore)) =
    (Throw (Error (js "No valid API keys provided")),
     mkKeyStore [mkApiKeyState (js "old-key") 0 0 None None true] 0)
  /\ setGeminiApiKeys [js " k1 "; js "  "; js "k2"; js "k1"]
       (snd (setGeminiApiKeys [js "old-key"] initialStore)) =
       (Normal tt,
        mkKeyStore [mkApiKeyState (js "k1") 0 0 None None true;
                    mkApiKeyState (js "k2") 0 0 None None true;
                    mkApiKeyState (js "k1") 0 0 None None true] 0).
Proof.
  split; rewrite setGeminiApiKeys_rejects_blank; vm_compute; reflexivity.
Defined.

(** ** Selection skips inactive keys *)

(** The scan stops at the first active key in cyclic order from where
    it starts, or finds every key it passes inactive. *)
Lemma scanKeys_first_active pool n : forall i,
  (i < length pool)%nat ->
  (exists d k,
      (d < n)%nat /\
      scanKeys pool n i = Found ((i + d) mod length pool)%nat k /\
      pool !! ((i + d) mod length pool)%nat = Some k /\ isActive k = true /\
      forall d', (d' < d)%nat ->
        exists k', pool !! ((i + d') mod length pool)%nat = Some k' /\
                   isActive k' = false)
  \/ (scanKeys pool n i = AllInactive /\
      forall d', (d' < n)%nat ->
        exists k', pool !! ((i + d') mod length pool)%nat = Some k' /\
                   isActive k' = false).
Proof.
  induction n as [|n IH]; intros i Hi.
  - right. split; [reflexivity|]. intros d' Hd. lia.
  - simpl. destruct (lookup_lt_is_Some_2 pool i Hi) as [k Hk]. rewrite Hk.
    destruct (isActive k) eqn:Hact.
    + left. exists 0%nat, k. rewrite Nat.add_0_r, Nat.mod_small by assumption.
      split; [lia|]. split; [reflexivity|]. split; [assumption|].
      split; [assumption|]. intros d' Hd. lia.
    + assert (Hi' : ((i + 1) mod length pool < length pool)%nat)
        by (apply Nat.mod_upper_bound; lia).
      assert (Hshift : forall d, (((i + 1) mod length pool + d) mod length pool
                                  = (i + S d) mod length pool)%nat).
      { intros d. rewrite Nat.Div0.add_mod_idemp_l. f_equal. lia. }
      destruct (IH _ Hi') as [(d & kd & Hd & Hscan & Hkd & Hactd & Hbefore) | [Hscan Hall]].
      * left. exists (S d), kd. rewrite Hshift in Hscan, Hkd.
        split; [lia|]. split; [assumption|]. split; [assumption|].
        split; [assumption|].
        intros [|d'] Hd'.
        -- exists k. rewrite Nat.add_0_r, Nat.mod_small by assumption. auto.
        -- destruct (Hbefore d' ltac:(lia)) as (k' & Hk' & Hin).
           rewrite Hshift in Hk'. eauto.
      * right. split; [assumption|]. intros [|d'] Hd'.
        -- exists k. rewrite Nat.add_0_r, Nat.mod_small by assumption. auto.
        -- destruct (Hall d' ltac:(lia)) as (k' & Hk' & Hin).
           rewrite Hshift in Hk'. eauto.
Qed.

(** X3.  While some key is active, [getNextGeminiKey] returns the first
    active key in cyclic order from the cursor: the keys it passes are all
    inactive, nothing is reset, only the returned entry is touched, and the
    cursor moves just past it. *)
Theorem getNextGeminiKey_first_active (now : Z) (st : KeyStore) :
  (currentKeyIndex st < length (API_KEY_STATES st))%nat ->
  (exists i k, API_KEY_STATES st !! i = Some k /\ isActive k = true) ->
  let N := length (API_KEY_STATES st) in
  exists d k,
    (d < N)%nat /\
    API_KEY_STATES st !! ((currentKeyIndex st + d) mod N)%nat = Some k /\
    isActive k = true /\
    (forall d', (d' < d)%nat ->
       exists k', API_KEY_STATES st !! ((currentKeyIndex st + d') mod N)%nat = Some k' /\
                  isActive k' = false) /\
    getNextGeminiKey now st =
      (Normal (key k, ((currentKeyIndex st + d) mod N)%nat),
       mkKeyStore
         (<[((currentKeyIndex st + d) mod N)%nat := useKey now k]> (API_KEY_STATES st))
         (((currentKeyIndex st + d) mod N + 1) mod N)%nat).
Proof.
  intros Hlt (a & ka & Ha & Hacta) N.
  rewrite getNextGeminiKey_body.
  destruct (Nat.eqb_spec (length (API_KEY_STATES st)) 0) as [E|E]; [lia|].
  destruct (scanKeys_first_active (API_KEY_STATES st) (length (API_KEY_STATES st))
              (currentKeyIndex st) Hlt)
    as [(d & k & Hd & Hscan & Hk & Hact & Hbefore) | [Hscan Hall]].
  - exists d, k. rewrite Hscan.
    split; [assumption|]. split; [assumption|]. split; [assumption|].
    split; [assumption | reflexivity].
  - exfalso. pose proof (lookup_lt_Some _ _ _ Ha) as Hlta. fold N in Hlta, Hall, Hlt.
    destruct (Hall ((a + N - currentKeyIndex st) mod N)%nat) as (k' & Hk' & Hinact).
    { apply Nat.mod_upper_bound. lia. }
    rewrite Nat.Div0.add_mod_idemp_r in Hk'.
    replace (currentKeyIndex st + (a + N - currentKeyIndex st))%nat with (a + 1 * N)%nat in Hk'
      by lia.
    rewrite Nat.Div0.mod_add, Nat.mod_small in Hk' by assumption.
    congruence.
Qed.

Lemma getNextGeminiKey_first_active_witness :
  let st := mkKeyStore [mkApiKeyState (js "a") 1 0 None None true;
                        mkApiKeyState (js "b") 3 3 (Some (JString (js "429"))) None false;
                        mkApiKeyState (js "c") 3 3 (Some (JString (js "429"))) None false] 1 in
  exists d k,
    (d < 3)%nat /\
    API_KEY_STATES st !! ((1 + d) mod 3)%nat = Some k /\
    isActive k = true /\
    (forall d', (d' < d)%nat ->
       exists k', API_KEY_STATES st !! ((1 + d') mod 3)%nat = Some k' /\
                  isActive k' = false) /\
    getNextGeminiKey 5 st =
      (Normal (key k, ((1 + d) mod 3)%nat),
       mkKeyStore (<[((1 + d) mod 3)%nat := useKey 5 k]> (API_KEY_STATES st))
         (((1 + d) mod 3 + 1) mod 3)%nat).
Proof.
  intros st. apply (getNextGeminiKey_first_active 5 st).
  - simpl. lia.
  - exists 0%nat, (mkApiKeyState (js "a") 1 0 None None true). split; reflexivity.
Defined.

(** ** Reporting failures and successes *)

Lemma failures_on_entry msgs : forall st i k,
  API_KEY_STATES st !! i = Some k ->
  exists k',
    API_KEY_STATES (fold_left (fun s m => markKeyError (Z.of_nat i) m s) msgs st) !! i
      = Some k' /\
    key k' = key k /\ usageCount k' = usageCount k /\ lastUsedAt k' = lastUsedAt k /\
    errorCount k' = (errorCount k + Z.of_nat (length msgs))%Z /\
    lastError k' = List.last (lastError k :: map Some msgs) None /\
    isActive k' =
      (if (0 <? Z.of_nat (length msgs))%Z
          && (errorCount k + Z.of_nat (length msgs) >=? 3)%Z
       then false else isActive k).
Proof.
  induction msgs as [|m msgs IH]; intros st i k Hk.
  - exists k. simpl. rewrite Z.add_0_r. repeat split; assumption.
  - cbn [fold_left].
    pose proof (markKeyError_selected st i m k Hk) as Hk1.
    destruct (IH (markKeyError (Z.of_nat i) m st) i (failKey m k) Hk1)
      as (k' & Hk' & H1 & H2 & H3 & H4 & H5 & H6).
    exists k'. split; [exact Hk'|]. simpl in *.
    split; [assumption|]. split; [assumption|]. split; [assumption|].
    split; [lia|]. split.
    + rewrite H5. destruct msgs; reflexivity.
    + rewrite H6.
      destruct (Z.ltb_spec 0 (Z.of_nat (length msgs)));
        destruct (Z.ltb_spec 0 (Z.of_nat (S (length msgs)))); try lia;
        destruct (Z.geb_spec (errorCount k + 1 + Z.of_nat (length msgs)) 3);
        destruct (Z.geb_spec (errorCount k + Z.of_nat (S (length msgs))) 3);
        destruct (Z.geb_spec (errorCount k + 1) 3); simpl; try lia; reflexivity.
Qed.

(** X4.  Three strikes in a row.  After a success reported for a valid
    index, [n] failures reported for it without a success in between leave
    its [errorCount] at [n] and its [lastError] at the last message; the
    key keeps the activity it had while [n < 3] and is inactive from the
    third failure on.  The success itself does not reactivate a key. *)
Theorem three_strikes_in_a_row (st : KeyStore) (i : nat) (k : ApiKeyState)
    (msgs : list JsonValue) :
  API_KEY_STATES st !! i = Some k ->
  let st0 := markKeySuccess (Z.of_nat i) st in
  let st' := fold_left (fun s m => markKeyError (Z.of_nat i) m s) msgs st0 in
  API_KEY_STATES st0 !! i =
    Some (mkApiKeyState (key k) (usageCount k) 0 None (lastUsedAt k) (isActive k))
  /\ API_KEY_STATES st' !! i =
       Some (mkApiKeyState (key k) (usageCount k) (Z.of_nat (length msgs))
               (List.last (None :: map Some msgs) None) (lastUsedAt k)
               (if (3 <=? length msgs)%nat then false else isActive k)).
Proof.
  intros Hk st0 st'.
  assert (H0 : API_KEY_STATES st0 !! i = Some (succeedKey k)).
  { subst st0. rewrite (markKeySuccess_lookup st (Z.of_nat i) k); simpl;
      rewrite ?Nat2Z.id; try lia; try assumption.
    apply list_lookup_insert_eq. eapply lookup_lt_Some; eauto. }
  split; [exact H0|].
  destruct (failures_on_entry msgs st0 i (succeedKey k) H0)
    as (k' & Hk' & H1 & H2 & H3 & H4 & H5 & H6).
  fold st' in Hk'. rewrite Hk'. f_equal.
  assert (Hact : (if (0 <? Z.of_nat (length msgs))%Z
                     && (0 + Z.of_nat (length msgs) >=? 3)%Z
                  then false else isActive k)
                 = (if (3 <=? length msgs)%nat then false else isActive k)).
  { destruct (Nat.leb_spec 3 (length msgs));
      destruct (Z.ltb_spec 0 (Z.of_nat (length msgs)));
      destruct (Z.geb_spec (0 + Z.of_nat (length msgs)) 3);
      cbn [andb]; try lia; reflexivity. }
  destruct k' as [ky us er le lu ac]. cbn [key usageCount errorCount lastError
    lastUsedAt isActive succeedKey] in *. subst.
  rewrite Hact. reflexivity.
Qed.

Lemma three_strikes_in_a_row_witness :
  let st := snd (setGeminiApiKeys [js "k1"; js "k2"] initialStore) in
  API_KEY_STATES
    (fold_left (fun s m => markKeyError 1 m s) [JString (js "e1"); JString (js "e2"); JString (js "e3")]
       (markKeySuccess 1 st)) !! 1%nat =
  Some (mkApiKeyState (js "k2") 0 3 (Some (JString (js "e3"))) None false).
Proof.
  intros st.
  exact (proj2 (three_strikes_in_a_row st 1 (mkApiKeyState (js "k2") 0 0 None None true)
                  [JString (js "e1"); JString (js "e2"); JString (js "e3")] eq_refl)).
Defined.

(** X5.  [markKeyError] and [markKeySuccess] guard their index: a
    negative index or one at or beyond the pool size changes nothing; a
    valid index changes that entry only, and neither moves the cursor nor
    resizes the pool. *)
Theorem mark_bounds_and_frame (st : KeyStore) (keyIndex : Z) (m : JsonValue) :
  ((keyIndex < 0 \/ Z.of_nat (length (API_KEY_STATES st)) <= keyIndex)%Z ->
   markKeyError keyIndex m st = st /\ markKeySuccess keyIndex st = st)
  /\ (forall j, Z.of_nat j <> keyIndex ->
        API_KEY_STATES (markKeyError keyIndex m st) !! j = API_KEY_STATES st !! j /\
        API_KEY_STATES (markKeySuccess keyIndex st) !! j = API_KEY_STATES st !! j)
  /\ currentKeyIndex (markKeyError keyIndex m st) = currentKeyIndex st
  /\ currentKeyIndex (markKeySuccess keyIndex st) = currentKeyIndex st
  /\ length (API_KEY_STATES (markKeyError keyIndex m st)) = length (API_KEY_STATES st)
  /\ length (API_KEY_STATES (markKeySuccess keyIndex st)) = length (API_KEY_STATES st).
Proof.
  repeat apply conj.
  - intros Hout. unfold markKeyError, markKeySuccess.
    destruct (Z.geb_spec keyIndex 0);
      destruct (Z.ltb_spec keyIndex (Z.of_nat (length (API_KEY_STATES st))));
      simpl; try lia; split; reflexivity.
  - intros j Hj. unfold markKeyError, markKeySuccess.
    destruct (Z.geb_spec keyIndex 0); simpl; [|split; reflexivity].
    destruct (_ <? _)%Z; simpl; [|split; reflexivity].
    rewrite !list_lookup_alter_ne by lia. split; reflexivity.
  - apply currentKeyIndex_markKeyError.
  - apply currentKeyIndex_markKeySuccess.
  - apply length_markKeyError.
  - apply length_markKeySuccess.
Qed.

Lemma mark_bounds_and_frame_witness :
  let st := snd (setGeminiApiKeys [js "k1"; js "k2"] initialStore) in
  markKeyError 2 (JString (js "late")) st = st /\ markKeySuccess (-1) st = st.
Proof.
  intros st. split.
  - apply (proj1 (mark_bounds_and_frame st 2 (JString (js "late")))). right. simpl. lia.
  - apply (proj1 (mark_bounds_and_frame st (-1) JNull)). left. lia.
Defined.

(** ** What the operations keep *)

Lemma map_key_alter f i (pool : list ApiKeyState) :
  (forall k, key (f k) = key k) -> map key (alter f i pool) = map key pool.
Proof.
  intros Hf. apply list_eq. intros j.
  change (map key) with (fmap (M:=list) key). rewrite !list_lookup_fmap.
  destruct (decide (i = j)) as [->|Hne].
  - rewrite list_lookup_alter_eq. destruct (pool !! j); simpl; [rewrite Hf|]; reflexivity.
  - rewrite list_lookup_alter_ne by assumption. reflexivity.
Qed.

Lemma map_key_applyOp st op :
  cursorInRange st ->
  (forall keys, op <> OpSetKeys keys) ->
  map key (API_KEY_STATES (applyOp st op)) = map key (API_KEY_STATES st).
Proof.
  intros Hin Hop. destruct op as [keys | now | i m | i]; simpl.
  - contradiction (Hop keys). reflexivity.
  - destruct (getNextGeminiKey_cases now st Hin)
      as [[_ ->] | [(j & kj & Hj & _ & ->) | (k & Hk & ->)]]; simpl.
    + reflexivity.
    + apply (map_insert_same key _ _ _ kj); [assumption | reflexivity].
    + rewrite (map_insert_same key _ _ _ (resetKey k)).
      * rewrite map_map. reflexivity.
      * rewrite list_lookup_fmap, Hk. reflexivity.
      * reflexivity.
  - unfold markKeyError. destruct (_ && _); simpl; [|reflexivity].
    apply map_key_alter. reflexivity.
  - unfold markKeySuccess. destruct (_ && _); simpl; [|reflexivity].
    apply map_key_alter. reflexivity.
Qed.

(** X6.  Only [setGeminiApiKeys] writes keys: from any reachable store,
    no sequence of selections, failure reports and success reports (the
    reset on exhaustion included) changes the keys of the pool, their
    order or their number. *)
Theorem pool_keys_fixed (before ops : list KeyOp) :
  Forall (fun op => forall keys, op <> OpSetKeys keys) ops ->
  let st := runOps before initialStore in
  map key (API_KEY_STATES (runOps ops st)) = map key (API_KEY_STATES st).
Proof.
  intros Hops st.
  assert (Hin : cursorInRange st)
    by apply cursorInRange_runOps, cursorInRange_initialStore.
  clearbody st. revert st Hin.
  induction Hops as [|op ops Hop _ IH]; intros st Hin; [reflexivity|].
  simpl. rewrite IH by (apply cursorInRange_applyOp, Hin).
  apply map_key_applyOp; assumption.
Qed.

Lemma pool_keys_fixed_witness :
  map key
    (API_KEY_STATES
       (runOps [OpMarkError 0 (JString (js "e")); OpMarkError 0 (JString (js "e")); OpMarkError 0 (JString (js "e"));
                OpGetNext 1; OpGetNext 2; OpMarkSuccess 1]
          (runOps [OpSetKeys [js "k1"; js "k2"]] initialStore))) =
  [js "k1"; js "k2"].
Proof.
  apply (pool_keys_fixed [OpSetKeys [js "k1"; js "k2"]]).
  repeat constructor; discriminate.
Defined.

Lemma consistentKey_useKey now k : consistentKey k -> consistentKey (useKey now k).
Proof.
  unfold consistentKey; simpl. intros (H1 & H2 & H3 & H4).
  repeat split; try lia; try discriminate; auto.
Qed.

Lemma consistentKey_resetKey k : consistentKey k -> consistentKey (resetKey k).
Proof.
  unfold consistentKey; simpl. intros (H1 & H2 & H3 & H4).
  repeat split; try lia; try tauto.
Qed.

Lemma consistentKey_failKey m k : consistentKey k -> consistentKey (failKey m k).
Proof.
  unfold consistentKey; simpl. intros (H1 & H2 & H3 & H4).
  repeat split; try lia; try tauto; try discriminate.
Qed.

Lemma consistentKey_succeedKey k : consistentKey k -> consistentKey (succeedKey k).
Proof.
  unfold consistentKey; simpl. intros (H1 & H2 & H3 & H4).
  repeat split; try lia; try tauto.
Qed.

Lemma consistent_applyOp st op :
  cursorInRange st ->
  Forall consistentKey (API_KEY_STATES st) ->
  Forall consistentKey (API_KEY_STATES (applyOp st op)).
Proof.
  intros Hin Hall. destruct op as [keys | now | i m | i]; simpl.
  - destruct (setGeminiApiKeys_cases keys st) as [[_ ->] | [_ ->]]; simpl; [assumption|].
    apply List.Forall_map, Forall_true. intros k.
    unfold consistentKey; simpl. repeat split; try lia; reflexivity.
  - destruct (getNextGeminiKey_cases now st Hin)
      as [[_ ->] | [(j & kj & Hj & _ & ->) | (k & Hk & ->)]]; simpl.
    + assumption.
    + apply Forall_insert; [assumption|].
      apply consistentKey_useKey. eapply Forall_lookup_1; eauto.
    + apply Forall_insert.
      * apply List.Forall_map. eapply Forall_impl; [exact Hall|].
        apply consistentKey_resetKey.
      * apply consistentKey_useKey, consistentKey_resetKey.
        eapply Forall_lookup_1; eauto.
  - unfold markKeyError. destruct (_ && _); simpl; [|assumption].
    apply Forall_alter_same; [|assumption]. apply consistentKey_failKey.
  - unfold markKeySuccess. destruct (_ && _); simpl; [|assumption].
    apply Forall_alter_same; [|assumption]. apply consistentKey_succeedKey.
Qed.

Lemma consistent_reachable (ops : list KeyOp) :
  Forall consistentKey (API_KEY_STATES (runOps ops initialStore)).
Proof.
  assert (Hgen : forall ops st, cursorInRange st ->
            Forall consistentKey (API_KEY_STATES st) ->
            Forall consistentKey (API_KEY_STATES (runOps ops st))).
  { clear ops. induction ops as [|op ops IH]; intros st Hin Hall; [exact Hall|].
    simpl. apply IH; [apply cursorInRange_applyOp | apply consistent_applyOp]; assumption. }
  apply Hgen; [apply cursorInRange_initialStore | constructor].
Qed.

(** X7.  In every reachable store the counters are not negative, a key
    has a time of last use exactly when it has been selected at least once,
    and a key without a recorded error message has no strikes. *)
Theorem counters_consistent (ops : list KeyOp) :
  Forall (fun k =>
            (0 <= usageCount k)%Z /\ (0 <= errorCount k)%Z /\
            (usageCount k = 0%Z <-> lastUsedAt k = None) /\
            (lastError k = None -> errorCount k = 0%Z))
    (API_KEY_STATES (runOps ops initialStore)).
Proof.
  change (Forall consistentKey (API_KEY_STATES (runOps ops initialStore))).
  assert (Hstep : forall st op, cursorInRange st ->
            Forall consistentKey (API_KEY_STATES st) ->
            Forall consistentKey (API_KEY_STATES (applyOp st op)))
    by (intros; apply consistent_applyOp; assumption).
  unfold runOps.
  assert (H0 : cursorInRange initialStore /\
               Forall consistentKey (API_KEY_STATES initialStore))
    by (split; [apply cursorInRange_initialStore | constructor]).
  revert H0. generalize initialStore.
  induction ops as [|op ops IH]; intros st [Hin Hall]; [exact Hall|].
  simpl. apply IH. split.
  - apply cursorInRange_applyOp, Hin.
  - apply Hstep; assumption.
Qed.

(** X8.  [getApiKeyStats] gives one entry per key, in pool order, numbered
    from 1, with the key's counters, message and activity; in a reachable
    store a key that was never selected shows [Never]. *)
Theorem stats_snapshot (toLocaleString : Z -> jsstring) (ops : list KeyOp) :
  let st := runOps ops initialStore in
  length (getApiKeyStats toLocaleString st) = length (API_KEY_STATES st)
  /\ forall i k,
       API_KEY_STATES st !! i = Some k ->
       exists s,
         getApiKeyStats toLocaleString st !! i = Some s /\
         stat_index s = (i + 1)%nat /\
         stat_usageCount s = usageCount k /\ stat_errorCount s = errorCount k /\
         stat_lastError s = lastError k /\ stat_isActive s = isActive k /\
         (usageCount k = 0%Z -> stat_lastUsedAt s = js "Never").
Proof.
  intros st. unfold getApiKeyStats. split; [apply length_imap|].
  intros i k Hk. rewrite list_lookup_imap, Hk. simpl. eexists. split; [reflexivity|].
  simpl. repeat split.
  intros Hu.
  pose proof (Forall_lookup_1 _ _ _ _ (consistent_reachable ops) Hk) as (_ & _ & H & _).
  rewrite (proj1 H Hu). reflexivity.
Qed.

Lemma stats_snapshot_witness :
  exists s,
    getApiKeyStats (fun _ => js "a date")
      (runOps [OpSetKeys [js "k1"; js "k2"]; OpGetNext 77] initialStore) !! 1%nat
      = Some s /\
    stat_index s = 2%nat /\ stat_lastUsedAt s = js "Never".
Proof.
  destruct (stats_snapshot (fun _ => js "a date")
              [OpSetKeys [js "k1"; js "k2"]; OpGetNext 77]) as [_ H].
  destruct (H 1%nat (mkApiKeyState (js "k2") 0 0 None None true) eq_refl)
    as (s & Hs & Hi & _ & _ & _ & _ & Hn).
  exists s. split; [exact Hs|]. split; [exact Hi | apply Hn; reflexivity].
Defined.

(** ** More on the retry loop *)

Lemma includesOf_None needle errorMessage :
  includesOf needle errorMessage = None <-> hasIncludes errorMessage = false.
Proof. destruct errorMessage; simpl; split; congruence. Qed.

Lemma notOkBranch_cases max a status keyIndex errorMessage notAFunction st :
  let st' := markKeyError keyIndex errorMessage st in
  exists st2 tail,
    notOkBranch max a status keyIndex errorMessage notAFunction st =
      (Continue, st2, tail) /\
    (st2 = st' \/ st2 = markKeyError keyIndex (JString notAFunction) st') /\
    (tail = [] \/ tail = [EvSleep 10000]) /\
    ((a < max)%nat ->
     ~ ((status = 400)%Z /\
        includesOf (js "API key not valid") errorMessage = Some true) ->
     tail = [EvSleep 10000]) /\
    (((status =? 403)%Z || (status =? 400)%Z) && negb (hasIncludes errorMessage) = false ->
     st2 = st').
Proof.
  intros st'. unfold notOkBranch. fold st'.
  assert (Hcatch : exists tail,
    catchBlock max a keyIndex notAFunction st' =
      (Continue, markKeyError keyIndex (JString notAFunction) st', tail) /\
    (tail = [] \/ tail = [EvSleep 10000]) /\
    ((a < max)%nat -> tail = [EvSleep 10000])).
  { unfold catchBlock. destruct (Nat.ltb_spec a max).
    - eexists. split; [reflexivity|]. split; [right; reflexivity | reflexivity].
    - eexists. split; [reflexivity|]. split; [left; reflexivity | lia]. }
  destruct Hcatch as (ctail & Ec & Hc1 & Hc2).
  unfold statusAndIncludes.
  destruct (Z.eqb_spec status 403) as [-> | H403].
  - change (403 =? 400)%Z with false. cbn [orb].
    destruct (includesOf (js "unregistered callers") errorMessage) as [[|]|] eqn:Hinc.
    + eexists _, _. split; [reflexivity|]. split; [left; reflexivity|].
      split; [right; reflexivity|]. split; [reflexivity | reflexivity].
    + eexists _, _. split; [reflexivity|]. split; [left; reflexivity|].
      split; [right; reflexivity|]. split; [reflexivity | reflexivity].
    + rewrite Ec. eexists _, _. split; [reflexivity|]. split; [right; reflexivity|].
      split; [exact Hc1|]. split; [intros Ha _; exact (Hc2 Ha)|].
      apply includesOf_None in Hinc. rewrite Hinc. discriminate.
  - destruct (Z.eqb_spec status 400) as [-> | H400]; cbn [orb andb].
    + destruct (includesOf (js "API key not valid") errorMessage) as [[|]|] eqn:Hinc.
      * eexists _, _. split; [reflexivity|]. split; [left; reflexivity|].
        split; [left; reflexivity|]. split; [|reflexivity].
        intros _ Hno. contradiction Hno. split; reflexivity.
      * eexists _, _. split; [reflexivity|]. split; [left; reflexivity|].
        split; [right; reflexivity|]. split; reflexivity.
      * rewrite Ec. eexists _, _. split; [reflexivity|]. split; [right; reflexivity|].
        split; [exact Hc1|]. split; [intros Ha _; exact (Hc2 Ha)|].
        apply includesOf_None in Hinc. rewrite Hinc. discriminate.
    + destruct (_ || _); eexists _, _;
        (split; [reflexivity|]; split; [left; reflexivity|];
         split; [right; reflexivity|]; split; reflexivity).
Qed.

(** One iteration on a usable store, with the stores in between: the
    selection, then either the success report and the return, or the
    failure reported against the selected key, once or (when [includes]
    throws) twice, with or without a wait. *)
Lemma attemptBody_cases env max a st :
  usable st ->
  exists apiKey keyIndex st1 k,
    getNextGeminiKey (clock env a) st = (Normal (apiKey, keyIndex), st1) /\
    usable st1 /\
    API_KEY_STATES st1 !! keyIndex = Some k /\ key k = apiKey /\
    ((exists t,
        extractableText (outcome env a) = Some t /\
        attemptBody env max a st =
          (Return t, markKeySuccess (Z.of_nat keyIndex) st1, [EvFetch apiKey]))
     \/ (extractableText (outcome env a) = None /\
         exists m st2 tail,
           attemptBody env max a st = (Continue, st2, EvFetch apiKey :: tail) /\
           (st2 = markKeyError (Z.of_nat keyIndex) m st1 \/
            exists m', st2 = markKeyError (Z.of_nat keyIndex) m'
                               (markKeyError (Z.of_nat keyIndex) m st1)) /\
           (tail = [] \/ tail = [EvSleep 10000]) /\
           ((a < max)%nat -> credentialInvalid (outcome env a) = None ->
            tail = [EvSleep 10000]) /\
           (reportsTwice (outcome env a) = false ->
            st2 = markKeyError (Z.of_nat keyIndex) m st1))).
Proof.
  intros Hu.
  destruct (getNextGeminiKey_usable (clock env a) st Hu)
    as (apiKey & keyIndex & st1 & k & Hsel & Hu1 & _ & Hk & Hkey).
  exists apiKey, keyIndex, st1, k.
  split; [exact Hsel|]. split; [exact Hu1|]. split; [exact Hk|]. split; [exact Hkey|].
  unfold attemptBody. rewrite Hsel.
  set (ki := Z.of_nat keyIndex).
  assert (Hcatch : forall m,
    exists tail,
      catchBlock max a ki m st1 = (Continue, markKeyError ki (JString m) st1, tail) /\
      (tail = [] \/ tail = [EvSleep 10000]) /\
      ((a < max)%nat -> tail = [EvSleep 10000])).
  { intros m. unfold catchBlock. destruct (Nat.ltb_spec a max).
    - eexists. split; [reflexivity|]. split; [right; reflexivity | reflexivity].
    - eexists. split; [reflexivity|]. split; [left; reflexivity | lia]. }
  assert (Hnot : forall status body errorMessage notAFunction,
    errorMessageRead body = Some errorMessage ->
    extractableText (ResponseNotOk status body) = None /\
    exists m st2 tail,
      (let '(step, st2, events) :=
         notOkBranch max a status ki errorMessage notAFunction st1 in
       (step, st2, EvFetch apiKey :: events)) = (Continue, st2, EvFetch apiKey :: tail) /\
      (st2 = markKeyError ki m st1 \/
       exists m', st2 = markKeyError ki m' (markKeyError ki m st1)) /\
      (tail = [] \/ tail = [EvSleep 10000]) /\
      ((a < max)%nat -> credentialInvalid (ResponseNotOk status body) = None ->
       tail = [EvSleep 10000]) /\
      (reportsTwice (ResponseNotOk status body) = false ->
       st2 = markKeyError ki m st1)).
  { intros status body errorMessage notAFunction Hbody. split; [reflexivity|].
    destruct (notOkBranch_cases max a status ki errorMessage notAFunction st1)
      as (st2 & tail & -> & Hst & Htail & Hwait & Honce).
    exists errorMessage, st2, tail. split; [reflexivity|].
    split; [destruct Hst as [-> | ->]; [left; reflexivity | right; eexists; reflexivity]|].
    split; [exact Htail|]. split.
    - intros Ha Hci. apply Hwait; [exact Ha|].
      intros [-> Hinc]. unfold credentialInvalid in Hci. rewrite Hbody in Hci.
      simpl in Hci. rewrite Hinc in Hci. discriminate.
    - unfold reportsTwice. rewrite Hbody. exact Honce. }
  destruct (outcome env a)
    as [m | status [m | errorText parsed | errorText parsed notAFunction] | [m | data]];
    cbv beta iota.
  - right. split; [reflexivity|]. destruct (Hcatch m) as (tail & -> & H1 & H2).
    eexists (JString m), _, tail.
    split; [reflexivity|]. split; [left; reflexivity|]. auto.
  - right. split; [reflexivity|]. destruct (Hcatch m) as (tail & -> & H1 & H2).
    eexists (JString m), _, tail.
    split; [reflexivity|]. split; [left; reflexivity|]. auto.
  - right. exact (Hnot status (ErrorText errorText parsed) _ [] eq_refl).
  - right. exact (Hnot status (ErrorValue errorText parsed notAFunction) _
                    notAFunction eq_refl).
  - right. split; [reflexivity|]. destruct (Hcatch m) as (tail & -> & H1 & H2).
    eexists (JString m), _, tail.
    split; [reflexivity|]. split; [left; reflexivity|]. auto.
  - unfold okBranch, extractableText, credentialInvalid.
    destruct (hasContent data); cbn [negb andb].
    + destruct (truthy (partText data)) eqn:Htext; cbn [negb].
      * left. destruct (partText data) as [t|]; [|discriminate].
        exists t. split; reflexivity.
      * right. split; [reflexivity|].
        eexists (JString (js "No text content in response")), _, [EvSleep 10000].
        split; [reflexivity|]. split; [left; reflexivity|]. auto.
    + right. split; [reflexivity|]. destruct (truthy (blockReason data)).
      * destruct (Hcatch (js "Content blocked by Gemini: " ++ default [] (blockReason data)))
          as (tail & -> & H1 & H2).
        eexists _, _, tail.
        split; [reflexivity|]. split; [left; reflexivity|]. auto.
      * eexists (JString (js "Invalid response structure")), _, [EvSleep 10000].
        split; [reflexivity|]. split; [left; reflexivity|]. auto.
Qed.

(** A property of stores that selection and both reports keep holds
    after the whole loop. *)
Lemma retryLoop_preserves (P : KeyStore -> Prop) env max :
  (forall now st, usable st -> P st -> P (snd (getNextGeminiKey now st))) ->
  (forall i m st, P st -> P (markKeyError i m st)) ->
  (forall i st, P st -> P (markKeySuccess i st)) ->
  forall remaining a st,
    usable st -> P st ->
    P (snd (fst (retryLoop env max remaining a st))).
Proof.
  intros Hsel Herr Hok. induction remaining as [|r IH]; intros a st Hu HP; [exact HP|].
  cbn [retryLoop].
  destruct (attemptBody_cases env max (S a) st Hu)
    as (apiKey & keyIndex & st1 & k & Hs & Hu1 & _ & _ & Hcase).
  pose proof (Hsel (clock env (S a)) st Hu HP) as HP1. rewrite Hs in HP1. simpl in HP1.
  destruct Hcase as [(t & _ & ->) | (_ & m & st2 & tail & -> & Hst & _)].
  - simpl. apply Hok, HP1.
  - assert (H2 : usable st2 /\ P st2).
    { destruct Hst as [-> | [m' ->]]; split;
        repeat apply usable_markKeyError; repeat apply Herr; assumption. }
    specialize (IH (S a) st2 (proj1 H2) (proj2 H2)).
    destruct (retryLoop env max r (S a) _) as [[? ?] ?]. exact IH.
Qed.

Lemma totalUsage_app l1 l2 :
  totalUsage (l1 ++ l2) = (totalUsage l1 + totalUsage l2)%Z.
Proof.
  unfold totalUsage. induction l1 as [|k l1 IH]; simpl; [reflexivity|].
  rewrite IH. lia.
Qed.

Lemma totalUsage_insert (pool : list ApiKeyState) : forall i x y,
  pool !! i = Some y ->
  totalUsage (<[i := x]> pool) = (totalUsage pool - usageCount y + usageCount x)%Z.
Proof.
  induction pool as [|k pool IH]; intros i x y Hy; [discriminate|].
  destruct i as [|i]; simpl in *.
  - injection Hy as ->. unfold totalUsage. simpl. lia.
  - specialize (IH i x y Hy). unfold totalUsage in *. simpl. lia.
Qed.

Lemma totalUsage_resetKey pool :
  totalUsage (map resetKey pool) = totalUsage pool.
Proof.
  unfold totalUsage. induction pool as [|k pool IH]; simpl; [reflexivity|].
  rewrite IH. reflexivity.
Qed.

Lemma totalUsage_alter f i (pool : list ApiKeyState) :
  (forall k, usageCount (f k) = usageCount k) ->
  totalUsage (alter f i pool) = totalUsage pool.
Proof.
  intros Hf. unfold totalUsage. f_equal. apply list_eq. intros j.
  change (map usageCount) with (fmap (M:=list) usageCount). rewrite !list_lookup_fmap.
  destruct (decide (i = j)) as [->|Hne].
  - rewrite list_lookup_alter_eq. destruct (pool !! j); simpl; [rewrite Hf|]; reflexivity.
  - rewrite list_lookup_alter_ne by assumption. reflexivity.
Qed.

Lemma totalUsage_markKeyError i m st :
  totalUsage (API_KEY_STATES (markKeyError i m st)) = totalUsage (API_KEY_STATES st).
Proof.
  unfold markKeyError. destruct (_ && _); simpl; [|reflexivity].
  apply totalUsage_alter. reflexivity.
Qed.

Lemma totalUsage_markKeySuccess i st :
  totalUsage (API_KEY_STATES (markKeySuccess i st)) = totalUsage (API_KEY_STATES st).
Proof.
  unfold markKeySuccess. destruct (_ && _); simpl; [|reflexivity].
  apply totalUsage_alter. reflexivity.
Qed.

Lemma map_key_markKeyError i m st :
  map key (API_KEY_STATES (markKeyError i m st)) = map key (API_KEY_STATES st).
Proof.
  unfold markKeyError. destruct (_ && _); simpl; [|reflexivity].
  apply map_key_alter. reflexivity.
Qed.

Lemma map_key_markKeySuccess i st :
  map key (API_KEY_STATES (markKeySuccess i st)) = map key (API_KEY_STATES st).
Proof.
  unfold markKeySuccess. destruct (_ && _); simpl; [|reflexivity].
  apply map_key_alter. reflexivity.
Qed.

(** The selection on a usable store: the entry it returns is active and
    stamped, the keys stay, the usage grows by one. *)
Lemma getNextGeminiKey_selected now st :
  usable st ->
  exists apiKey keyIndex st1 k,
    getNextGeminiKey now st = (Normal (apiKey, keyIndex), st1) /\
    API_KEY_STATES st1 !! keyIndex = Some k /\ key k = apiKey /\
    isActive k = true /\ lastUsedAt k = Some now /\
    map key (API_KEY_STATES st1) = map key (API_KEY_STATES st) /\
    totalUsage (API_KEY_STATES st1) = (totalUsage (API_KEY_STATES st) + 1)%Z.
Proof.
  intros [Hin Hne].
  pose proof (map_key_applyOp st (OpGetNext now) Hin ltac:(discriminate)) as Hkeys.
  simpl in Hkeys.
  destruct (getNextGeminiKey_cases now st Hin)
    as [[Hnil _] | [(j & kj & Hj & Hact & E) | (k & Hk & E)]]; [congruence| |];
    rewrite E in Hkeys |- *; simpl in Hkeys.
  - eexists (key kj), j, _, (useKey now kj). split; [reflexivity|]. simpl.
    split; [apply list_lookup_insert_eq; eapply lookup_lt_Some; eauto|].
    repeat split; try assumption.
    rewrite (totalUsage_insert _ _ _ kj Hj). simpl. lia.
  - eexists (key k), (currentKeyIndex st), _, (useKey now (resetKey k)).
    split; [reflexivity|]. simpl.
    assert (Hk' : map resetKey (API_KEY_STATES st) !! currentKeyIndex st = Some (resetKey k))
      by (rewrite list_lookup_fmap, Hk; reflexivity).
    split; [apply list_lookup_insert_eq; eapply lookup_lt_Some; eauto|].
    repeat split; try assumption.
    rewrite (totalUsage_insert _ _ _ (resetKey k) Hk'). simpl.
    rewrite totalUsage_resetKey. lia.
Qed.

Lemma fetchCount_cons_fetch k ev : fetchCount (EvFetch k :: ev) = S (fetchCount ev).
Proof. reflexivity. Qed.

Lemma sleepCount_cons_fetch k ev : sleepCount (EvFetch k :: ev) = sleepCount ev.
Proof. reflexivity. Qed.

Lemma sleepCount_app ev ev' :
  sleepCount (ev ++ ev') = (sleepCount ev + sleepCount ev')%nat.
Proof. unfold sleepCount. rewrite List.filter_app, length_app. reflexivity. Qed.

Lemma retryLoop_accounts env max remaining : forall a st,
  usable st ->
  forall result st' events,
    retryLoop env max remaining a st = (result, st', events) ->
    map key (API_KEY_STATES st') = map key (API_KEY_STATES st) /\
    Forall (eventFrom (map key (API_KEY_STATES st))) events /\
    (sleepCount events <= fetchCount events)%nat /\
    totalUsage (API_KEY_STATES st') =
      (totalUsage (API_KEY_STATES st) + Z.of_nat (fetchCount events))%Z.
Proof.
  induction remaining as [|r IH]; intros a st Hu result st' events E.
  - simpl in E. injection E as <- <- <-.
    split; [reflexivity|]. split; [constructor|].
    split; [reflexivity | unfold fetchCount; simpl; lia].
  - cbn [retryLoop] in E.
    destruct (attemptBody_cases env max (S a) st Hu)
      as (apiKey & keyIndex & st1 & k & Hs & Hu1 & Hk & Hkey & Hcase).
    destruct (getNextGeminiKey_selected (clock env (S a)) st Hu)
      as (apiKey' & keyIndex' & st1' & k' & Hs' & Hk' & _ & _ & _ & Hkeys & Huse).
    rewrite Hs in Hs'. injection Hs' as <- <- <-.
    assert (Hin : In apiKey (map key (API_KEY_STATES st))).
    { rewrite <- Hkeys, <- Hkey. apply in_map.
      apply list_elem_of_In. eapply list_elem_of_lookup_2; eauto. }
    destruct Hcase as [(t & _ & Eb) | (_ & m & sf & tail & Eb & Hst & Htail & _)];
      rewrite Eb in E.
    + injection E as <- <- <-.
      rewrite map_key_markKeySuccess, totalUsage_markKeySuccess, Huse.
      split; [assumption|]. split; [|split].
      * repeat constructor. exact Hin.
      * unfold sleepCount, fetchCount. simpl. lia.
      * unfold fetchCount. simpl. lia.
    + assert (Hsf : usable sf /\
                    map key (API_KEY_STATES sf) = map key (API_KEY_STATES st1) /\
                    totalUsage (API_KEY_STATES sf) = totalUsage (API_KEY_STATES st1)).
      { destruct Hst as [-> | [m' ->]];
          rewrite ?map_key_markKeyError, ?totalUsage_markKeyError;
          (split; [repeat apply usable_markKeyError; exact Hu1 | split; reflexivity]). }
      destruct Hsf as (Husf & Hksf & Htsf).
      destruct (retryLoop env max r (S a) sf) as [[res2 st2] ev2] eqn:E2.
      injection E as <- <- <-.
      destruct (IH (S a) _ Husf _ _ _ E2) as (Hk2 & Hev2 & Hsl2 & Hus2).
      rewrite Hksf in Hk2, Hev2.
      rewrite Htsf in Hus2.
      rewrite Hkeys in Hk2, Hev2.
      split; [exact Hk2|]. split; [|split].
      * constructor; [exact Hin|]. apply Forall_app. split; [|exact Hev2].
        destruct Htail as [-> | ->]; repeat constructor.
      * cbn [app]. rewrite sleepCount_cons_fetch, fetchCount_cons_fetch,
          sleepCount_app, fetchCount_app.
        destruct Htail as [-> | ->]; unfold sleepCount, fetchCount in *; simpl; lia.
      * cbn [app]. rewrite fetchCount_cons_fetch, fetchCount_app, Hus2, Huse.
        destruct Htail as [-> | ->]; unfold fetchCount; simpl; lia.
Qed.

Lemma callGeminiAPI_cases env prompt st :
  callGeminiAPI env prompt st = (Throw (Error promptEmptyMessage), st, [])
  \/ callGeminiAPI env prompt st =
       retryLoop env (length (API_KEY_STATES st) * 3) (length (API_KEY_STATES st) * 3) 0 st.
Proof.
  destruct (decide (trim prompt = [])) as [Hb | Hp].
  - left. apply callGeminiAPI_blank, Hb.
  - right. apply callGeminiAPI_nonblank, Hp.
Qed.

(** X9.  A call never sends a key that is not in the pool, never waits
    for anything but 10000 ms, never waits more often than it requests, and
    leaves the keys of the pool, their order and their number as they
    were. *)
Theorem call_trace_shape (env : Env) (prompt : jsstring) (ops : list KeyOp) :
  let st := runOps ops initialStore in
  let run := callGeminiAPI env prompt st in
  Forall (fun e => match e with
                   | EvFetch apiKey => In apiKey (map key (API_KEY_STATES st))
                   | EvSleep ms => ms = 10000%Z
                   end) (snd run)
  /\ (sleepCount (snd run) <= fetchCount (snd run))%nat
  /\ map key (API_KEY_STATES (snd (fst run))) = map key (API_KEY_STATES st).
Proof.
  intros st run. subst run.
  destruct (callGeminiAPI env prompt st) as [[result st'] events] eqn:E. simpl.
  destruct (callGeminiAPI_cases env prompt st) as [Hb | Hl]; rewrite E in *.
  - injection Hb as -> -> ->.
    split; [constructor|]. split; reflexivity.
  - destruct (decide (API_KEY_STATES st = [])) as [Hnil | Hne].
    + rewrite Hnil in Hl. simpl in Hl. injection Hl as -> -> ->.
      split; [constructor|]. split; reflexivity.
    + symmetry in Hl.
      destruct (retryLoop_accounts env _ _ 0 st (usable_reachable ops Hne) _ _ _ Hl)
        as (H1 & H2 & H3 & _).
      split; [exact H2|]. split; [exact H3 | exact H1].
Qed.

(** X10.  Each request of a call is one selection: over the pool, the
    usage counters grow in total by exactly the number of requests. *)
Theorem call_usage_accounting (env : Env) (prompt : jsstring) (ops : list KeyOp) :
  let st := runOps ops initialStore in
  let run := callGeminiAPI env prompt st in
  totalUsage (API_KEY_STATES (snd (fst run))) =
    (totalUsage (API_KEY_STATES st) + Z.of_nat (fetchCount (snd run)))%Z.
Proof.
  intros st run. subst run.
  destruct (callGeminiAPI env prompt st) as [[result st'] events] eqn:E. simpl.
  destruct (callGeminiAPI_cases env prompt st) as [Hb | Hl]; rewrite E in *.
  - injection Hb as -> -> ->. unfold fetchCount. simpl. lia.
  - destruct (decide (API_KEY_STATES st = [])) as [Hnil | Hne].
    + rewrite Hnil in Hl. simpl in Hl. injection Hl as -> -> ->.
      unfold fetchCount. simpl. lia.
    + symmetry in Hl.
      destruct (retryLoop_accounts env _ _ 0 st (usable_reachable ops Hne) _ _ _ Hl)
        as (_ & _ & _ & H). exact H.
Qed.

Lemma retryLoop_success_entry env max remaining : forall a st,
  usable st ->
  forall t st' events,
    retryLoop env max remaining a st = (Normal t, st', events) ->
    exists keyIndex k a',
      API_KEY_STATES st' !! keyIndex = Some k /\
      errorCount k = 0%Z /\ lastError k = None /\ isActive k = true /\
      lastUsedAt k = Some (clock env a') /\
      extractableText (outcome env a') = Some t /\
      List.last events (EvSleep 0) = EvFetch (key k).
Proof.
  induction remaining as [|r IH]; intros a st Hu t st' events E; [discriminate|].
  cbn [retryLoop] in E.
  destruct (attemptBody_cases env max (S a) st Hu)
    as (apiKey & keyIndex & st1 & k & Hs & Hu1 & Hk & Hkey & Hcase).
  destruct (getNextGeminiKey_selected (clock env (S a)) st Hu)
    as (apiKey' & keyIndex' & st1' & k' & Hs' & Hk' & _ & Hact & Hused & _).
  rewrite Hs in Hs'. injection Hs' as <- <- <-.
  rewrite Hk in Hk'. injection Hk' as <-.
  destruct Hcase as [(t' & Ht' & Eb) | (_ & m & sf & tail & Eb & Hst & Htail & _)];
    rewrite Eb in E.
  - injection E as <- <- <-.
    exists keyIndex, (succeedKey k), (S a).
    split.
    { rewrite (markKeySuccess_lookup st1 (Z.of_nat keyIndex) k); simpl;
        rewrite ?Nat2Z.id; try lia; try assumption.
      apply list_lookup_insert_eq. eapply lookup_lt_Some; eauto. }
    simpl. rewrite Hkey. repeat split; assumption.
  - assert (Husf : usable sf).
    { destruct Hst as [-> | [m' ->]]; repeat apply usable_markKeyError; exact Hu1. }
    destruct (retryLoop env max r (S a) sf) as [[res2 st2] ev2] eqn:E2.
    injection E as -> <- <-.
    destruct (IH (S a) _ Husf _ _ _ E2)
      as (j & kj & a' & H1 & H2 & H3 & H4 & H5 & H6 & H7).
    exists j, kj, a'. repeat split; try assumption.
    assert (Hne : ev2 <> []) by (intros ->; discriminate H7).
    rewrite <- H7. cbn [app].
    change (EvFetch apiKey :: tail ++ ev2) with ((EvFetch apiKey :: tail) ++ ev2).
    destruct ev2 as [|e ev2]; [congruence|].
    rewrite (app_removelast_last (EvSleep 0) (l := e :: ev2)) by assumption.
    rewrite app_assoc, !last_last. reflexivity.
Qed.

(** X11.  When a call returns text, the key of its last request ends with
    no strikes and no error message, is active, and carries the time of
    that selection; the text is what the answer to that request yields. *)
Theorem call_success_bookkeeping (env : Env) (prompt : jsstring) (ops : list KeyOp)
    (t : jsstring) (st' : KeyStore) (events : list Event) :
  callGeminiAPI env prompt (runOps ops initialStore) = (Normal t, st', events) ->
  exists keyIndex k a,
    API_KEY_STATES st' !! keyIndex = Some k /\
    errorCount k = 0%Z /\ lastError k = None /\ isActive k = true /\
    lastUsedAt k = Some (clock env a) /\
    extractableText (outcome env a) = Some t /\
    List.last events (EvSleep 0) = EvFetch (key k).
Proof.
  intros E.
  destruct (callGeminiAPI_cases env prompt (runOps ops initialStore)) as [Hb | Hl];
    rewrite E in *; [discriminate|].
  destruct (decide (API_KEY_STATES (runOps ops initialStore) = [])) as [Hnil | Hne].
  - rewrite Hnil in Hl. discriminate.
  - symmetry in Hl.
    exact (retryLoop_success_entry env _ _ 0 _ (usable_reachable ops Hne) _ _ _ Hl).
Qed.

Lemma call_success_bookkeeping_witness :
  let env := mkEnv (fun n => match n with
                             | 2%nat => ResponseOk (BodyData (mkGeminiData true None (Some (js "[]"))))
                             | _ => ResponseNotOk 503 (ErrorText (js "unavailable") None)
                             end)
                   (fun n => Z.of_nat n) in
  exists keyIndex k a,
    API_KEY_STATES
      (snd (fst (callGeminiAPI env (js "p") (runOps [OpSetKeys [js "k1"; js "k2"]] initialStore))))
      !! keyIndex = Some k /\
    errorCount k = 0%Z /\ lastError k = None /\ isActive k = true /\
    lastUsedAt k = Some (clock env a) /\
    extractableText (outcome env a) = Some (js "[]") /\
    List.last
      (snd (callGeminiAPI env (js "p") (runOps [OpSetKeys [js "k1"; js "k2"]] initialStore)))
      (EvSleep 0) = EvFetch (key k).
Proof.
  intros env.
  apply (call_success_bookkeeping env (js "p") [OpSetKeys [js "k1"; js "k2"]] (js "[]")).
  vm_compute. reflexivity.
Defined.

Lemma turnsAfter_succ N a i :
  (0 < N)%nat -> (i < N)%nat ->
  turnsAfter N (S a) i =
    (turnsAfter N a i + (if (i =? a mod N)%nat then 1 else 0))%nat.
Proof.
  intros HN Hi. unfold turnsAfter.
  pose proof (Nat.div_mod_eq a N) as Ha.
  pose proof (Nat.mod_upper_bound a N ltac:(lia)) as Hr.
  destruct (Nat.eq_dec (S (a mod N)) N) as [Hw | Hw].
  - assert (Hq : (S a / N = S (a / N) /\ S a mod N = 0)%nat).
    { assert (H : (S a = N * S (a / N) + 0)%nat) by nia.
      split.
      - symmetry. apply (Nat.div_unique (S a) N (S (a / N)) 0); lia.
      - symmetry. apply (Nat.mod_unique (S a) N (S (a / N)) 0); lia. }
    destruct Hq as [-> ->].
    destruct (Nat.ltb_spec i 0); [lia|].
    destruct (Nat.ltb_spec i (a mod N)); destruct (Nat.eqb_spec i (a mod N)); lia.
  - assert (Hq : (S a / N = a / N /\ S a mod N = S (a mod N))%nat).
    { assert (H : (S a = N * (a / N) + S (a mod N))%nat) by lia.
      split.
      - symmetry. apply (Nat.div_unique (S a) N (a / N) (S (a mod N))); lia.
      - symmetry. apply (Nat.mod_unique (S a) N (a / N) (S (a mod N))); lia. }
    destruct Hq as [-> ->].
    destruct (Nat.ltb_spec i (S (a mod N))); destruct (Nat.ltb_spec i (a mod N));
      destruct (Nat.eqb_spec i (a mod N)); lia.
Qed.

Lemma turnsAfter_bound N a :
  (0 < N)%nat -> (a < 3 * N)%nat -> (turnsAfter N a (a mod N) < 3)%nat.
Proof.
  intros HN Ha. unfold turnsAfter.
  rewrite Nat.ltb_irrefl.
  assert (a / N < 3)%nat by (apply Nat.Div0.div_lt_upper_bound; lia). lia.
Qed.

Lemma turnsAfter_full N i : (0 < N)%nat -> turnsAfter N (3 * N) i = 3%nat.
Proof.
  intros HN. unfold turnsAfter.
  rewrite Nat.Div0.mod_mul, Nat.div_mul by lia.
  destruct (Nat.ltb_spec i 0); lia.
Qed.

Lemma failedTimes_fail c m now k :
  failedTimes c k -> (c < 3)%nat -> failedTimes (c + 1) (failKey m (useKey now k)).
Proof.
  intros (Hu & He & Ha) Hc. unfold failedTimes, failKey, useKey. simpl.
  rewrite Hu, He, Ha.
  split; [lia|]. split; [lia|].
  destruct (Z.geb_spec (Z.of_nat c + 1) 3); destruct (Nat.ltb_spec (c + 1) 3);
    destruct (Nat.ltb_spec c 3); try lia; reflexivity.
Qed.

Lemma allFailedSoFar_usable N a st :
  (0 < N)%nat -> allFailedSoFar N a st -> usable st.
Proof.
  intros HN (Hlen & Hcur & _). split.
  - unfold cursorInRange. rewrite Hlen, Hcur.
    right. apply Nat.mod_upper_bound. lia.
  - intros E. rewrite E in Hlen. simpl in Hlen. lia.
Qed.

Lemma allFailedSoFar_step N a now m st :
  (0 < N)%nat -> (a < 3 * N)%nat -> allFailedSoFar N a st ->
  exists k,
    API_KEY_STATES st !! (a mod N)%nat = Some k /\
    getNextGeminiKey now st =
      (Normal (key k, (a mod N)%nat),
       mkKeyStore (<[(a mod N)%nat := useKey now k]> (API_KEY_STATES st))
         ((a mod N + 1) mod N)%nat) /\
    allFailedSoFar N (S a)
      (markKeyError (Z.of_nat (a mod N)) m
         (mkKeyStore (<[(a mod N)%nat := useKey now k]> (API_KEY_STATES st))
            ((a mod N + 1) mod N)%nat)).
Proof.
  intros HN Ha (Hlen & Hcur & Hall).
  pose proof (Nat.mod_upper_bound a N ltac:(lia)) as Hr.
  destruct (lookup_lt_is_Some_2 (API_KEY_STATES st) (a mod N)%nat ltac:(lia)) as [k Hk].
  exists k. split; [exact Hk|].
  pose proof (Hall _ _ Hk) as Hf.
  pose proof (turnsAfter_bound N a HN Ha) as Hb.
  assert (Hact : isActive k = true).
  { destruct Hf as (_ & _ & ->). apply Nat.ltb_lt. exact Hb. }
  split.
  { pose proof (getNextGeminiKey_active now st k) as G.
    rewrite Hcur, Hlen in G. exact (G Hk Hact). }
  set (st1 := mkKeyStore _ _).
  assert (Hk1 : API_KEY_STATES st1 !! (a mod N)%nat = Some (useKey now k)).
  { simpl. apply list_lookup_insert_eq. lia. }
  rewrite (markKeyError_lookup st1 (Z.of_nat (a mod N)) m (useKey now k));
    rewrite ?Nat2Z.id; try lia; try assumption.
  split; [|split]; simpl.
  - rewrite !length_insert. exact Hlen.
  - rewrite Nat.Div0.add_mod_idemp_l. f_equal. lia.
  - intros i ki Hi.
    assert (HiN : (i < N)%nat).
    { apply lookup_lt_Some in Hi. rewrite !length_insert in Hi. lia. }
    rewrite (turnsAfter_succ N a i HN HiN).
    destruct (Nat.eqb_spec i (a mod N)) as [-> | Hne].
    + rewrite list_lookup_insert_eq in Hi by (rewrite length_insert; lia).
      injection Hi as <-. apply failedTimes_fail; assumption.
    + rewrite !list_lookup_insert_ne in Hi by congruence.
      rewrite Nat.add_0_r. apply Hall. exact Hi.
Qed.

Lemma retryLoop_all_fail env N max remaining : forall a st,
  (0 < N)%nat -> (a + remaining = 3 * N)%nat ->
  (forall b, (a < b <= 3 * N)%nat -> extractableText (outcome env b) = None) ->
  (forall b, (a < b <= 3 * N)%nat -> reportsTwice (outcome env b) = false) ->
  allFailedSoFar N a st ->
  allFailedSoFar N (3 * N) (snd (fst (retryLoop env max remaining a st))).
Proof.
  induction remaining as [|r IH]; intros a st HN Hsum Hfail Honce Hinv.
  - replace (3 * N)%nat with a by lia. exact Hinv.
  - cbn [retryLoop].
    pose proof (allFailedSoFar_usable N a st HN Hinv) as Hu.
    destruct (attemptBody_cases env max (S a) st Hu)
      as (apiKey & keyIndex & st1 & k & Hs & _ & _ & _ & Hcase).
    destruct Hcase as [(t & Ht & _) | (_ & m & sf & tail & Eb & _ & _ & _ & Hsf)].
    { rewrite Hfail in Ht by lia. discriminate. }
    rewrite Eb, (Hsf (Honce (S a) ltac:(lia))).
    destruct (allFailedSoFar_step N a (clock env (S a)) m st HN ltac:(lia) Hinv)
      as (k' & _ & Hs' & Hnext).
    rewrite Hs in Hs'. injection Hs' as _ -> ->.
    specialize (IH (S a) _ HN ltac:(lia) ltac:(intros; apply Hfail; lia)
                  ltac:(intros; apply Honce; lia) Hnext).
    destruct (retryLoop env max r (S a) _) as [[res st2] ev2]. exact IH.
Qed.

(** X12.  A call on a freshly configured pool of N keys whose 3 N answers
    all fail, each reported once (none is a 403 or a 400 whose error
    message is a value without the method [includes]), spends the budget
    evenly: it ends with every key selected three times, holding three
    strikes, deactivated, and with the cursor back on the first key. *)
Theorem failed_run_deactivates_pool (env : Env) (prompt : jsstring)
    (keys : list jsstring) (st0 : KeyStore) :
  let st := snd (setGeminiApiKeys keys st0) in
  let N := length (validKeys keys) in
  validKeys keys <> [] ->
  trim prompt <> [] ->
  (forall a, (1 <= a <= 3 * N)%nat -> extractableText (outcome env a) = None) ->
  (forall a, (1 <= a <= 3 * N)%nat -> reportsTwice (outcome env a) = false) ->
  let st' := snd (fst (callGeminiAPI env prompt st)) in
  currentKeyIndex st' = 0%nat /\
  length (API_KEY_STATES st') = N /\
  Forall (fun k => usageCount k = 3%Z /\ errorCount k = 3%Z /\ isActive k = false)
    (API_KEY_STATES st').
Proof.
  intros st N Hv Hp Hfail Honce st'.
  assert (HN : (0 < N)%nat).
  { subst N. destruct (validKeys keys); [congruence | simpl; lia]. }
  assert (Hst : st = mkKeyStore (map freshKeyState (validKeys keys)) 0).
  { subst st. destruct (setGeminiApiKeys_cases keys st0) as [[E _] | [_ ->]];
      [congruence | reflexivity]. }
  assert (Hinv : allFailedSoFar N 0 st).
  { rewrite Hst. split; [simpl; apply length_map|].
    split; [simpl; symmetry; apply Nat.Div0.mod_0_l|].
    intros i k Hi. simpl in Hi.
    change (map freshKeyState) with (fmap (M:=list) freshKeyState) in Hi.
    rewrite list_lookup_fmap in Hi.
    destruct (validKeys keys !! i) as [s|]; [|discriminate].
    injection Hi as <-.
    unfold turnsAfter. rewrite Nat.Div0.div_0_l, Nat.Div0.mod_0_l.
    destruct (Nat.ltb_spec i 0); [lia|]. repeat split. }
  assert (Hlen : length (API_KEY_STATES st) = N) by apply Hinv.
  subst st'. rewrite (callGeminiAPI_nonblank env prompt st Hp), Hlen.
  pose proof (retryLoop_all_fail env N (N * 3) (N * 3) 0 st HN ltac:(lia)
                ltac:(intros; apply Hfail; lia) ltac:(intros; apply Honce; lia) Hinv)
    as (H1 & H2 & H3).
  split; [rewrite H2; apply Nat.Div0.mod_mul|]. split; [exact H1|].
  apply Forall_lookup. intros i k Hi.
  specialize (H3 i k Hi). rewrite (turnsAfter_full N i HN) in H3.
  destruct H3 as (Hu & He & Ha). repeat split; assumption.
Qed.

Lemma failed_run_deactivates_pool_witness :
  let env := mkEnv (fun _ => ResponseNotOk 429 (ErrorText (js "quota") None))
                   (fun n => Z.of_nat n) in
  let st' := snd (fst (callGeminiAPI env (js "p")
                         (snd (setGeminiApiKeys [js "k1"; js " "; js "k2"] initialStore)))) in
  currentKeyIndex st' = 0%nat /\
  length (API_KEY_STATES st') = 2%nat /\
  Forall (fun k => usageCount k = 3%Z /\ errorCount k = 3%Z /\ isActive k = false)
    (API_KEY_STATES st').
Proof.
  intros env.
  apply (failed_run_deactivates_pool env (js "p") [js "k1"; js " "; js "k2"] initialStore).
  - vm_compute. discriminate.
  - vm_compute. discriminate.
  - intros a _. reflexivity.
  - intros a _. reflexivity.
Defined.

Lemma notOkBranch_throws max a status keyIndex errorMessage notAFunction st :
  status = 403%Z \/ status = 400%Z ->
  hasIncludes errorMessage = false ->
  notOkBranch max a status keyIndex errorMessage notAFunction st =
    (Continue,
     markKeyError keyIndex (JString notAFunction) (markKeyError keyIndex errorMessage st),
     if (a <? max)%nat then [EvSleep 10000] else []).
Proof.
  intros Hs Hinc. unfold notOkBranch, statusAndIncludes.
  assert (H1 : forall needle, includesOf needle errorMessage = None)
    by (intros needle; apply includesOf_None, Hinc).
  destruct Hs as [-> | ->]; simpl; rewrite !H1; reflexivity.
Qed.

(** X26.  One answer can cost a key two strikes.  When an error response
    of status 403 or 400 carries, as its error message, a truthy value
    that is neither a string nor an array, the call of [includes] throws
    after the failure has been reported; the [catch] block reports a
    second failure against the same key, with the message of the
    [TypeError], and waits 10000 ms only if an attempt is left. *)
Theorem includes_throw_reports_twice (env : Env) (ops : list KeyOp)
    (attemptCount : nat) (status : Z) (errorText : jsstring)
    (parsedMessage : JsonValue) (notAFunction : jsstring) :
  let st := runOps ops initialStore in
  let maxTotalRetries := (length (API_KEY_STATES st) * 3)%nat in
  (attemptCount < maxTotalRetries)%nat ->
  outcome env (S attemptCount) =
    ResponseNotOk status (ErrorValue errorText parsedMessage notAFunction) ->
  status = 403%Z \/ status = 400%Z ->
  toBoolean parsedMessage = true ->
  hasIncludes parsedMessage = false ->
  exists apiKey keyIndex st1 k,
    getNextGeminiKey (clock env (S attemptCount)) st = (Normal (apiKey, keyIndex), st1) /\
    API_KEY_STATES st1 !! keyIndex = Some k /\ key k = apiKey /\
    let st2 :=
      mkKeyStore
        (<[keyIndex := mkApiKeyState (key k) (usageCount k) (errorCount k + 2)
                         (Some (JString notAFunction)) (lastUsedAt k)
                         (if (errorCount k + 2 >=? 3)%Z then false else isActive k)]>
           (API_KEY_STATES st1))
        (currentKeyIndex st1) in
    retryLoop env maxTotalRetries (maxTotalRetries - attemptCount) attemptCount st =
      let '(result, st', events) :=
        retryLoop env maxTotalRetries (maxTotalRetries - S attemptCount)
          (S attemptCount) st2 in
      (result, st',
       EvFetch apiKey ::
       (if (S attemptCount <? maxTotalRetries)%nat then [EvSleep 10000] else []) ++
       events).
Proof.
  intros st max Hlt Hout Hs Htrue Hinc.
  assert (Hu : usable st).
  { apply usable_reachable. fold st. intros Hnil. subst max. rewrite Hnil in Hlt.
    simpl in Hlt. lia. }
  destruct (getNextGeminiKey_usable (clock env (S attemptCount)) st Hu)
    as (apiKey & keyIndex & st1 & k & Hsel & _ & _ & Hk & Hkey).
  exists apiKey, keyIndex, st1, k.
  split; [exact Hsel|]. split; [exact Hk|]. split; [exact Hkey|].
  intros st2.
  replace (max - attemptCount)%nat with (S (max - S attemptCount)) by lia.
  cbn [retryLoop]. unfold attemptBody. rewrite Hsel, Hout.
  unfold errorValueOf. rewrite Htrue.
  rewrite (notOkBranch_throws _ _ _ _ _ _ _ Hs Hinc).
  assert (Hst2 : markKeyError (Z.of_nat keyIndex) (JString notAFunction)
                   (markKeyError (Z.of_nat keyIndex) parsedMessage st1) = st2).
  { rewrite (markKeyError_recorded st1 keyIndex parsedMessage k Hk).
    erewrite markKeyError_recorded
      by (simpl; apply list_lookup_insert_eq; eapply lookup_lt_Some; eauto).
    subst st2. simpl. rewrite list_insert_insert_eq. f_equal. f_equal.
    f_equal; [lia|].
    replace (errorCount k + 1 + 1)%Z with (errorCount k + 2)%Z by lia.
    destruct (Z.geb_spec (errorCount k + 1) 3); destruct (Z.geb_spec (errorCount k + 2) 3);
      try lia; reflexivity. }
  rewrite Hst2. cbv beta iota.
  destruct (retryLoop _ _ _ _ _) as [[? ?] ?]. reflexivity.
Qed.

Lemma includes_throw_reports_twice_witness :
  let env := mkEnv (fun n => match n with
                             | 1%nat => ResponseNotOk 403
                                          (ErrorValue (js "{...}") (JNumber (js "7"))
                                             (js "errorMessage.includes is not a function"))
                             | _ => ResponseOk (BodyData (mkGeminiData true None (Some (js "[]"))))
                             end)
                   (fun n => Z.of_nat n) in
  callGeminiAPI env (js "prompt") (runOps [OpSetKeys [js "k1"; js "k2"]] initialStore) =
    (Normal (js "[]"),
     mkKeyStore
       [mkApiKeyState (js "k1") 1 2
          (Some (JString (js "errorMessage.includes is not a function"))) (Some 1%Z) true;
        mkApiKeyState (js "k2") 1 0 None (Some 2%Z) true] 0,
     [EvFetch (js "k1"); EvSleep 10000; EvFetch (js "k2")]).
Proof.
  intros env.
  destruct (includes_throw_reports_twice env [OpSetKeys [js "k1"; js "k2"]] 0 403
              (js "{...}") (JNumber (js "7"))
              (js "errorMessage.includes is not a function"))
    as (apiKey & keyIndex & st1 & k & Hsel & Hk & _ & Hloop).
  - simpl. lia.
  - reflexivity.
  - left. reflexivity.
  - vm_compute. reflexivity.
  - reflexivity.
  - injection Hsel as <- <- <-. vm_compute in Hk. injection Hk as <-.
    rewrite callGeminiAPI_nonblank by discriminate.
    etransitivity; [exact Hloop|]. vm_compute. reflexivity.
Defined.

(** ** More on the sanitizer *)

(** A replacement whose results are made of code units with a property
    keeps the property of the text. *)
Lemma Forall_replaceFrom (P : N -> Prop) m f :
  (forall index matched, Forall P matched -> Forall P (f index matched)) ->
  forall s skip index,
    Forall P s -> Forall P (fst (replaceFrom m f skip index s)).
Proof.
  intros Hf. induction s as [|c r IH]; intros skip index Hs; [constructor|].
  pose proof (Forall_inv_tail Hs) as Hr.
  simpl. destruct skip as [|k]; [|apply IH; exact Hr].
  destruct (m (c :: r)) as [[|k]|].
  - specialize (IH 0%nat index Hr).
    destruct (replaceFrom m f 0 index r) as [out ms]. simpl in *.
    constructor; [exact (Forall_inv Hs) | exact IH].
  - specialize (IH k (S index) Hr).
    destruct (replaceFrom m f k (S index) r) as [out ms]. simpl in *.
    apply Forall_app. split; [|exact IH].
    apply Hf. constructor; [exact (Forall_inv Hs) | apply Forall_take; exact Hr].
  - specialize (IH 0%nat index Hr).
    destruct (replaceFrom m f 0 index r) as [out ms]. simpl in *.
    constructor; [exact (Forall_inv Hs) | exact IH].
Qed.

(** A replacement that matches wherever a code unit lacks a property, and
    whose results have it, leaves only code units that have it. *)
Lemma Forall_replaceFrom_cover (Q : N -> Prop) m f :
  (forall c r, (forall k, m (c :: r) <> Some (S k)) -> Q c) ->
  (forall index matched, Forall Q (f index matched)) ->
  forall s skip index, Forall Q (fst (replaceFrom m f skip index s)).
Proof.
  intros Hm Hf. induction s as [|c r IH]; intros skip index; [constructor|].
  simpl. destruct skip as [|k]; [|apply IH].
  destruct (m (c :: r)) as [[|k]|] eqn:E.
  - specialize (IH 0%nat index).
    destruct (replaceFrom m f 0 index r) as [out ms]. simpl in *.
    constructor; [|exact IH]. apply (Hm c r). intros k. rewrite E. discriminate.
  - specialize (IH k (S index)).
    destruct (replaceFrom m f k (S index) r) as [out ms]. simpl in *.
    apply Forall_app. split; [apply Hf | exact IH].
  - specialize (IH 0%nat index).
    destruct (replaceFrom m f 0 index r) as [out ms]. simpl in *.
    constructor; [|exact IH]. apply (Hm c r). intros k. rewrite E. discriminate.
Qed.

Lemma Forall_replaceWith_drop (P : N -> Prop) m n s :
  Forall P s -> Forall P (replaceWith m (drop n) s).
Proof.
  intros Hs. unfold replaceWith. apply Forall_replaceFrom; [|exact Hs].
  intros _ matched Hm. apply Forall_drop. exact Hm.
Qed.

Lemma Forall_replaceAll_nil (P : N -> Prop) m s :
  Forall P s -> Forall P (replaceAll m [] s).
Proof.
  intros Hs. unfold replaceAll, replaceWith. apply Forall_replaceFrom; [|exact Hs].
  intros _ matched _. constructor.
Qed.

Lemma collapseSpaces_spaces cleaned :
  Forall (fun c => isWhiteSpace c = true -> c = 32) (collapseSpaces cleaned).
Proof.
  unfold collapseSpaces, replaceAll, replaceWith.
  apply Forall_replaceFrom_cover.
  - intros c r Hno Hc. exfalso. unfold mplus in Hno. simpl in Hno.
    rewrite Hc in Hno. exact (Hno _ eq_refl).
  - intros _ _. constructor; [reflexivity | constructor].
Qed.

Lemma finalSweep_controls s :
  Forall (fun c => isControlNotTabLfCr' c = false)
    (replaceAll (mclass isControlNotTabLfCr') [] s).
Proof.
  unfold replaceAll, replaceWith.
  apply Forall_replaceFrom_cover.
  - intros c r Hno. unfold mclass in Hno.
    destruct (isControlNotTabLfCr' c); [contradiction (Hno 0%nat); reflexivity | reflexivity].
  - intros _ _. constructor.
Qed.

Lemma below_32_cases (n : nat) :
  (n < 32)%nat ->
  isControlNotTabLfCr' (N.of_nat n)
  || isWhiteSpace (N.of_nat n) && negb (N.of_nat n =? 32) = true.
Proof.
  intros Hn.
  do 32 (destruct n as [|n]; [reflexivity|]). lia.
Qed.

Lemma plainCodeUnit_intro c :
  isControlNotTabLfCr' c = false ->
  (isWhiteSpace c = true -> c = 32) ->
  plainCodeUnit c.
Proof.
  intros Hc Hw. unfold plainCodeUnit.
  split; [|split; [|exact Hw]].
  - destruct (N.le_gt_cases 32 c) as [H | H]; [exact H|]. exfalso.
    pose proof (below_32_cases (N.to_nat c) ltac:(lia)) as Hb.
    rewrite N2Nat.id, Hc in Hb. simpl in Hb.
    apply andb_true_iff in Hb. destruct Hb as [Hb1 Hb2].
    specialize (Hw Hb1). subst c. discriminate.
  - intros ->. discriminate.
Qed.

(** X13.  Whatever the input, the sanitized text holds no control
    character (none below U+0020, no U+007F), and its only white space is
    the space U+0020. *)
Theorem sanitizeJsonString_plain (jsonString : jsstring) :
  Forall plainCodeUnit (sanitizeJsonString jsonString).
Proof.
  unfold sanitizeJsonString.
  set (s6 := collapseSpaces _).
  assert (H6 : Forall (fun c => isWhiteSpace c = true -> c = 32) s6)
    by apply collapseSpaces_spaces.
  unfold finalSweep, dropInvalidEscapes.
  set (s8 := replaceAll (mlit backslash >> mrange 1 3 isOctalDigit) [] _).
  assert (H8 : Forall (fun c => isWhiteSpace c = true -> c = 32) s8).
  { subst s8. apply Forall_replaceAll_nil, Forall_replaceAll_nil.
    apply Forall_replaceWith_drop. exact H6. }
  pose proof (Forall_replaceAll_nil _ (mclass isControlNotTabLfCr') _ H8) as Ha.
  pose proof (finalSweep_controls s8) as Hb.
  apply Forall_lookup. intros i c Hi.
  apply plainCodeUnit_intro.
  - exact (proj1 (Forall_lookup _ _) Hb i c Hi).
  - exact (proj1 (Forall_lookup _ _) Ha i c Hi).
Qed.

(** ** More on the strategies *)

Lemma lastIndexOf_drop c : forall s n,
  lastIndexOf c (drop n s) =
    match lastIndexOf c s with
    | Some l => if (n <=? l)%nat then Some (l - n)%nat else None
    | None => None
    end.
Proof.
  induction s as [|x r IH]; intros n.
  - destruct n; reflexivity.
  - destruct n as [|n].
    + simpl drop. destruct (lastIndexOf c (x :: r)) as [l|]; [|reflexivity].
      simpl. rewrite Nat.sub_0_r. reflexivity.
    + simpl drop. rewrite IH. cbn [lastIndexOf].
      destruct (lastIndexOf c r) as [l|].
      * reflexivity.
      * destruct (code_eqb x c); reflexivity.
Qed.

Lemma matchBracketed_span t text :
  matchBracketed t text =
    match indexOf (openChar t) text, lastIndexOf (closeChar t) text with
    | Some firstIdx, Some lastIdx =>
        if (lastIdx <=? firstIdx)%nat then None
        else Some (substring firstIdx (lastIdx + 1) text)
    | _, _ => None
    end.
Proof.
  unfold matchBracketed.
  destruct (indexOf (openChar t) text) as [i|]; [|reflexivity].
  rewrite lastIndexOf_drop.
  destruct (lastIndexOf (closeChar t) text) as [l|]; [|reflexivity].
  destruct (Nat.leb_spec (S i) l); destruct (Nat.leb_spec l i); try lia; [|reflexivity].
  unfold substring.
  rewrite Nat.min_l, Nat.max_r by lia.
  do 2 f_equal. lia.
Qed.

(** X14.  Strategy 3 parses the very span strategy 1 parses: where one
    finds its brackets so does the other, both sanitize and parse the same
    text, and where one finds none both fail, each with its own message.
    Strategy 3 therefore never succeeds where strategy 1 failed. *)
Theorem strategy3_repeats_strategy1 (syntaxErrorMessage : jsstring -> jsstring)
    (response : jsstring) (expectedType : ExpectedType) :
  (exists span,
      matchBracketed expectedType response = Some span /\
      strategy1 syntaxErrorMessage response expectedType =
        tryParse syntaxErrorMessage (sanitizeJsonString span) /\
      strategy3 syntaxErrorMessage response expectedType =
        tryParse syntaxErrorMessage (sanitizeJsonString span))
  \/ (matchBracketed expectedType response = None /\
      strategy1 syntaxErrorMessage response expectedType =
        inr (js "No JSON found in response") /\
      strategy3 syntaxErrorMessage response expectedType =
        inr (js "Invalid bracket positions")).
Proof.
  unfold strategy1, strategy3. rewrite matchBracketed_span.
  destruct (indexOf (openChar expectedType) response) as [i|];
    [|right; repeat split].
  destruct (lastIndexOf (closeChar expectedType) response) as [l|];
    [|right; repeat split].
  destruct (l <=? i)%nat; [right; repeat split|].
  left. eexists. split; [reflexivity|]. split; reflexivity.
Qed.

Lemma tryStrategies_spec : forall todo i errors,
  match tryStrategies todo i errors with
  | inl v =>
      exists n, todo !! n = Some (inl v) /\
                forall j, (j < n)%nat -> exists m, todo !! j = Some (inr m)
  | inr errors' =>
      Forall (fun s => exists m, s = inr m) todo /\
      length errors' = (length errors + length todo)%nat /\
      (forall e, errors !! 0%nat = Some e -> errors' !! 0%nat = Some e) /\
      (errors = [] ->
       forall m rest, todo = inr m :: rest ->
         errors' !! 0%nat =
           Some (js "Strategy " ++ decimal (i + 1) ++ js ": " ++ m))
  end.
Proof.
  induction todo as [|s rest IH]; intros i errors.
  - simpl. split; [constructor|]. split; [lia|]. split; [auto|].
    intros _ m rest E. discriminate.
  - cbn [tryStrategies]. destruct s as [v|m].
    + exists 0%nat. split; [reflexivity|]. intros j Hj. lia.
    + specialize (IH (S i)
        (errors ++ [js "Strategy " ++ decimal (i + 1) ++ js ": " ++ m])).
      destruct (tryStrategies rest (S i) _) as [v|errors'].
      * destruct IH as (n & Hn & Hbefore).
        exists (S n). split; [exact Hn|].
        intros [|j] Hj; [eexists; reflexivity|].
        apply Hbefore. lia.
      * destruct IH as (Hall & Hlen & Hfirst & _).
        split; [constructor; [eexists; reflexivity | exact Hall]|].
        split; [rewrite Hlen, length_app; simpl; lia|].
        split.
        -- intros e He. apply Hfirst.
           destruct errors; [discriminate | exact He].
        -- intros -> m' rest' E. injection E as <- <-.
           apply Hfirst. reflexivity.
Qed.

(** X15.  The parser returns the value of the first strategy that
    succeeds, after all the earlier ones failed; it throws only when all
    six failed, and the message then counts six attempts, carries the
    summary, and quotes the failure of strategy 1. *)
Theorem parseJsonRobust_cascade (syntaxErrorMessage : jsstring -> jsstring)
    (response : jsstring) (expectedType : ExpectedType) :
  let todo := strategies syntaxErrorMessage response expectedType in
  match parseJsonRobust syntaxErrorMessage response expectedType with
  | Normal v =>
      exists n, todo !! n = Some (inl v) /\
                forall j, (j < n)%nat -> exists m, todo !! j = Some (inr m)
  | Throw e =>
      Forall (fun s => exists m, s = inr m) todo /\
      exists m1,
        strategy1 syntaxErrorMessage response expectedType = inr m1 /\
        e = Error (js "Failed to parse JSON after 6 attempts. Issue: " ++
                   errorSummary response expectedType ++
                   js ". First error: Strategy 1: " ++ m1)
  end.
Proof.
  intros todo. unfold parseJsonRobust.
  pose proof (tryStrategies_spec todo 0 []) as H. fold todo.
  destruct (tryStrategies todo 0 []) as [v|errors]; [exact H|].
  destruct H as (Hall & _ & _ & Hfirst).
  split; [exact Hall|].
  pose proof (Forall_inv Hall) as [m1 Hm1].
  exists m1. split; [exact Hm1|].
  specialize (Hfirst eq_refl m1 _ ltac:(unfold todo, strategies; rewrite Hm1; reflexivity)).
  unfold failureMessage, firstError.
  destruct errors as [|e0 errors]; [discriminate|].
  injection Hfirst as ->. reflexivity.
Qed.

(** ** The sanitizer on quiet text *)

(** A replacement that puts back what it matched changes nothing. *)
Lemma replaceFrom_same m f : forall s skip index,
  (forall n k idx, m (drop n s) = Some (S k) ->
                   f idx (take (S k) (drop n s)) = take (S k) (drop n s)) ->
  fst (replaceFrom m f skip index s) = drop skip s.
Proof.
  induction s as [|c r IH]; intros skip index H.
  - destruct skip; reflexivity.
  - assert (Hr : forall n k idx, m (drop n r) = Some (S k) ->
                   f idx (take (S k) (drop n r)) = take (S k) (drop n r))
      by (intros n; exact (H (S n))).
    simpl. destruct skip as [|k']; [|apply IH; exact Hr].
    destruct (m (c :: r)) as [[|k]|] eqn:E.
    + specialize (IH 0%nat index Hr).
      destruct (replaceFrom m f 0 index r). simpl in *. rewrite IH, drop_0. reflexivity.
    + specialize (IH k (S index) Hr).
      pose proof (H 0%nat k index E) as Hf. simpl in Hf.
      destruct (replaceFrom m f k (S index) r). simpl in *.
      rewrite IH, Hf. simpl. rewrite take_drop. reflexivity.
    + specialize (IH 0%nat index Hr).
      destruct (replaceFrom m f 0 index r). simpl in *. rewrite IH, drop_0. reflexivity.
Qed.

(** A pattern that matches nowhere. *)
Lemma replaceFrom_nowhere m f : forall s index,
  occursIn m s = false ->
  replaceFrom m f 0 index s = (s, []).
Proof.
  induction s as [|c r IH]; intros index H; [reflexivity|].
  cbn [occursIn] in H. apply orb_false_elim in H as [H1 H2].
  cbn [replaceFrom].
  destruct (m (c :: r)) as [[|k]|]; try discriminate;
    rewrite (IH index H2); reflexivity.
Qed.

Lemma replaceAll_nowhere m replacement s :
  occursIn m s = false -> replaceAll m replacement s = s.
Proof.
  intros H. unfold replaceAll, replaceWith. rewrite replaceFrom_nowhere by exact H.
  reflexivity.
Qed.

Lemma replaceWith_nowhere m f s :
  occursIn m s = false -> replaceWith m f s = s.
Proof.
  intros H. unfold replaceWith. rewrite replaceFrom_nowhere by exact H.
  reflexivity.
Qed.

(** A pattern whose matches begin with a code unit the text lacks. *)
Lemma occursIn_head (Q : N -> bool) m s :
  (forall c r k, m (c :: r) = Some (S k) -> Q c = true) ->
  forallb (fun c => negb (Q c)) s = true ->
  occursIn m s = false.
Proof.
  intros Hm. induction s as [|c r IH]; intros Hs; [reflexivity|].
  cbn [forallb] in Hs. apply andb_prop in Hs as [Hc Hr].
  cbn [occursIn]. rewrite (IH Hr), orb_false_r.
  destruct (m (c :: r)) as [[|k]|] eqn:E; try reflexivity.
  rewrite (Hm c r k E) in Hc. discriminate.
Qed.

Lemma mlit_head x p c r k :
  mlit (x :: p) (c :: r) = Some k -> c = x.
Proof.
  unfold mlit. simpl. destruct (code_eqb x c) eqn:E; [|discriminate].
  intros _. apply code_eqb_eq in E. congruence.
Qed.

Lemma mlitCI_head x p c r k :
  mlitCI (x :: p) (c :: r) = Some k -> toLowerAscii c = toLowerAscii x.
Proof.
  unfold mlitCI. simpl.
  destruct (code_eqb (toLowerAscii x) (toLowerAscii c)) eqn:E; [|discriminate].
  intros _. apply code_eqb_eq in E. congruence.
Qed.

Lemma mseq_first a b s k : (a >> b) s = Some k -> exists n, a s = Some n.
Proof.
  unfold mseq. destruct (a s) as [n|]; [eauto | discriminate].
Qed.

Lemma mclass_head P c r k : mclass P (c :: r) = Some k -> P c = true.
Proof. unfold mclass. destruct (P c); [reflexivity | discriminate]. Qed.

Lemma quietCodeUnit_facts c :
  quietCodeUnit c = true ->
  32 <= c /\ c <> 127 /\ (isWhiteSpace c = true -> c = 32) /\
  c <> 96 /\ c <> 92 /\ c <> 8230.
Proof.
  unfold quietCodeUnit, isOneOf, code_eqb, ch, bslash, ellipsis. simpl existsb.
  intros H.
  repeat (apply andb_prop in H as [H ?]).
  apply N.leb_le in H.
  repeat match goal with
         | Hn : negb _ = true |- _ => apply negb_true_iff in Hn
         end.
  repeat match goal with
         | Ho : (_ || _) = false |- _ => apply orb_false_elim in Ho as [? ?]
         end.
  repeat match goal with
         | He : (_ =? _) = false |- _ => apply N.eqb_neq in He
         end.
  split; [assumption|]. split; [assumption|].
  split.
  { intros Hw.
    match goal with
    | Ho : (negb (isWhiteSpace c) || _) = true |- _ =>
        rewrite Hw in Ho; simpl in Ho; apply N.eqb_eq in Ho; exact Ho
    end. }
  repeat split; assumption.
Qed.

Lemma occursIn_quiet m s :
  (forall c r k, m (c :: r) = Some (S k) -> quietCodeUnit c = false) ->
  forallb quietCodeUnit s = true ->
  occursIn m s = false.
Proof.
  intros Hm Hs. apply (occursIn_head (fun c => negb (quietCodeUnit c))).
  - intros c r k E. rewrite (Hm c r k E). reflexivity.
  - rewrite <- Hs. clear. induction s as [|c r IH]; [reflexivity|].
    simpl. rewrite negb_involutive, IH. reflexivity.
Qed.

Lemma toLowerAscii_backtick c : toLowerAscii c = 96 -> c = 96.
Proof.
  unfold toLowerAscii.
  destruct (N.leb_spec 65 c); destruct (N.leb_spec c 90); simpl; lia.
Qed.

Lemma occursIn_fence_CI p s :
  forallb quietCodeUnit s = true -> occursIn (mlitCI (ch "`" :: p)) s = false.
Proof.
  apply occursIn_quiet. intros c r k E.
  apply mlitCI_head in E. change (toLowerAscii (ch "`")) with 96 in E.
  apply toLowerAscii_backtick in E. subst c. reflexivity.
Qed.

Lemma occursIn_mlit_loud x p s :
  quietCodeUnit x = false ->
  forallb quietCodeUnit s = true -> occursIn (mlit (x :: p)) s = false.
Proof.
  intros Hx. apply occursIn_quiet. intros c r k E.
  apply mlit_head in E. subst c. exact Hx.
Qed.

Lemma occursIn_mlit_seq_loud x p b s :
  quietCodeUnit x = false ->
  forallb quietCodeUnit s = true -> occursIn (mlit (x :: p) >> b) s = false.
Proof.
  intros Hx. apply occursIn_quiet. intros c r k E.
  apply mseq_first in E as [n E]. apply mlit_head in E. subst c. exact Hx.
Qed.

Lemma occursIn_mclass_loud P s :
  (forall c, P c = true -> quietCodeUnit c = false) ->
  forallb quietCodeUnit s = true -> occursIn (mclass P) s = false.
Proof.
  intros HP. apply occursIn_quiet. intros c r k E.
  apply mclass_head in E. apply HP, E.
Qed.

Lemma control_loud c :
  (c <? 32) || (c =? 127) = true -> quietCodeUnit c = false.
Proof.
  intros H. unfold quietCodeUnit.
  apply orb_prop in H as [H | H].
  - apply N.ltb_lt in H. destruct (N.leb_spec 32 c); [lia | reflexivity].
  - rewrite H, andb_false_r. reflexivity.
Qed.

Lemma isControlNotTabLfCr_loud c :
  isControlNotTabLfCr c = true -> quietCodeUnit c = false.
Proof.
  intros H. apply control_loud. unfold isControlNotTabLfCr, inRange in H.
  destruct (N.ltb_spec c 32); [reflexivity|]. simpl.
  destruct (N.eqb_spec c 127); [reflexivity|].
  destruct (N.leb_spec c 8); [lia|]. destruct (N.leb_spec c 12); [lia|].
  destruct (N.leb_spec c 31); [lia|].
  rewrite !andb_false_r in H. discriminate.
Qed.

Lemma isControlNotTabLfCr'_loud c :
  isControlNotTabLfCr' c = true -> quietCodeUnit c = false.
Proof.
  intros H. apply control_loud. unfold isControlNotTabLfCr', inRange in H.
  destruct (N.ltb_spec c 32); [reflexivity|]. simpl.
  destruct (N.eqb_spec c 127); [reflexivity|].
  destruct (N.leb_spec c 8); [lia|]. destruct (N.leb_spec c 31); [lia|].
  destruct (N.eqb_spec c 11); [lia|]. destruct (N.eqb_spec c 12); [lia|].
  rewrite !andb_false_r in H. discriminate.
Qed.

Lemma replaceAll_class_same P q s :
  (forall c, P c = true -> c = q) ->
  replaceAll (mclass P) [q] s = s.
Proof.
  intros HP. unfold replaceAll, replaceWith.
  rewrite replaceFrom_same; [apply drop_0|].
  intros n k _ E.
  destruct (drop n s) as [|c r]; [discriminate|].
  pose proof (mclass_head _ _ _ _ E) as Hc.
  unfold mclass in E. rewrite Hc in E. injection E as <-.
  simpl. rewrite take_0, (HP c Hc). reflexivity.
Qed.

Lemma occursIn_false_drop m : forall s n c r k,
  occursIn m s = false -> drop n s = c :: r -> m (c :: r) <> Some (S k).
Proof.
  induction s as [|x s IH]; intros n c r k H E.
  - destruct n; discriminate.
  - cbn [occursIn] in H. apply orb_false_elim in H as [H1 H2].
    destruct n as [|n].
    + simpl in E. injection E as -> ->.
      destruct (m (c :: r)) as [[|k']|]; congruence.
    + simpl in E. exact (IH n c r k H2 E).
Qed.

Lemma forallb_drop {A} (f : A -> bool) n (s : list A) :
  forallb f s = true -> forallb f (drop n s) = true.
Proof.
  revert n. induction s as [|x s IH]; intros n H; [destruct n; reflexivity|].
  destruct n as [|n]; [exact H|].
  simpl in *. apply andb_prop in H as [_ H]. apply IH, H.
Qed.

Lemma collapseSpaces_quiet s :
  forallb quietCodeUnit s = true ->
  occursIn doubleSpacePattern s = false ->
  collapseSpaces s = s.
Proof.
  intros Hq Hd. unfold collapseSpaces, replaceAll, replaceWith.
  rewrite replaceFrom_same; [apply drop_0|].
  intros n k _ E.
  pose proof (forallb_drop quietCodeUnit n s Hq) as Hq'.
  destruct (drop n s) as [|c r] eqn:Et; [discriminate|].
  unfold mplus in E. simpl in E, Hq'.
  apply andb_prop in Hq' as [Hc _].
  destruct (isWhiteSpace c) eqn:Hw; [|discriminate].
  destruct (quietCodeUnit_facts c Hc) as (_ & _ & H32 & _).
  specialize (H32 Hw). subst c.
  injection E as <-.
  assert (H0 : countWhile isWhiteSpace r = 0%nat).
  { destruct r as [|c' r']; [reflexivity|]. simpl.
    destruct (isWhiteSpace c') eqn:Hw'; [|reflexivity]. exfalso.
    apply (occursIn_false_drop doubleSpacePattern s n 32 (c' :: r') 1 Hd Et).
    unfold doubleSpacePattern, mseq, mclass. simpl. rewrite Hw'. reflexivity. }
  rewrite H0. simpl. rewrite take_0. reflexivity.
Qed.

Lemma trim_fixed c r d :
  isWhiteSpace c = false -> isWhiteSpace d = false ->
  trim (c :: r ++ [d]) = c :: r ++ [d].
Proof.
  intros Hc Hd. unfold trim, trimEnd.
  assert (H1 : trimStart (c :: r ++ [d]) = c :: r ++ [d])
    by (simpl; rewrite Hc; reflexivity).
  rewrite H1.
  assert (H2 : rev (c :: r ++ [d]) = d :: rev (c :: r)).
  { change (c :: r ++ [d]) with ((c :: r) ++ [d]).
    rewrite List.rev_app_distr. reflexivity. }
  rewrite H2.
  assert (H3 : trimStart (d :: rev (c :: r)) = d :: rev (c :: r))
    by (cbn [trimStart]; rewrite Hd; reflexivity).
  rewrite H3.
  transitivity (rev (rev (c :: r)) ++ [d]); [reflexivity|].
  rewrite List.rev_involutive. reflexivity.
Qed.

Lemma removeMarkdown_quiet t body :
  let s := openChar t :: body ++ [closeChar t] in
  forallb quietCodeUnit s = true -> removeMarkdown s = s.
Proof.
  intros s Hq. unfold removeMarkdown.
  rewrite (replaceAll_nowhere _ _ s) by (apply occursIn_fence_CI, Hq).
  rewrite (replaceAll_nowhere _ _ s) by (apply occursIn_fence_CI, Hq).
  rewrite (replaceAll_nowhere _ _ s) by (apply occursIn_fence_CI, Hq).
  rewrite (replaceAll_nowhere _ _ s)
    by (apply occursIn_mlit_loud; [reflexivity | exact Hq]).
  assert (Hr : removeAtStart
                 (mstar isWhiteSpace >> mlitCI (js "json") >> mstar isWhiteSpace) s = s).
  { subst s. destruct t; reflexivity. }
  rewrite Hr. subst s. apply trim_fixed; destruct t; reflexivity.
Qed.

Lemma protectEscapes_quiet s :
  forallb quietCodeUnit s = true -> protectEscapes s = s.
Proof.
  intros Hq. unfold protectEscapes.
  repeat rewrite (replaceAll_nowhere _ _ s)
    by (apply occursIn_mlit_loud; [reflexivity | exact Hq]).
  reflexivity.
Qed.

Lemma blankControls_quiet s :
  forallb quietCodeUnit s = true -> blankControls s = s.
Proof.
  intros Hq. unfold blankControls.
  rewrite (replaceAll_nowhere _ _ s)
    by (apply occursIn_mclass_loud; [apply isControlNotTabLfCr_loud | exact Hq]).
  repeat rewrite (replaceAll_nowhere _ _ s)
    by (apply occursIn_mlit_loud; [reflexivity | exact Hq]).
  reflexivity.
Qed.

Lemma occursIn_mlit_app p q s :
  includes p s = false -> occursIn (mlit (p ++ q)) s = false.
Proof.
  induction s as [|c r IH]; intros H; [reflexivity|].
  cbn [includes] in H. apply orb_false_elim in H as [H1 H2].
  cbn [occursIn]. rewrite (IH H2), orb_false_r.
  unfold mlit. destruct (isPrefixOf (p ++ q) (c :: r)) eqn:E; [|reflexivity].
  rewrite (isPrefixOf_app_l p q _ E) in H1. discriminate.
Qed.

Lemma restoreEscapes_quiet s :
  includes escapeProtector s = false -> restoreEscapes s = s.
Proof.
  intros Hq. unfold restoreEscapes.
  repeat rewrite (replaceAll_nowhere _ _ s) by (apply occursIn_mlit_app, Hq).
  reflexivity.
Qed.

Lemma fixQuotes_quiet s :
  forallb quietCodeUnit s = true -> fixQuotes s = s.
Proof.
  intros Hq. unfold fixQuotes.
  rewrite (replaceAll_class_same _ dquote s).
  2:{ intros c Hc. unfold isOneOf in Hc. simpl in Hc.
      rewrite orb_false_r, orb_diag in Hc. apply code_eqb_eq in Hc. exact Hc. }
  rewrite (replaceAll_class_same _ (ch "'") s).
  2:{ intros c Hc. unfold isOneOf in Hc. simpl in Hc.
      rewrite orb_false_r, orb_diag in Hc. apply code_eqb_eq in Hc. exact Hc. }
  apply replaceAll_nowhere.
  apply (occursIn_mlit_loud ellipsis []); [reflexivity | exact Hq].
Qed.

Lemma fixUnicodeEscapes_quiet s :
  forallb quietCodeUnit s = true -> fixUnicodeEscapes s = s.
Proof.
  intros Hq. unfold fixUnicodeEscapes, validUnicodePattern.
  rewrite replaceFrom_nowhere
    by (apply (occursIn_mlit_seq_loud bslash); [reflexivity | exact Hq]).
  rewrite (replaceAll_nowhere _ _ s)
    by (apply (occursIn_mlit_seq_loud bslash); [reflexivity | exact Hq]).
  rewrite (replaceAll_nowhere _ _ s)
    by (apply (occursIn_mlit_seq_loud bslash); [reflexivity | exact Hq]).
  reflexivity.
Qed.

Lemma dropInvalidEscapes_quiet s :
  forallb quietCodeUnit s = true -> dropInvalidEscapes s = s.
Proof.
  intros Hq. unfold dropInvalidEscapes. apply replaceWith_nowhere.
  apply (occursIn_mlit_seq_loud bslash); [reflexivity | exact Hq].
Qed.

Lemma finalSweep_quiet s :
  forallb quietCodeUnit s = true -> finalSweep s = s.
Proof.
  intros Hq. unfold finalSweep.
  rewrite (replaceAll_nowhere _ _ s)
    by (apply (occursIn_mlit_seq_loud bslash); [reflexivity | exact Hq]).
  rewrite (replaceAll_nowhere _ _ s)
    by (apply (occursIn_mlit_seq_loud bslash); [reflexivity | exact Hq]).
  apply replaceAll_nowhere.
  apply occursIn_mclass_loud; [apply isControlNotTabLfCr'_loud | exact Hq].
Qed.

Lemma quietText_parts s :
  quietText s = true ->
  forallb quietCodeUnit s = true /\
  occursIn trailingCommaPattern s = false /\
  occursIn doubleSpacePattern s = false /\
  includes escapeProtector s = false.
Proof.
  unfold quietText. intros H.
  apply andb_prop in H as [H H4]. apply andb_prop in H as [H H3].
  apply andb_prop in H as [H1 H2].
  apply negb_true_iff in H2, H3, H4. auto.
Qed.

Lemma sanitizeJsonString_fixed (t : ExpectedType) (body : jsstring) :
  let s := openChar t :: body ++ [closeChar t] in
  quietText s = true ->
  sanitizeJsonString s = s.
Proof.
  intros s H. destruct (quietText_parts s H) as (Hq & Hc & Hd & He).
  unfold sanitizeJsonString.
  assert (Hm : removeMarkdown s = s) by exact (removeMarkdown_quiet t body Hq).
  rewrite Hm.
  rewrite (protectEscapes_quiet s Hq), (blankControls_quiet s Hq),
    (restoreEscapes_quiet s He), (fixQuotes_quiet s Hq),
    (fixUnicodeEscapes_quiet s Hq).
  unfold removeTrailingCommas.
  rewrite (replaceWith_nowhere _ _ s Hc).
  rewrite (collapseSpaces_quiet s Hq Hd), (dropInvalidEscapes_quiet s Hq).
  apply finalSweep_quiet, Hq.
Qed.

(** X16.  The sanitizer leaves a quiet bracketed text as it is: a text
    from an opening to a closing bracket, without control characters,
    backticks, backslashes or ellipses, whose only white space is single
    spaces, with no comma before a closing bracket and no occurrence of
    the protector. *)
Theorem sanitizeJsonString_quiet (t : ExpectedType) (body : jsstring) :
  let s := openChar t :: body ++ [closeChar t] in
  quietText s = true ->
  sanitizeJsonString s = s.
Proof.
  intros s H. destruct (quietText_parts s H) as (Hq & Hc & Hd & He).
  unfold sanitizeJsonString.
  assert (Hm : removeMarkdown s = s) by exact (removeMarkdown_quiet t body Hq).
  rewrite Hm, (protectEscapes_quiet s Hq), (blankControls_quiet s Hq),
    (restoreEscapes_quiet s He), (fixQuotes_quiet s Hq),
    (fixUnicodeEscapes_quiet s Hq).
  unfold removeTrailingCommas.
  rewrite (replaceWith_nowhere _ _ s Hc).
  rewrite (collapseSpaces_quiet s Hq Hd), (dropInvalidEscapes_quiet s Hq).
  apply finalSweep_quiet, Hq.
Qed.

Lemma sanitizeJsonString_quiet_witness :
  sanitizeJsonString (js "[{'question_type': 'MCQ', 'options': ['a', 'b']}, 12]") =
    js "[{'question_type': 'MCQ', 'options': ['a', 'b']}, 12]".
Proof.
  apply (sanitizeJsonString_quiet ExpectArray
           (js "{'question_type': 'MCQ', 'options': ['a', 'b']}, 12")).
  vm_compute. reflexivity.
Defined.

Lemma lastIndexOf_absent c s : absent c s -> lastIndexOf c s = None.
Proof.
  induction 1 as [|x s Hx _ IH]; [reflexivity|].
  simpl. rewrite IH.
  destruct (code_eqb x c) eqn:E; [apply code_eqb_eq in E; congruence | reflexivity].
Qed.

Lemma lastIndexOf_last c post : forall l,
  absent c post -> lastIndexOf c (l ++ c :: post) = Some (length l).
Proof.
  intros l Hp. induction l as [|x l IH]; simpl.
  - rewrite (lastIndexOf_absent c post Hp).
    destruct (code_eqb c c) eqn:E; [reflexivity|].
    assert (code_eqb c c = true) by (apply code_eqb_eq; reflexivity). congruence.
  - rewrite IH. reflexivity.
Qed.

Lemma indexOf_first c rest : forall pre,
  absent c pre -> indexOf c (pre ++ c :: rest) = Some (length pre).
Proof.
  induction 1 as [|x pre Hx _ IH]; simpl.
  - destruct (code_eqb c c) eqn:E; [reflexivity|].
    assert (code_eqb c c = true) by (apply code_eqb_eq; reflexivity). congruence.
  - rewrite IH.
    destruct (code_eqb x c) eqn:E; [apply code_eqb_eq in E; congruence | reflexivity].
Qed.

Lemma matchBracketed_embedded t pre body post :
  absent (openChar t) pre -> absent (closeChar t) post ->
  matchBracketed t (pre ++ (openChar t :: body ++ [closeChar t]) ++ post) =
    Some (openChar t :: body ++ [closeChar t]).
Proof.
  intros Hpre Hpost. unfold matchBracketed.
  change (pre ++ (openChar t :: body ++ [closeChar t]) ++ post)
    with (pre ++ openChar t :: (body ++ [closeChar t]) ++ post).
  rewrite (indexOf_first _ _ pre Hpre).
  assert (Hd : drop (S (length pre)) (pre ++ openChar t :: (body ++ [closeChar t]) ++ post)
               = body ++ closeChar t :: post).
  { change (S (length pre)) with (1 + length pre)%nat.
    rewrite Nat.add_comm, <- drop_drop, drop_app_length. simpl.
    rewrite <- app_assoc. reflexivity. }
  rewrite Hd, (lastIndexOf_last _ post body Hpost).
  rewrite drop_app_length. f_equal.
  change (openChar t :: (body ++ [closeChar t]) ++ post)
    with ((openChar t :: body ++ [closeChar t]) ++ post).
  apply take_app_length'. simpl. rewrite length_app. simpl. lia.
Qed.

(** X17.  A quiet JSON text of the expected kind, wrapped in prose that
    holds no opening bracket before it and no closing bracket after it,
    is parsed by the first strategy: the result is what [JSON.parse]
    gives on the text itself. *)
Theorem parseJsonRobust_embedded (syntaxErrorMessage : jsstring -> jsstring)
    (expectedType : ExpectedType) (pre body post : jsstring) (v : JsonValue) :
  let text := openChar expectedType :: body ++ [closeChar expectedType] in
  absent (openChar expectedType) pre ->
  absent (closeChar expectedType) post ->
  quietText text = true ->
  JSON_parse text = Some v ->
  parseJsonRobust syntaxErrorMessage (pre ++ text ++ post) expectedType = Normal v.
Proof.
  intros text Hpre Hpost Hq Hv.
  assert (H1 : strategy1 syntaxErrorMessage (pre ++ text ++ post) expectedType = inl v).
  { unfold strategy1. subst text.
    rewrite (matchBracketed_embedded expectedType pre body post Hpre Hpost).
    rewrite (sanitizeJsonString_fixed expectedType body Hq).
    unfold tryParse. rewrite Hv. reflexivity. }
  unfold parseJsonRobust, strategies. cbn [tryStrategies]. rewrite H1. reflexivity.
Qed.

Lemma parseJsonRobust_embedded_witness :
  parseJsonRobust (fun _ => js "Unexpected token")
    (js "Here you go: " ++
     (ch "[" :: (js "{" ++ [dquote] ++ js "n" ++ [dquote] ++ js ": 12}, true") ++ [ch "]"]) ++
     js " - done.") ExpectArray =
  Normal (JArray [JObject [(js "n", JNumber (js "12"))]; JBool true]).
Proof.
  apply (parseJsonRobust_embedded (fun _ => js "Unexpected token") ExpectArray
           (js "Here you go: ")
           (js "{" ++ [dquote] ++ js "n" ++ [dquote] ++ js ": 12}, true")
           (js " - done.")).
  - vm_compute. repeat constructor; discriminate.
  - vm_compute. repeat constructor; discriminate.
  - vm_compute. reflexivity.
  - vm_compute. reflexivity.
Defined.

(** ** The key list *)

Lemma jsstring_eqb_eq a : forall b, jsstring_eqb a b = true <-> a = b.
Proof.
  induction a as [|x a IH]; intros [|y b]; simpl; split; try congruence; try discriminate.
  - intros H. apply andb_prop in H as [H1 H2].
    apply code_eqb_eq in H1. apply IH in H2. congruence.
  - intros E. injection E as -> ->. apply andb_true_intro. split.
    + apply code_eqb_eq. reflexivity.
    + apply IH. reflexivity.
Qed.

Lemma existsb_jsstring_eqb k set :
  existsb (jsstring_eqb k) set = true <-> In k set.
Proof.
  rewrite existsb_exists. split.
  - intros (x & Hx & E). apply jsstring_eqb_eq in E. subst x. exact Hx.
  - intros H. exists k. split; [exact H | apply jsstring_eqb_eq; reflexivity].
Qed.

Lemma addAllToSet_spec keys : forall set,
  List.NoDup set ->
  List.NoDup (addAllToSet set keys) /\
  (forall k, In k (addAllToSet set keys) <-> In k set \/ In k keys) /\
  (length (addAllToSet set keys) <= length set + length keys)%nat /\
  (length set <= length (addAllToSet set keys))%nat.
Proof.
  induction keys as [|x keys IH]; intros set Hnd.
  - simpl. split; [exact Hnd|]. split; [tauto|]. lia.
  - cbn [addAllToSet].
    destruct (existsb (jsstring_eqb x) set) eqn:E.
    + apply existsb_jsstring_eqb in E.
      destruct (IH set Hnd) as (H1 & H2 & H3 & H4).
      split; [exact H1|]. split; [|simpl; lia].
      intros k. rewrite H2. simpl. split; [tauto|].
      intros [H | [<- | H]]; auto.
    + assert (Hx : ~ In x set).
      { intros H. apply existsb_jsstring_eqb in H. congruence. }
      assert (Hnd' : List.NoDup (set ++ [x])).
      { apply List.NoDup_app; [exact Hnd | repeat constructor; simpl; tauto |].
        intros y Hy [<- | []]. exact (Hx Hy). }
      destruct (IH (set ++ [x]) Hnd') as (H1 & H2 & H3 & H4).
      rewrite length_app in H3, H4. simpl in H3, H4.
      split; [exact H1|]. split; [|simpl; lia].
      intros k. rewrite H2, in_app_iff. simpl. tauto.
Qed.

Lemma isPrefixOf_true p : forall s,
  isPrefixOf p s = true -> s = p ++ drop (length p) s.
Proof.
  induction p as [|a p IH]; intros s H; [reflexivity|].
  destruct s as [|b s]; [discriminate|]. simpl in H.
  apply andb_prop in H as [H1 H2]. apply code_eqb_eq in H1. subst b.
  simpl. f_equal. apply IH, H2.
Qed.

Lemma Forall_take_countWhile P s :
  Forall (fun c => P c = true) (take (countWhile P s) s).
Proof.
  induction s as [|c r IH]; simpl; [constructor|].
  destruct (P c) eqn:E; simpl; constructor; assumption.
Qed.

Lemma keyPattern_shape t k :
  keyPattern t = Some (S k) -> keyShaped (take (S k) t).
Proof.
  unfold keyPattern, mseq, mlit, mplus.
  destruct (isPrefixOf (js "AIzaSy") t) eqn:E; [|discriminate].
  apply isPrefixOf_true in E.
  set (rest := drop (length (js "AIzaSy")) t) in *.
  destruct (countWhile isKeyCodeUnit rest) as [|n] eqn:En; [discriminate|].
  intros H. injection H as H.
  exists (take (S n) rest). split; [|split].
  - rewrite E at 1. rewrite take_app. f_equal.
    + apply take_ge. simpl. lia.
    + f_equal. simpl in *. lia.
  - destruct rest; [discriminate En | discriminate].
  - rewrite <- En. apply Forall_take_countWhile.
Qed.

Lemma isKeyCodeUnit_range c :
  isKeyCodeUnit c = true -> 45 <= c <= 122.
Proof.
  unfold isKeyCodeUnit, inRange, ch. simpl N_of_ascii.
  intros H.
  repeat (apply orb_prop in H as [H | H]);
    try (apply andb_prop in H as [H1 H2]; apply N.leb_le in H1, H2; lia);
    apply N.eqb_eq in H; lia.
Qed.

Lemma isWhiteSpace_range c :
  isWhiteSpace c = true -> c <= 32 \/ 160 <= c.
Proof.
  unfold isWhiteSpace. intros H.
  destruct (N.le_gt_cases c 32) as [Hle | Hgt]; [left; exact Hle|].
  destruct (N.le_gt_cases 160 c) as [Hle | Hgt']; [right; exact Hle|].
  exfalso.
  repeat (apply orb_prop in H as [H | H]);
    try (apply andb_prop in H as [H1 H2]; apply N.leb_le in H1, H2; lia);
    apply N.eqb_eq in H; lia.
Qed.

Lemma isKeyCodeUnit_not_space c :
  isKeyCodeUnit c = true -> isWhiteSpace c = false.
Proof.
  intros H. apply isKeyCodeUnit_range in H.
  destruct (isWhiteSpace c) eqn:E; [|reflexivity].
  apply isWhiteSpace_range in E. lia.
Qed.

Lemma keyShaped_trimmed k : keyShaped k -> k <> [] /\ trim k = k.
Proof.
  intros (tail & -> & Hne & Hall). split; [discriminate|].
  destruct (exists_last Hne) as (tail' & d & ->).
  apply Forall_app in Hall as [_ Hd]. apply Forall_inv in Hd.
  change (js "AIzaSy" ++ tail' ++ [d])
    with (ch "A" :: (js "IzaSy" ++ tail') ++ [d]).
  replace ((js "IzaSy" ++ tail') ++ [d]) with (js "IzaSy" ++ tail' ++ [d])
    by (rewrite <- app_assoc; reflexivity).
  change (ch "A" :: js "IzaSy" ++ tail' ++ [d])
    with (ch "A" :: (js "IzaSy" ++ tail') ++ [d]) at 1.
  rewrite <- app_assoc.
  rewrite (app_assoc (js "IzaSy") tail' [d]).
  apply trim_fixed; [reflexivity | apply isKeyCodeUnit_not_space, Hd].
Qed.

Lemma getValidApiKeys_all apiKeys :
  Forall (fun k => k <> [] /\ trim k = k) apiKeys ->
  getValidApiKeys apiKeys = apiKeys.
Proof.
  induction 1 as [|k ks [Hne Ht] _ IH]; [reflexivity|].
  unfold getValidApiKeys in *. simpl. rewrite Ht.
  destruct k; [congruence|]. simpl. rewrite IH. reflexivity.
Qed.

Lemma map_freshKeyState_trimmed ks :
  Forall (fun k => k <> [] /\ trim k = k) ks ->
  map key (map freshKeyState ks) = ks.
Proof.
  induction 1 as [|k ks [_ Ht] _ IH]; [reflexivity|].
  simpl. rewrite Ht, IH. reflexivity.
Qed.

(** What a global match returns: texts the pattern matched, each at a
    position of the text. *)
Lemma replaceFrom_matches_at m f : forall s skip index,
  Forall (fun x => exists n k, m (drop n s) = Some (S k) /\ x = take (S k) (drop n s))
    (snd (replaceFrom m f skip index s)).
Proof.
  induction s as [|c r IH]; intros skip index; [constructor|].
  assert (Hlift : forall l,
    Forall (fun x => exists n k, m (drop n r) = Some (S k) /\ x = take (S k) (drop n r)) l ->
    Forall (fun x => exists n k, m (drop n (c :: r)) = Some (S k) /\
                                 x = take (S k) (drop n (c :: r))) l).
  { intros l. apply List.Forall_impl. intros x (n & k & Hm & Hx).
    exists (S n), k. split; assumption. }
  simpl. destruct skip as [|k']; [|apply Hlift, IH].
  destruct (m (c :: r)) as [[|k]|] eqn:E.
  - specialize (IH 0%nat index). destruct (replaceFrom m f 0 index r).
    apply Hlift, IH.
  - specialize (IH k (S index)). destruct (replaceFrom m f k (S index) r).
    simpl in *. constructor; [|apply Hlift, IH].
    exists 0%nat, k. split; [exact E | reflexivity].
  - specialize (IH 0%nat index). destruct (replaceFrom m f 0 index r).
    apply Hlift, IH.
Qed.

Lemma replaceFrom_none m f : forall s index,
  snd (replaceFrom m f 0 index s) = [] -> occursIn m s = false.
Proof.
  induction s as [|c r IH]; intros index H; [reflexivity|].
  cbn [replaceFrom occursIn] in *.
  destruct (m (c :: r)) as [[|k]|] eqn:E.
  - destruct (replaceFrom m f 0 index r) eqn:Er. simpl in H.
    specialize (IH index). rewrite Er in IH. rewrite (IH H). reflexivity.
  - destruct (replaceFrom m f k (S index) r). discriminate H.
  - destruct (replaceFrom m f 0 index r) eqn:Er. simpl in H.
    specialize (IH index). rewrite Er in IH. rewrite (IH H). reflexivity.
Qed.

Lemma keyPattern_Some t k :
  keyPattern t = Some (S k) ->
  exists c rest, t = js "AIzaSy" ++ c :: rest /\ isKeyCodeUnit c = true.
Proof.
  unfold keyPattern, mseq, mlit, mplus.
  destruct (isPrefixOf (js "AIzaSy") t) eqn:E; [|discriminate].
  apply isPrefixOf_true in E.
  destruct (drop (length (js "AIzaSy")) t) as [|c rest] eqn:Ed; [discriminate|].
  simpl countWhile. destruct (isKeyCodeUnit c) eqn:Hc; [|discriminate].
  intros _. exists c, rest. split; [exact E | exact Hc].
Qed.

Lemma keyPattern_at c rest :
  isKeyCodeUnit c = true ->
  exists k, keyPattern (js "AIzaSy" ++ c :: rest) = Some (S k).
Proof.
  intros Hc. unfold keyPattern, mseq, mlit, mplus. simpl. rewrite Hc.
  eexists. reflexivity.
Qed.

Lemma occursIn_holdsKey text :
  occursIn keyPattern text = true <-> holdsKey text.
Proof.
  split.
  - induction text as [|x text IH]; [discriminate|].
    cbn [occursIn]. intros H. apply orb_prop in H as [H | H].
    + destruct (keyPattern (x :: text)) as [[|k]|] eqn:E; try discriminate.
      destruct (keyPattern_Some _ _ E) as (c & rest & Ht & Hc).
      exists [], c, rest. split; [exact Ht | exact Hc].
    + destruct (IH H) as (before & c & after & -> & Hc).
      exists (x :: before), c, after. split; [reflexivity | exact Hc].
  - intros (before & c & after & -> & Hc).
    induction before as [|x before IH].
    + destruct (keyPattern_at c after Hc) as [k Hk].
      assert (Hm : match keyPattern (ch "A" :: (js "IzaSy" ++ c :: after)) with
                   | Some (S _) => true
                   | _ => false
                   end = true).
      { change (ch "A" :: (js "IzaSy" ++ c :: after)) with (js "AIzaSy" ++ c :: after).
        rewrite Hk. reflexivity. }
      change (match keyPattern (ch "A" :: (js "IzaSy" ++ c :: after)) with
              | Some (S _) => true
              | _ => false
              end || occursIn keyPattern (js "IzaSy" ++ c :: after) = true).
      rewrite Hm. reflexivity.
    + change ((x :: before) ++ js "AIzaSy" ++ c :: after)
        with (x :: (before ++ js "AIzaSy" ++ c :: after)).
      cbn [occursIn]. rewrite IH. apply orb_true_r.
Qed.

Lemma not_holdsKey_extracted text index :
  ~ holdsKey text ->
  snd (replaceFrom keyPattern (fun _ matched => matched) 0 index text) = [].
Proof.
  intros H. rewrite replaceFrom_nowhere; [reflexivity|].
  destruct (occursIn keyPattern text) eqn:E; [|reflexivity].
  contradiction H. apply occursIn_holdsKey, E.
Qed.

Lemma holdsKey_extracted text index :
  holdsKey text ->
  snd (replaceFrom keyPattern (fun _ matched => matched) 0 index text) <> [].
Proof.
  intros H E. apply replaceFrom_none in E.
  apply occursIn_holdsKey in H. congruence.
Qed.

Lemma take_drop_within {A} (s : list A) n k :
  exists before after, s = before ++ take k (drop n s) ++ after.
Proof.
  exists (take n s), (drop k (drop n s)).
  rewrite (take_drop k (drop n s)), take_drop. reflexivity.
Qed.

(** X18.  A paste of a text that holds no key leaves the key list as it
    is, with the error toast.  A paste of a text that holds a key replaces
    the list, with the success toast that counts the new keys: at least
    one and at most 100, without repetition, each a piece of the pasted
    text made of the prefix AIzaSy and letters, digits, underscores or
    hyphens; every one of them counts as valid, and configuring the
    rotation with them succeeds and keeps them to the letter, in order. *)
Theorem bulk_paste_keys (pastedText : jsstring) (apiKeys : list jsstring)
    (st : KeyStore) :
  (~ holdsKey pastedText ->
   handleBulkApiKeyPaste pastedText apiKeys =
     (apiKeys,
      ToastError (js "No valid API keys found. Keys must start with AIzaSy")))
  /\ (holdsKey pastedText ->
      exists newKeys,
        handleBulkApiKeyPaste pastedText apiKeys =
          (newKeys,
           ToastSuccess ([9989] ++ js " " ++ decimal (length newKeys) ++
                         js " unique API key(s) added!")) /\
        (1 <= length newKeys <= 100)%nat /\
        List.NoDup newKeys /\
        Forall (fun k => keyShaped k /\ occursWithin k pastedText) newKeys /\
        getValidApiKeys newKeys = newKeys /\
        setGeminiApiKeys (getValidApiKeys newKeys) st =
          (Normal tt,
           mkKeyStore (map (fun k => mkApiKeyState k 0 0 None None true) newKeys) 0)).
Proof.
  unfold handleBulkApiKeyPaste.
  pose proof (replaceFrom_matches_at keyPattern (fun _ m => m) pastedText 0 0) as Hm.
  pose proof (not_holdsKey_extracted pastedText 0) as Hnone.
  pose proof (holdsKey_extracted pastedText 0) as Hsome.
  set (extractedKeys := snd (replaceFrom keyPattern (fun _ m => m) 0 0 pastedText)) in *.
  split.
  - intros Hno. rewrite (Hnone Hno). reflexivity.
  - intros Hyes. specialize (Hsome Hyes).
    destruct (Nat.eqb_spec (length extractedKeys) 0) as [E0 | Hne].
    { destruct extractedKeys; [congruence | discriminate E0]. }
    set (keysToAdd := take 100 extractedKeys).
    destruct (addAllToSet_spec keysToAdd [] (List.NoDup_nil _)) as (Hnd & Hin & Hle & _).
    set (uniqueKeys := addAllToSet [] keysToAdd) in *.
    exists uniqueKeys. split; [reflexivity|].
    assert (Hshape : Forall (fun k => keyShaped k /\ occursWithin k pastedText) uniqueKeys).
    { apply List.Forall_forall. intros k Hk. apply Hin in Hk as [[] | Hk].
      assert (Hk' : In k extractedKeys).
      { apply list_elem_of_In in Hk. apply list_elem_of_In.
        apply (subseteq_take 100 extractedKeys). exact Hk. }
      destruct (proj1 (List.Forall_forall _ _) Hm k Hk') as (n & j & Ht & ->).
      split; [apply (keyPattern_shape _ j Ht)|].
      apply take_drop_within. }
    assert (Htrim : Forall (fun k => k <> [] /\ trim k = k) uniqueKeys).
    { eapply List.Forall_impl; [|exact Hshape]. intros k [Hk _].
      apply keyShaped_trimmed, Hk. }
    assert (Hpos : (1 <= length uniqueKeys)%nat).
    { destruct extractedKeys as [|x xs] eqn:Ex; [congruence|].
      assert (Hx : In x uniqueKeys) by (apply Hin; right; left; reflexivity).
      destruct uniqueKeys; [contradiction | simpl; lia]. }
    assert (Hmax : (length uniqueKeys <= 100)%nat).
    { simpl in Hle. subst keysToAdd. rewrite length_take in Hle. lia. }
    pose proof (getValidApiKeys_all uniqueKeys Htrim) as Hvalid.
    split; [lia|]. split; [exact Hnd|]. split; [exact Hshape|].
    split; [exact Hvalid|].
    rewrite Hvalid.
    assert (Hv : validKeys uniqueKeys = uniqueKeys) by exact Hvalid.
    destruct (setGeminiApiKeys_cases uniqueKeys st) as [[E _] | [_ E]].
    + rewrite Hv in E. rewrite E in Hpos. simpl in Hpos. lia.
    + rewrite E, Hv. f_equal. f_equal.
      clear - Htrim. induction Htrim as [|k ks [_ Hk] _ IH]; [reflexivity|].
      simpl. unfold freshKeyState at 1. rewrite Hk, IH. reflexivity.
Qed.

Lemma bulk_paste_keys_witness :
  exists newKeys,
    handleBulkApiKeyPaste
      (js "keys: AIzaSyAbc-1, AIzaSyXyz_2 and again AIzaSyAbc-1") [[]; []; []] =
      (newKeys,
       ToastSuccess ([9989] ++ js " " ++ decimal (length newKeys) ++
                     js " unique API key(s) added!")) /\
    newKeys = [js "AIzaSyAbc-1"; js "AIzaSyXyz_2"].
Proof.
  destruct (proj2 (bulk_paste_keys
                     (js "keys: AIzaSyAbc-1, AIzaSyXyz_2 and again AIzaSyAbc-1")
                     [[]; []; []] initialStore)) as (newKeys & E & _).
  - exists (js "keys: "), (ch "A"), (js "bc-1, AIzaSyXyz_2 and again AIzaSyAbc-1").
    split; reflexivity.
  - exists newKeys. split; [exact E|].
    vm_compute in E. injection E as E _. symmetry. exact E.
Defined.

Lemma filterOutIndex_past index : forall apiKeys i,
  (index < Z.of_nat i)%Z -> filterOutIndex index i apiKeys = apiKeys.
Proof.
  induction apiKeys as [|k rest IH]; intros i Hi; [reflexivity|].
  simpl. destruct (Z.eqb_spec (Z.of_nat i) index); [lia|].
  rewrite IH by lia. reflexivity.
Qed.

Lemma filterOutIndex_length index : forall apiKeys i,
  (length apiKeys <= S (length (filterOutIndex index i apiKeys)))%nat /\
  (length (filterOutIndex index i apiKeys) <= length apiKeys)%nat.
Proof.
  induction apiKeys as [|k rest IH]; intros i; [simpl; lia|].
  simpl. destruct (Z.eqb_spec (Z.of_nat i) index) as [E|E].
  - rewrite filterOutIndex_past by lia. lia.
  - simpl. specialize (IH (S i)). lia.
Qed.

(** [removeApiKey] on an index of the list: the entry at that index goes,
    the others stay in order. *)
Lemma filterOutIndex_delete : forall apiKeys i (n : nat),
  filterOutIndex (Z.of_nat (i + n)) i apiKeys = delete n apiKeys.
Proof.
  induction apiKeys as [|k rest IH]; intros i n; [reflexivity|].
  simpl. destruct (Z.eqb_spec (Z.of_nat i) (Z.of_nat (i + n))) as [E|E].
  - assert (n = 0%nat) by lia. subst n. simpl.
    apply filterOutIndex_past. lia.
  - destruct n as [|n]; [rewrite Nat.add_0_r in E; congruence|].
    simpl. f_equal. replace (i + S n)%nat with (S i + n)%nat by lia. apply IH.
Qed.

Lemma bulk_paste_keys_bounds pastedText apiKeys :
  match handleBulkApiKeyPaste pastedText apiKeys with
  | (newKeys, ToastError _) => newKeys = apiKeys
  | (newKeys, ToastSuccess _) => (1 <= length newKeys <= 100)%nat
  end.
Proof.
  unfold handleBulkApiKeyPaste.
  set (extractedKeys := snd (replaceFrom keyPattern (fun _ m => m) 0 0 pastedText)).
  destruct (Nat.eqb_spec (length extractedKeys) 0) as [E0 | Hne]; [reflexivity|].
  destruct (addAllToSet_spec (take 100 extractedKeys) [] (List.NoDup_nil _))
    as (_ & Hin & Hle & _).
  split.
  - destruct extractedKeys as [|x xs]; [simpl in Hne; lia|].
    assert (Hx : In x (addAllToSet [] (take 100 (x :: xs))))
      by (apply Hin; right; left; reflexivity).
    destruct (addAllToSet [] (take 100 (x :: xs))); [contradiction | simpl; lia].
  - simpl in Hle. rewrite length_take in Hle. lia.
Qed.

(** X19.  Whatever the user adds, removes or pastes, starting from the
    three blank entries, the key list never becomes empty and never
    holds more than 100 entries. *)
Theorem key_list_bounds (ops : list KeyListOp) :
  let apiKeys := fold_left applyKeyListOp ops initialApiKeys in
  (1 <= length apiKeys <= 100)%nat.
Proof.
  assert (Hstep : forall apiKeys op,
            (1 <= length apiKeys <= 100)%nat ->
            (1 <= length (applyKeyListOp apiKeys op) <= 100)%nat).
  { intros apiKeys [|index|pastedText] H; simpl.
    - unfold addApiKey. destruct (Nat.ltb_spec (length apiKeys) 100).
      + rewrite length_app. simpl. lia.
      + exact H.
    - unfold removeApiKey. destruct (Nat.ltb_spec 1 (length apiKeys)); [|exact H].
      pose proof (filterOutIndex_length index apiKeys 0). lia.
    - pose proof (bulk_paste_keys_bounds pastedText apiKeys) as Hb.
      destruct (handleBulkApiKeyPaste pastedText apiKeys) as [newKeys [m|m]]; simpl.
      + subst newKeys. exact H.
      + exact Hb. }
  intros apiKeys. subst apiKeys.
  assert (H0 : (1 <= length initialApiKeys <= 100)%nat) by (simpl; lia).
  revert H0. generalize initialApiKeys.
  induction ops as [|op ops IH]; intros apiKeys H; [exact H|].
  simpl. apply IH, Hstep, H.
Qed.

(** X20.  An index of the list, given to [removeApiKey] on a list of two
    entries or more, removes the entry at that index and nothing else:
    the keys before it and after it stay, in order. *)
Theorem removeApiKey_deletes (index : nat) (apiKeys : list jsstring) :
  (1 < length apiKeys)%nat ->
  removeApiKey (Z.of_nat index) apiKeys = take index apiKeys ++ drop (S index) apiKeys.
Proof.
  intros H. unfold removeApiKey.
  destruct (Nat.ltb_spec 1 (length apiKeys)); [|lia].
  pose proof (filterOutIndex_delete apiKeys 0 index) as Hd.
  simpl in Hd. rewrite Hd.
  apply delete_take_drop.
Qed.

Lemma removeApiKey_deletes_witness :
  removeApiKey (Z.of_nat 1) [js "a"; js "b"; js "c"] =
    take 1 [js "a"; js "b"; js "c"] ++ drop 2 [js "a"; js "b"; js "c"].
Proof.
  apply (removeApiKey_deletes 1 [js "a"; js "b"; js "c"]). simpl. lia.
Defined.

Lemma filter_idempotent {A} (f : A -> bool) (l : list A) :
  List.filter f (List.filter f l) = List.filter f l.
Proof.
  induction l as [|x l IH]; [reflexivity|].
  simpl. destruct (f x) eqn:E; [|exact IH].
  simpl. rewrite E, IH. reflexivity.
Qed.

(** X21.  On the keys [getValidApiKeys] returns, when there is one,
    [setGeminiApiKeys] does not throw: the check of the library repeats
    the check of the component.  The pool then holds these keys trimmed,
    in order, each fresh, with the cursor on the first. *)
Theorem valid_keys_configure (apiKeys : list jsstring) (st : KeyStore) :
  getValidApiKeys apiKeys <> [] ->
  setGeminiApiKeys (getValidApiKeys apiKeys) st =
    (Normal tt,
     mkKeyStore (map (fun k => mkApiKeyState (trim k) 0 0 None None true)
                   (getValidApiKeys apiKeys)) 0).
Proof.
  change (getValidApiKeys apiKeys) with (validKeys apiKeys).
  intros Hne.
  assert (Hi : validKeys (validKeys apiKeys) = validKeys apiKeys)
    by apply filter_idempotent.
  destruct (setGeminiApiKeys_cases (validKeys apiKeys) st) as [[Hv _] | [_ E]].
  - rewrite Hi in Hv. contradiction.
  - rewrite E, Hi. reflexivity.
Qed.

Lemma valid_keys_configure_witness :
  setGeminiApiKeys (getValidApiKeys [js " k1 "; js "  "; js "k2"]) initialStore =
    (Normal tt,
     mkKeyStore (map (fun k => mkApiKeyState (trim k) 0 0 None None true)
                   (getValidApiKeys [js " k1 "; js "  "; js "k2"])) 0).
Proof.
  apply (valid_keys_configure [js " k1 "; js "  "; js "k2"] initialStore).
  vm_compute. discriminate.
Defined.

Lemma countWhile_app P tail rest :
  Forall (fun c => P c = true) tail ->
  rest = [] \/ (exists c r, rest = c :: r /\ P c = false) ->
  countWhile P (tail ++ rest) = length tail.
Proof.
  intros Ht Hrest. induction Ht as [|c tail Hc _ IH]; simpl.
  - destruct Hrest as [-> | (c & r & -> & Hc)]; [reflexivity|].
    simpl. rewrite Hc. reflexivity.
  - rewrite Hc, IH. reflexivity.
Qed.

Lemma isPrefixOf_app p s : isPrefixOf p (p ++ s) = true.
Proof.
  induction p as [|a p IH]; [destruct s; reflexivity|].
  simpl. rewrite IH.
  assert (H : code_eqb a a = true) by (apply code_eqb_eq; reflexivity).
  rewrite H. reflexivity.
Qed.

Lemma keyPattern_whole k rest :
  keyShaped k ->
  rest = [] \/ (exists c r, rest = c :: r /\ isKeyCodeUnit c = false) ->
  exists n, keyPattern (k ++ rest) = Some (S n) /\ length k = S n.
Proof.
  intros (tail & -> & Hne & Htail) Hrest.
  unfold keyPattern, mseq, mlit, mplus.
  rewrite <- app_assoc, isPrefixOf_app, drop_app_length.
  rewrite (countWhile_app _ tail rest Htail Hrest).
  destruct tail as [|c tail]; [congruence|].
  simpl length. eexists. split; [reflexivity|].
  try rewrite length_app; simpl; lia.
Qed.

Lemma replaceFrom_skip m f (l r : jsstring) index :
  replaceFrom m f (length l) index (l ++ r) = replaceFrom m f 0 index r.
Proof.
  induction l as [|c l IH]; [reflexivity|].
  simpl. exact IH.
Qed.

Lemma extracted_key k rest index :
  keyShaped k ->
  rest = [] \/ (exists c r, rest = c :: r /\ isKeyCodeUnit c = false) ->
  snd (replaceFrom keyPattern (fun _ matched => matched) 0 index (k ++ rest)) =
    k :: snd (replaceFrom keyPattern (fun _ matched => matched) 0 (S index) rest).
Proof.
  intros Hk Hrest.
  destruct (keyPattern_whole k rest Hk Hrest) as (n & Hm & Hlen).
  destruct k as [|c k]; [discriminate Hlen|].
  change ((c :: k) ++ rest) with (c :: (k ++ rest)) in *.
  cbn [replaceFrom]. rewrite Hm.
  simpl in Hlen. injection Hlen as Hlen. rewrite <- Hlen.
  rewrite replaceFrom_skip.
  destruct (replaceFrom keyPattern _ 0 (S index) rest) as [out ms]. simpl.
  f_equal. f_equal. apply take_app_length.
Qed.

Lemma extracted_separator c r index :
  isKeyCodeUnit c = false ->
  snd (replaceFrom keyPattern (fun _ matched => matched) 0 index (c :: r)) =
    snd (replaceFrom keyPattern (fun _ matched => matched) 0 index r).
Proof.
  intros Hc. cbn [replaceFrom].
  assert (Hm : keyPattern (c :: r) = None).
  { destruct (keyPattern (c :: r)) as [n|] eqn:E; [exfalso | reflexivity].
    unfold keyPattern in E. apply mseq_first in E as [n' E].
    change (js "AIzaSy") with (ch "A" :: js "IzaSy") in E.
    apply mlit_head in E. subst c. discriminate Hc. }
  rewrite Hm. destruct (replaceFrom keyPattern _ 0 index r). reflexivity.
Qed.

Lemma extracted_join separator : forall keys index,
  Forall keyShaped keys ->
  isKeyCodeUnit separator = false ->
  snd (replaceFrom keyPattern (fun _ matched => matched) 0 index
         (join [separator] keys)) = keys.
Proof.
  induction keys as [|k keys IH]; intros index Hall Hsep; [reflexivity|].
  pose proof (Forall_inv Hall) as Hk. pose proof (Forall_inv_tail Hall) as Hks.
  destruct keys as [|k2 keys].
  - simpl join. rewrite <- (app_nil_r k) at 1.
    rewrite (extracted_key k [] index Hk) by (left; reflexivity). reflexivity.
  - change (join [separator] (k :: k2 :: keys))
      with (k ++ separator :: join [separator] (k2 :: keys)).
    rewrite (extracted_key k _ index Hk) by (right; eauto).
    rewrite (extracted_separator _ _ _ Hsep), (IH (S index) Hks Hsep). reflexivity.
Qed.

Lemma addAllToSet_NoDup keys : forall set,
  List.NoDup (set ++ keys) -> addAllToSet set keys = set ++ keys.
Proof.
  induction keys as [|k keys IH]; intros set Hnd; [symmetry; apply app_nil_r|].
  cbn [addAllToSet].
  destruct (existsb (jsstring_eqb k) set) eqn:E.
  - apply existsb_jsstring_eqb in E. exfalso.
    apply List.NoDup_remove_2 in Hnd. apply Hnd, in_or_app. left. exact E.
  - rewrite IH; rewrite <- app_assoc; [reflexivity | exact Hnd].
Qed.

(** X25.  Pasting up to 100 distinct keys, each the prefix AIzaSy
    followed by letters, digits, underscores or hyphens, joined by a
    separator that is none of these (a line feed, a comma, a space), sets
    the key list to exactly these keys, in order. *)
Theorem bulk_paste_round_trip (keys apiKeys : list jsstring) (separator : N) :
  keys <> [] ->
  (length keys <= 100)%nat ->
  List.NoDup keys ->
  Forall keyShaped keys ->
  isKeyCodeUnit separator = false ->
  handleBulkApiKeyPaste (join [separator] keys) apiKeys =
    (keys,
     ToastSuccess ([9989] ++ js " " ++ decimal (length keys) ++
                   js " unique API key(s) added!")).
Proof.
  intros Hne Hlen Hnd Hall Hsep. unfold handleBulkApiKeyPaste.
  rewrite (extracted_join separator keys 0 Hall Hsep).
  destruct (Nat.eqb_spec (length keys) 0) as [E | _].
  { destruct keys; [congruence | discriminate E]. }
  rewrite take_ge by lia.
  rewrite (addAllToSet_NoDup keys [] Hnd). reflexivity.
Qed.

Lemma bulk_paste_round_trip_witness :
  handleBulkApiKeyPaste
    (js "AIzaSyAbc-1" ++ [10] ++ js "AIzaSyXyz_2" ++ [10] ++ js "AIzaSyQ") [[]; []; []] =
    ([js "AIzaSyAbc-1"; js "AIzaSyXyz_2"; js "AIzaSyQ"],
     ToastSuccess ([9989] ++ js " 3 unique API key(s) added!")).
Proof.
  apply (bulk_paste_round_trip
           [js "AIzaSyAbc-1"; js "AIzaSyXyz_2"; js "AIzaSyQ"] [[]; []; []] 10).
  - discriminate.
  - simpl. lia.
  - repeat constructor; simpl; intuition discriminate.
  - repeat constructor;
      [exists (js "Abc-1") | exists (js "Xyz_2") | exists (js "Q")];
      (split; [reflexivity|]; split; [discriminate|]; repeat constructor).
  - reflexivity.
Defined.

(** ** The validator *)










